(** * mutrait: traits for JavaScript classes

    A shallow embedding of [dist/main/index.js] (the trait engine:
    [apply], [isTraitificationOf], [expresses], [wrap], [unwrap], [Cached],
    [Dedupe], [HasInstance], [BareTrait], [Trait], [superclass], [traits],
    [TraitBuilder]) over a small model of the JavaScript object heap, and the
    properties of the engine proved on it.

    The object model covers what the engine touches: ordinary objects with a
    prototype link and data properties (value, writable, configurable) keyed
    by symbols or strings, function objects, [Map] objects, primitives with
    their wrapper prototypes, strict-mode [[Get]] / [[Set]],
    [Object.getPrototypeOf], [Object.setPrototypeOf] (with its cycle check),
    [Object.defineProperty] with a [{value}] descriptor, [instanceof] and
    [new] on a class with default constructors.  Accessor properties, proxies
    and non-extensible objects are outside the model. *)

From stdpp Require Import gmap strings list fin_maps.
From Stdlib Require Import ZArith.

(** ** Values, property keys, objects *)

Module JS.

Abbreviation loc := positive (only parsing).

Inductive val :=
| VUndef
| VNull
| VBool (b : bool)
| VNum (n : Z)
| VStr (s : string)
| VObj (l : loc).

#[global] Instance val_eq_dec : EqDecision val.
Proof. solve_decision. Defined.

(** The three module-private symbols of index.js and the well-known
    [Symbol.hasInstance]. *)
Inductive symbol :=
| _appliedTrait
| _wrappedTrait
| _cachedApplications
| Symbol_hasInstance.

#[global] Instance symbol_eq_dec : EqDecision symbol.
Proof. solve_decision. Defined.

Definition symbol_code (s : symbol) : nat :=
  match s with
  | _appliedTrait => 0
  | _wrappedTrait => 1
  | _cachedApplications => 2
  | Symbol_hasInstance => 3
  end.

Definition symbol_of_code (n : nat) : option symbol :=
  match n with
  | 0 => Some _appliedTrait
  | 1 => Some _wrappedTrait
  | 2 => Some _cachedApplications
  | 3 => Some Symbol_hasInstance
  | _ => None
  end.

#[global] Instance symbol_countable : Countable symbol.
Proof. apply (inj_countable symbol_code symbol_of_code). by intros []. Defined.

Inductive key :=
| Sym (s : symbol)
| Str (s : string).

#[global] Instance key_eq_dec : EqDecision key.
Proof. solve_decision. Defined.

#[global] Instance key_countable : Countable key.
Proof.
  apply (inj_countable'
           (λ k, match k with Sym s => inl s | Str s => inr s end)
           (λ x, match x with inl s => Sym s | inr s => Str s end)).
  by intros [].
Defined.

(** A data property. *)
Record prop := Prop_ { pvalue : val; writable : bool; configurable : bool }.

(** What a function object runs when it is called.  The closures that
    index.js creates are listed with the variables they capture; a function
    supplied by the user of the library is a number into an environment of
    behaviours (see [Engine]). *)
Inductive code :=
| CUser (id : nat)
| CClass
| CBareTraitWrapper (trait : val)
| CCachedWrapper (trait : val)
| CDedupeWrapper (trait : val)
| CHasInstanceValue (priorHasInstance trait : val)
| CFunctionHasInstance.

Inductive okind :=
| Plain
| Fun (c : code)
| MapObj (entries : list (val * val)).

Record obj := Obj { proto : option loc; props : gmap key prop; kind : okind }.

Abbreviation heap := (gmap loc obj) (only parsing).

Inductive exn :=
| TypeError
| Thrown (v : val).

(** ** Intrinsic objects of the realm, at fixed addresses *)

Definition ObjectPrototype : loc := 1%positive.
Definition FunctionPrototype : loc := 2%positive.
Definition FunctionPrototype_hasInstance : loc := 3%positive.
Definition BooleanPrototype : loc := 4%positive.
Definition NumberPrototype : loc := 5%positive.
Definition StringPrototype : loc := 6%positive.
Definition MapPrototype : loc := 7%positive.
Definition TraitBuilderPrototype : loc := 8%positive.

(** ** Primitive operations on values *)

(** ToBoolean. *)
Definition truthy (v : val) : bool :=
  match v with
  | VUndef | VNull => false
  | VBool b => b
  | VNum n => negb (n =? 0)%Z
  | VStr s => negb (String.eqb s "")
  | VObj _ => true
  end.

(** [v == null]. *)
Definition nullish (v : val) : bool :=
  match v with
  | VUndef | VNull => true
  | _ => false
  end.

(** [a === b]; also SameValueZero on the values of the model. *)
Definition strict_equal (a b : val) : bool := bool_decide (a = b).

Definition is_object (v : val) : bool :=
  match v with
  | VObj _ => true
  | _ => false
  end.

(** ToObject, as far as property lookup sees it: the object where the lookup
    starts.  A primitive starts at its wrapper prototype. *)
Definition lookup_start (v : val) : option loc :=
  match v with
  | VUndef | VNull => None
  | VBool _ => Some BooleanPrototype
  | VNum _ => Some NumberPrototype
  | VStr _ => Some StringPrototype
  | VObj l => Some l
  end.

Definition val_of_proto (p : option loc) : val :=
  match p with
  | Some l => VObj l
  | None => VNull
  end.

Definition proto_of_val (p : val) : option loc :=
  match p with
  | VObj q => Some q
  | _ => None
  end.

(** ** Queries: computations that read the heap *)

Inductive qres (A : Type) :=
| Ok (a : A)
| Err (e : exn)
| QStuck.
Arguments Ok {A} a.
Arguments Err {A} e.
Arguments QStuck {A}.

Definition Q (A : Type) : Type := heap → qres A.

Definition qret {A} (a : A) : Q A := λ _, Ok a.
Definition qthrow {A} (e : exn) : Q A := λ _, Err e.
Definition qstuck {A} : Q A := λ _, QStuck.
Definition qbind {A B} (m : Q A) (k : A → Q B) : Q B :=
  λ h, match m h with
       | Ok a => k a h
       | Err e => Err e
       | QStuck => QStuck
       end.

Notation "'let?' x := m 'in' k" := (qbind m (λ x, k))
  (at level 10, x name, m at level 100, k at level 200).

(** The walk along a prototype chain that every lookup of the model is built
    on: starting at [o], the first object where [stop] answers ends the walk
    with that answer, the end of the chain ends it with none.  [None] is
    returned when the fuel runs out or an object is missing from the heap. *)
Fixpoint walk {A} (stop : loc → obj → option A) (n : nat) (h : heap)
  (o : option loc) : option (option A) :=
  match o with
  | None => Some None
  | Some l =>
      match n with
      | 0 => None
      | S n' =>
          match h !! l with
          | None => None
          | Some ob =>
              match stop l ob with
              | Some a => Some (Some a)
              | None => walk stop n' h (proto ob)
              end
          end
      end
  end.

(** A chain that ends visits no object twice, so [size h] steps walk any
    chain of [h] to its end (lemma [walk_enough]). *)
Definition walk_fuel (h : heap) : nat := S (size h).

(** The first property named [k] on the chain that starts at [o]: the walk
    of OrdinaryGet. *)
Definition find_prop (h : heap) (o : option loc) (k : key)
  : option (option prop) :=
  walk (λ _ ob, props ob !! k) (walk_fuel h) h o.

Definition prop_value (r : option prop) : val :=
  match r with
  | Some p => pvalue p
  | None => VUndef
  end.

(** [v[k]]. *)
Definition Get (v : val) (k : key) : Q val :=
  λ h, match lookup_start v with
       | None => Err TypeError
       | Some l =>
           match find_prop h (Some l) k with
           | None => QStuck
           | Some r => Ok (prop_value r)
           end
       end.

(** [Object.prototype.hasOwnProperty.call(v, k)] for a symbol or a name that
    no primitive wrapper owns. *)
Definition hasOwnProperty (v : val) (k : key) : Q bool :=
  λ h, match v with
       | VUndef | VNull => Err TypeError
       | VObj l =>
           match h !! l with
           | Some ob => Ok (bool_decide (is_Some (props ob !! k)))
           | None => QStuck
           end
       | _ => Ok false
       end.

(** [Object.getPrototypeOf(v)]. *)
Definition getPrototypeOf (v : val) : Q val :=
  λ h, match v with
       | VUndef | VNull => Err TypeError
       | VObj l =>
           match h !! l with
           | Some ob => Ok (val_of_proto (proto ob))
           | None => QStuck
           end
       | _ => Ok (val_of_proto (lookup_start v))
       end.

(** IsCallable. *)
Definition code_of (h : heap) (v : val) : option code :=
  match v with
  | VObj l =>
      match h !! l with
      | Some (Obj _ _ (Fun c)) => Some c
      | _ => None
      end
  | _ => None
  end.

Definition callable (h : heap) (v : val) : bool :=
  bool_decide (is_Some (code_of h v)).

(** Does the chain that starts at [o] pass through [target]?  The loop of
    OrdinarySetPrototypeOf and of OrdinaryHasInstance. *)
Definition on_chain (h : heap) (o : option loc) (target : loc) : option bool :=
  match walk (λ l _, if decide (l = target) then Some tt else None)
             (walk_fuel h) h o with
  | None => None
  | Some None => Some false
  | Some (Some _) => Some true
  end.

(** [Map.prototype.get.call(m, k)]. *)
Fixpoint assoc (k : val) (entries : list (val * val)) : option val :=
  match entries with
  | [] => None
  | (k', v) :: rest => if decide (k' = k) then Some v else assoc k rest
  end.

Fixpoint assoc_set (k v : val) (entries : list (val * val)) : list (val * val) :=
  match entries with
  | [] => [(k, v)]
  | (k', v') :: rest =>
      if decide (k' = k) then (k', v) :: rest else (k', v') :: assoc_set k v rest
  end.

Definition Map_get (m k : val) : Q val :=
  λ h, match m with
       | VObj l =>
           match h !! l with
           | Some (Obj _ _ (MapObj entries)) => Ok (default VUndef (assoc k entries))
           | Some _ => Err TypeError
           | None => QStuck
           end
       | _ => Err TypeError
       end.

(** ** Commands: computations that change the heap and call functions *)

(** The calls made, in order: callee and argument. *)
Inductive event := Called (f arg : val).

#[global] Instance event_eq_dec : EqDecision event.
Proof. solve_decision. Defined.

Abbreviation trace := (list event) (only parsing).

Inductive outcome (A : Type) :=
| Ret (a : A) (h : heap)
| Throw (e : exn) (h : heap)
| Stuck.
Arguments Ret {A} a h.
Arguments Throw {A} e h.
Arguments Stuck {A}.

Definition M (A : Type) : Type := heap → outcome A * trace.

Definition ret {A} (a : A) : M A := λ h, (Ret a h, []).
Definition throw {A} (e : exn) : M A := λ h, (Throw e h, []).
Definition stuck {A} : M A := λ _, (Stuck, []).
Definition bind {A B} (m : M A) (k : A → M B) : M B :=
  λ h, match m h with
       | (Ret a h', t) => let '(o, t') := k a h' in (o, t ++ t')
       | (Throw e h', t) => (Throw e h', t)
       | (Stuck, t) => (Stuck, t)
       end.

Notation "'let*' x := m 'in' k" := (bind m (λ x, k))
  (at level 10, x name, m at level 100, k at level 200).

Definition query {A} (q : Q A) : M A :=
  λ h, match q h with
       | Ok a => (Ret a h, [])
       | Err e => (Throw e h, [])
       | QStuck => (Stuck, [])
       end.

Definition emit (e : event) : M unit := λ h, (Ret tt h, [e]).

(** The heap a command leaves. *)
Definition heap_after {A} (o : outcome A) : option heap :=
  match o with
  | Ret _ h | Throw _ h => Some h
  | Stuck => None
  end.

(** A new object, at an address the heap does not use. *)
Definition alloc (ob : obj) : M loc :=
  λ h, let l := fresh (dom h) in (Ret l (<[l := ob]> h), []).

(** An arrow function or method: a function object without own properties
    that the engine reads. *)
Definition new_function (c : code) : M val :=
  let* l := alloc (Obj (Some FunctionPrototype) ∅ (Fun c)) in ret (VObj l).

(** [new Map()]. *)
Definition new_Map : M val :=
  let* l := alloc (Obj (Some MapPrototype) ∅ (MapObj [])) in ret (VObj l).

(** Writes the own property [k] of an object: the value of an existing
    property is replaced and its attributes kept; a new property is
    writable and configurable. *)
Definition write_own (k : key) (v : val) (ob : obj) : obj :=
  let p := match props ob !! k with
           | Some p0 => Prop_ v (writable p0) (configurable p0)
           | None => Prop_ v true true
           end in
  Obj (proto ob) (<[k := p]> (props ob)) (kind ob).

(** [target[k] = v] in strict code: OrdinarySet with the target as
    receiver. *)
Definition Set_ (target : val) (k : key) (v : val) : M unit :=
  λ h, match target with
       | VObj l =>
           match h !! l, find_prop h (Some l) k with
           | Some ob, Some found =>
               if match found with Some p => writable p | None => true end
               then (Ret tt (<[l := write_own k v ob]> h), [])
               else (Throw TypeError h, [])
           | _, _ => (Stuck, [])
           end
       | _ => (Throw TypeError h, [])
       end.

(** [Object.setPrototypeOf(o, p)]. *)
Definition setPrototypeOf (o p : val) : M val :=
  λ h, match o, p with
       | (VUndef | VNull), _ => (Throw TypeError h, [])
       | _, (VUndef | VBool _ | VNum _ | VStr _) => (Throw TypeError h, [])
       | VObj l, _ =>
           let newp := proto_of_val p in
           match h !! l with
           | None => (Stuck, [])
           | Some ob =>
               if decide (proto ob = newp) then (Ret o h, [])
               else match on_chain h newp l with
                    | None => (Stuck, [])
                    | Some true => (Throw TypeError h, [])
                    | Some false =>
                        (Ret o (<[l := Obj newp (props ob) (kind ob)]> h), [])
                    end
           end
       | _, _ => (Ret o h, [])
       end.

(** [Object.defineProperty(o, k, {value: v})]. *)
Definition defineProperty (o : val) (k : key) (v : val) : M val :=
  λ h, match o with
       | VObj l =>
           match h !! l with
           | None => (Stuck, [])
           | Some ob =>
               match props ob !! k with
               | None =>
                   (Ret o (<[l := Obj (proto ob) (<[k := Prop_ v false false]> (props ob))
                                     (kind ob)]> h), [])
               | Some p =>
                   if configurable p || writable p || strict_equal (pvalue p) v
                   then (Ret o (<[l := write_own k v ob]> h), [])
                   else (Throw TypeError h, [])
               end
           end
       | _ => (Throw TypeError h, [])
       end.

(** [Map.prototype.set.call(m, k, v)]. *)
Definition Map_set (m k v : val) : M unit :=
  λ h, match m with
       | VObj l =>
           match h !! l with
           | Some (Obj pr ps (MapObj entries)) =>
               (Ret tt (<[l := Obj pr ps (MapObj (assoc_set k v entries))]> h), [])
           | Some _ => (Throw TypeError h, [])
           | None => (Stuck, [])
           end
       | _ => (Throw TypeError h, [])
       end.

(** CreateMethodProperty on an ordinary extensible object: [o] gets the own
    property [k], whatever its prototype chain holds. *)
Definition define_own (o : val) (k : key) (v : val) : M unit :=
  λ h, match o with
       | VObj l =>
           match h !! l with
           | Some ob => (Ret tt (<[l := write_own k v ob]> h), [])
           | None => (Stuck, [])
           end
       | _ => (Throw TypeError h, [])
       end.

(** [class {}]: the prototype object, then the constructor that owns it;
    [constructor] is defined on the prototype object as an own property. *)
Definition new_class (parent : option loc) (protoParent : option loc) : M val :=
  let* p := alloc (Obj protoParent ∅ Plain) in
  let* c := alloc (Obj parent
                       {[ Str "prototype" := Prop_ (VObj p) false false ]}
                       (Fun CClass)) in
  let* _ := define_own (VObj p) (Str "constructor") (VObj c) in
  ret (VObj c).

(** OrdinaryHasInstance(C, O). *)
Definition OrdinaryHasInstance (C O : val) : Q bool :=
  λ h, if negb (callable h C) then Ok false
       else match O with
            | VObj o =>
                match Get C (Str "prototype") h with
                | Ok (VObj P) =>
                    match h !! o with
                    | Some ob =>
                        match on_chain h (proto ob) P with
                        | Some b => Ok b
                        | None => QStuck
                        end
                    | None => QStuck
                    end
                | Ok _ => Err TypeError
                | Err e => Err e
                | QStuck => QStuck
                end
            | _ => Ok false
            end.

End JS.

(** ** The trait engine (dist/main/index.js) *)

Module Mutrait.
Import JS.

Section Engine.

(** The functions that come from outside index.js (trait bodies, custom
    [Symbol.hasInstance] methods): [user id this arg h] is what the function
    numbered [id] does when called with receiver [this] and argument [arg]
    on the heap [h]. *)
Variable user : nat → val → val → heap → outcome val.

(** [const unwrap = wrapper => wrapper[_wrappedTrait] || wrapper] *)
Definition unwrap (wrapper : val) : Q val :=
  let? w := Get wrapper (Sym _wrappedTrait) in
  qret (if truthy w then w else wrapper).

(** [const isTraitificationOf = (proto, trait) =>
      Object.prototype.hasOwnProperty.call(proto, _appliedTrait) &&
      proto[_appliedTrait] === unwrap(trait)] *)
Definition isTraitificationOf (proto trait : val) : Q bool :=
  let? own := hasOwnProperty proto (Sym _appliedTrait) in
  if own then
    let? applied := Get proto (Sym _appliedTrait) in
    let? u := unwrap trait in
    qret (strict_equal applied u)
  else qret false.

(** [while (it != null) { if (isTraitificationOf(it, trait)) return true;
      it = Object.getPrototypeOf(it) } return false] *)
Fixpoint expresses_loop (n : nat) (it trait : val) : Q bool :=
  if nullish it then qret false
  else match n with
       | 0 => qstuck
       | S n' =>
           let? found := isTraitificationOf it trait in
           if found then qret true
           else let? next := getPrototypeOf it in
                expresses_loop n' next trait
       end.

Definition expresses (it trait : val) : Q bool :=
  λ h, expresses_loop (walk_fuel h) it trait h.

(** [const wrap = (trait, wrapper) => { Object.setPrototypeOf(wrapper, trait);
      if (!trait[_wrappedTrait]) { trait[_wrappedTrait] = trait }
      return wrapper }] *)
Definition wrap (trait wrapper : val) : M val :=
  let* _ := setPrototypeOf wrapper trait in
  let* w := query (Get trait (Sym _wrappedTrait)) in
  let* _ := if negb (truthy w) then Set_ trait (Sym _wrappedTrait) trait
            else ret tt in
  ret wrapper.

(** [let cachedApplications = superclass[_cachedApplications];
     if (!cachedApplications) {
       cachedApplications = superclass[_cachedApplications] = new Map() }] *)
Definition cachedApplications_of (superclass : val) : M val :=
  let* found := query (Get superclass (Sym _cachedApplications)) in
  if negb (truthy found) then
    let* m := new_Map in
    let* _ := Set_ superclass (Sym _cachedApplications) m in
    ret m
  else ret found.

Section Bodies.

(** The function-call operation [f(arg)], with [this] undefined: the bodies
    below are the ones [call] runs, so they take it as a parameter. *)
Variable callf : val → val → M val.

(** [const apply = (superclass, trait) => {
      const application = trait(superclass);
      application.prototype[_appliedTrait] = unwrap(trait);
      return application }] *)
Definition apply_body (superclass trait : val) : M val :=
  let* application := callf trait superclass in
  let* surface := query (Get application (Str "prototype")) in
  let* u := query (unwrap trait) in
  let* _ := Set_ surface (Sym _appliedTrait) u in
  ret application.

(** The closure of [Cached]:
    [superclass => {
       let cachedApplications = superclass[_cachedApplications];
       if (!cachedApplications) {
         cachedApplications = superclass[_cachedApplications] = new Map() }
       let application = cachedApplications.get(trait);
       if (!application) {
         application = trait(superclass);
         cachedApplications.set(trait, application) }
       return application }]
    Its first two statements, which find or create the cache of the
    superclass, are [cachedApplications_of]. *)
Definition Cached_body (trait superclass : val) : M val :=
  let* cachedApplications := cachedApplications_of superclass in
  let* cached := query (Map_get cachedApplications trait) in
  if negb (truthy cached) then
    let* application := callf trait superclass in
    let* _ := Map_set cachedApplications trait application in
    ret application
  else ret cached.

(** The closure of [Dedupe]:
    [superclass => expresses(superclass.prototype, trait)
                     ? superclass : trait(superclass)] *)
Definition Dedupe_body (trait superclass : val) : M val :=
  let* surface := query (Get superclass (Str "prototype")) in
  let* present := query (expresses surface trait) in
  if present then ret superclass else callf trait superclass.

(** The method that [HasInstance] installs:
    [value (it) { return priorHasInstance(it) || expresses(it, trait) }] *)
Definition HasInstance_value (priorHasInstance trait it : val) : M val :=
  let* prior := callf priorHasInstance it in
  if truthy prior then ret prior
  else let* e := query (expresses it trait) in ret (VBool e).

End Bodies.

(** What a function object does when it is called with [this] and [arg]. *)
Definition run_code (callf : val → val → M val) (c : code) (this arg : val)
  : M val :=
  match c with
  | CUser id => λ h, (user id this arg h, [])
  | CClass => throw TypeError
  | CBareTraitWrapper trait => apply_body callf arg trait
  | CCachedWrapper trait => Cached_body callf trait arg
  | CDedupeWrapper trait => Dedupe_body callf trait arg
  | CHasInstanceValue priorHasInstance trait =>
      HasInstance_value callf priorHasInstance trait arg
  | CFunctionHasInstance =>
      let* b := query (OrdinaryHasInstance this arg) in
      ret (VBool b)
  end.

(** [[Call]]: [f.call(this, arg)].  The fuel bounds the nesting of calls;
    every call of a function object is recorded in the trace. *)
Fixpoint call (fuel : nat) (f this arg : val) : M val :=
  match fuel with
  | 0 => stuck
  | S n =>
      λ h, match code_of h f with
           | Some c =>
               (let* _ := emit (Called f arg) in
                run_code (λ g a, call n g VUndef a) c this arg) h
           | None =>
               match f with
               | VObj l => if decide (is_Some (h !! l)) then (Throw TypeError h, [])
                           else (Stuck, [])
               | _ => (Throw TypeError h, [])
               end
           end
  end.

(** [f(arg)]. *)
Definition invoke (fuel : nat) (f arg : val) : M val := call fuel f VUndef arg.

Definition apply (fuel : nat) (superclass trait : val) : M val :=
  apply_body (invoke fuel) superclass trait.

(** [const Cached = trait => wrap(trait, superclass => { ... })] *)
Definition Cached (trait : val) : M val :=
  let* wrapper := new_function (CCachedWrapper trait) in
  wrap trait wrapper.

(** [const Dedupe = trait => wrap(trait, superclass => ...)] *)
Definition Dedupe (trait : val) : M val :=
  let* wrapper := new_function (CDedupeWrapper trait) in
  wrap trait wrapper.

(** [const HasInstance = trait => {
      if (Symbol && Symbol.hasInstance) {
        const priorHasInstance = trait[Symbol.hasInstance];
        Object.defineProperty(trait, Symbol.hasInstance, { value (it) {...} }) }
      return trait }]
    [hasInstanceSymbol] says whether the realm has [Symbol.hasInstance]. *)
Definition HasInstance (hasInstanceSymbol : bool) (trait : val) : M val :=
  if hasInstanceSymbol then
    let* priorHasInstance := query (Get trait (Sym Symbol_hasInstance)) in
    let* value := new_function (CHasInstanceValue priorHasInstance trait) in
    let* _ := defineProperty trait (Sym Symbol_hasInstance) value in
    ret trait
  else ret trait.

(** [const BareTrait = trait => wrap(trait, superclass => apply(superclass, trait))] *)
Definition BareTrait (trait : val) : M val :=
  let* wrapper := new_function (CBareTraitWrapper trait) in
  wrap trait wrapper.

(** [const Trait = trait => HasInstance(Dedupe(Cached(BareTrait(trait))))] *)
Definition Trait (hasInstanceSymbol : bool) (trait : val) : M val :=
  let* bare := BareTrait trait in
  let* cached := Cached bare in
  let* deduped := Dedupe cached in
  HasInstance hasInstanceSymbol deduped.

(** [class TraitBuilder { constructor (superclass) {
      this.superclass = superclass || class {} } ... }] *)
Definition TraitBuilder_constructor (this superclass : val) : M unit :=
  let* base := if truthy superclass then ret superclass
               else new_class (Some FunctionPrototype) (Some ObjectPrototype) in
  Set_ this (Str "superclass") base.

(** [new TraitBuilder(superclass)] *)
Definition new_TraitBuilder (superclass : val) : M val :=
  let* this := alloc (Obj (Some TraitBuilderPrototype) ∅ Plain) in
  let* _ := TraitBuilder_constructor (VObj this) superclass in
  ret (VObj this).

(** [Array.prototype.reduce] with an initial value. *)
Fixpoint reduce (f : val → val → M val) (l : list val) (acc : val) : M val :=
  match l with
  | [] => ret acc
  | x :: rest => let* acc' := f acc x in reduce f rest acc'
  end.

(** [expressing (...traits) {
      return traits.reduce((it, t) => t(it), this.superclass) }] *)
Definition expressing (fuel : nat) (this : val) (traits : list val) : M val :=
  let* base := query (Get this (Str "superclass")) in
  reduce (λ it t, invoke fuel t it) traits base.

(** [const superclass = superclass => new TraitBuilder(superclass)] *)
Definition superclass (superclass : val) : M val := new_TraitBuilder superclass.

(** [const traits = (...ts) => superclass().expressing(...ts)] *)
Definition traits (fuel : nat) (ts : list val) : M val :=
  let* builder := superclass VUndef in
  expressing fuel builder ts.

(** [const trait = traits] *)
Definition trait := traits.

(** [v instanceof target] *)
Definition instanceof (fuel : nat) (v target : val) : M bool :=
  match target with
  | VObj _ =>
      let* handler := query (Get target (Sym Symbol_hasInstance)) in
      if nullish handler then
        let* b := query (λ h, if callable h target then OrdinaryHasInstance target v h
                              else Err TypeError) in
        ret b
      else
        let* r := call fuel handler target v in
        ret (truthy r)
  | _ => throw TypeError
  end.

(** [new C()] for a class whose constructors, its own and the inherited
    ones, are the default ones: the new object inherits from [C.prototype]. *)
Definition construct (C : val) : M val :=
  λ h, match code_of h C with
       | Some CClass =>
           (let* p := query (Get C (Str "prototype")) in
            let l := match p with VObj q => q | _ => ObjectPrototype end in
            let* i := alloc (Obj (Some l) ∅ Plain) in
            ret (VObj i)) h
       | Some (CUser _) => (Stuck, [])
       | _ => (Throw TypeError h, [])
       end.

End Engine.

End Mutrait.
(** * The vocabulary of the statements *)

Module Notions.
Import JS Mutrait.

(** ** Prototype chains *)

Section Walk.
Context {A : Type} (stop : loc → obj → option A).

(** The objects a walk visits, in order, and its answer: the walk without
    its fuel. *)
Inductive path (h : heap) : option loc → list loc → option A → Prop :=
| path_end : path h None [] None
| path_stop l ob a :
    h !! l = Some ob → stop l ob = Some a → path h (Some l) [l] (Some a)
| path_next l ob L r :
    h !! l = Some ob → stop l ob = None → path h (proto ob) L r →
    path h (Some l) (l :: L) r.

End Walk.

(** [h'] keeps every object of [h], with its prototype link and with what
    it holds under [k]. *)
Definition same_on (k : key) (h h' : heap) : Prop :=
  ∀ l ob, h !! l = Some ob →
    ∃ ob', h' !! l = Some ob' ∧ proto ob' = proto ob ∧ props ob' !! k = props ob !! k.

(** [h'] keeps every object of [h], with its prototype link, its nature and
    what it holds under [k]. *)
Definition kept (k : key) (h h' : heap) : Prop :=
  ∀ l ob, h !! l = Some ob →
    ∃ ob', h' !! l = Some ob' ∧ proto ob' = proto ob ∧ kind ob' = kind ob
           ∧ props ob' !! k = props ob !! k.

(** Whatever the outcome of [m], the heap it leaves is [kept]. *)
Definition frames {A} (k : key) (m : M A) : Prop :=
  ∀ (h : heap) o t h', m h = (o, t) → heap_after o = Some h' → kept k h h'.

(** ** Wrappers *)

(** A function object that carries no back-reference of its own: one that
    was never the first argument of [wrap]. *)
Definition plain (h : heap) (w : val) : Prop :=
  ∃ l ob, w = VObj l ∧ h !! l = Some ob ∧ props ob !! Sym _wrappedTrait = None.

(** Wrapping in several layers, innermost first. *)
Fixpoint wrap_layers (T : val) (ws : list val) : M val :=
  match ws with
  | [] => ret T
  | w :: rest => let* r := wrap T w in wrap_layers r rest
  end.

(** Every back-reference points to the function that owns it: what
    [trait[_wrappedTrait] = trait] writes. *)
Definition backrefs_at_home (h : heap) : Prop :=
  ∀ l ob p, h !! l = Some ob → props ob !! Sym _wrappedTrait = Some p → pvalue p = VObj l.

(** ** Behaviour surfaces *)

(** What the loop of [expresses] asks of each object of the chain. *)
Definition surface_stop (trait : val) (h : heap) : loc → obj → option (qres bool) :=
  λ l _, match isTraitificationOf (VObj l) trait h with
         | Ok false => None
         | r => Some r
         end.

Definition expresses_answer (r : option (option (qres bool))) : qres bool :=
  match r with
  | None => QStuck
  | Some None => Ok false
  | Some (Some a) => a
  end.

(** The behaviour surfaces that follow one another from [v] on: [L] is the
    list of the surfaces passed, [last] is what follows them. *)
Inductive surfaces (h : heap) : val → list val → val → Prop :=
| surfaces_nil v : surfaces h v [] v
| surfaces_cons v next L last :
    nullish v = false → getPrototypeOf v h = Ok next → surfaces h next L last →
    surfaces h v (v :: L) last.

(** ** Caches and traces *)

(** Objects keep their nature: a function its code, a map its being a map. *)
Inductive same_kind : okind → okind → Prop :=
| same_kind_plain : same_kind Plain Plain
| same_kind_fun c : same_kind (Fun c) (Fun c)
| same_kind_map entries entries' : same_kind (MapObj entries) (MapObj entries').

Definition keeps_objects (h h' : heap) : Prop :=
  ∀ l ob, h !! l = Some ob → ∃ ob', h' !! l = Some ob' ∧ same_kind (kind ob) (kind ob').

(** What the closure of [Cached] would find for [trait] on [superclass]. *)
Definition cached_application (superclass trait : val) : Q val :=
  let? found := Get superclass (Sym _cachedApplications) in
  if truthy found then Map_get found trait else qret VUndef.

Definition callee (e : event) : val :=
  match e with
  | Called f _ => f
  end.

(** How often [f] was called. *)
Definition invocations (f : val) (t : trace) : nat :=
  length (filter (λ e, callee e = f) t).

(** What the engine relies on from one heap to a later one: every object
    is still there with its prototype link, its back-reference and its
    [Symbol.hasInstance] method, and functions are the functions they
    were. *)
Definition carried (h h' : heap) : Prop :=
  same_on (Sym _wrappedTrait) h h' ∧ same_on (Sym Symbol_hasInstance) h h' ∧
  ∀ v c, code_of h v = Some c → code_of h' v = Some c.

(** The outcome of a command that only asks [q] of the heap [h]. *)
Definition outcome_of_query {A} (q : qres A) (h : heap) : outcome A :=
  match q with
  | Ok a => Ret a h
  | Err e => Throw e h
  | QStuck => Stuck
  end.

(** ** Runs of user functions *)

Section User.
Variable user : nat → val → val → heap → outcome val.

(** What the idempotence of [Cached] asks of the trait: whenever [T] (the
    function with the code [c]) is applied to [B], objects keep their
    nature, and [B[_cachedApplications]] and what that cache holds for [T]
    read afterwards as before. *)
Definition leaves_cache_alone (n : nat) (T B : val) (c : option code) : Prop :=
  ∀ (h : heap) o t h',
    code_of h T = c → invoke user n T B h = (o, t) → heap_after o = Some h' →
    keeps_objects h h' ∧
    ∀ m, Get B (Sym _cachedApplications) h = Ok m →
         Get B (Sym _cachedApplications) h' = Ok m ∧
         ∀ x, Map_get m T h = Ok x → Map_get m T h' = Ok x.

(** The type check that [HasInstance] is to give: the check the trait had
    before, that is its prior [Symbol.hasInstance] method applied to the
    trait as [instanceof] applies it, and, when the answer of that is not
    truthy, [expresses]. *)
Definition prior_or_expresses (n : nat) (prior trait it : val) : M bool :=
  let* p := call user n prior trait it in
  if truthy p then ret true
  else let* e := query (expresses it trait) in ret e.

(** [Tn(...(T2(T1(B))))], the traits listed from the outermost, [Tn], to
    the innermost, [T1]. *)
Fixpoint nested (n : nat) (outer_first : list val) (B : val) : M val :=
  match outer_first with
  | [] => ret B
  | Tn :: inner => let* x := nested n inner B in invoke user n Tn x
  end.

End User.

End Notions.


(** ** A sample realm and sample traits *)

Module Sample.
Import JS Mutrait.

(** The intrinsic objects. *)
Definition realm : heap :=
  list_to_map
    [ (ObjectPrototype, Obj None ∅ Plain);
      (FunctionPrototype,
        Obj (Some ObjectPrototype)
            {[ Sym Symbol_hasInstance :=
                 Prop_ (VObj FunctionPrototype_hasInstance) false false ]}
            Plain);
      (FunctionPrototype_hasInstance,
        Obj (Some FunctionPrototype) ∅ (Fun CFunctionHasInstance));
      (BooleanPrototype, Obj (Some ObjectPrototype) ∅ Plain);
      (NumberPrototype, Obj (Some ObjectPrototype) ∅ Plain);
      (StringPrototype, Obj (Some ObjectPrototype) ∅ Plain);
      (MapPrototype, Obj (Some ObjectPrototype) ∅ Plain);
      (TraitBuilderPrototype, Obj (Some ObjectPrototype) ∅ Plain) ].

(** [class extends s {}], the body of the trait [s => class extends s {}]:
    with the heritage [null] the class inherits from nothing; any other
    heritage has to be a constructor, and its [prototype] an object or
    [null]. *)
Definition class_extends (s : val) : M val :=
  λ h, match s with
       | VNull => new_class (Some FunctionPrototype) None h
       | _ =>
           match code_of h s with
           | Some CClass =>
               (let* p := query (Get s (Str "prototype")) in
                match p with
                | VObj q => new_class (lookup_start s) (Some q)
                | VNull => new_class (lookup_start s) None
                | _ => throw TypeError
                end) h
           | _ => (Throw TypeError h, [])
           end
       end.

(** [s => { if (s.tried) return class extends s {};
             s.tried = true; throw "first time" }]:
    a trait that fails on its first application to a class, after a side
    effect, and works from then on. *)
Definition flaky (s : val) : M val :=
  let* tried := query (Get s (Str "tried")) in
  if truthy tried then class_extends s
  else let* _ := Set_ s (Str "tried") (VBool true) in
       throw (Thrown (VStr "first time")).

(** The user functions of the samples: number 1 is
    [s => { throw "boom" }], number 3 is [flaky], every other number is
    [s => class extends s {}]. *)
Definition sample_user (id : nat) (this arg : val) (h : heap) : outcome val :=
  match id with
  | 1 => Throw (Thrown (VStr "boom")) h
  | 3 => fst (flaky arg h)
  | _ => fst (class_extends arg h)
  end.

(** A heap with [class Base {}] and the functions [T], [U], [Boom] and
    [Flaky]. *)
Definition Base : val := VObj 9%positive.
Definition Base_prototype : val := VObj 10%positive.
Definition T : val := VObj 11%positive.
Definition U : val := VObj 12%positive.
Definition Boom : val := VObj 13%positive.
Definition Flaky : val := VObj 14%positive.

Definition sample_heap : heap :=
  <[14%positive := Obj (Some FunctionPrototype) ∅ (Fun (CUser 3))]>
  (<[13%positive := Obj (Some FunctionPrototype) ∅ (Fun (CUser 1))]>
  (<[12%positive := Obj (Some FunctionPrototype) ∅ (Fun (CUser 2))]>
  (<[11%positive := Obj (Some FunctionPrototype) ∅ (Fun (CUser 0))]>
  (<[10%positive := Obj (Some ObjectPrototype)
                       {[ Str "constructor" := Prop_ Base true true ]} Plain]>
  (<[9%positive := Obj (Some FunctionPrototype)
                      {[ Str "prototype" := Prop_ Base_prototype false false ]}
                      (Fun CClass)]> realm))))).

(** Two closures [superclass => apply(superclass, T)], not yet wrapped. *)
Definition W1 : val := VObj 15%positive.
Definition W2 : val := VObj 16%positive.

Definition wrappers_heap : heap :=
  <[16%positive := Obj (Some FunctionPrototype) ∅ (Fun (CBareTraitWrapper T))]>
  (<[15%positive := Obj (Some FunctionPrototype) ∅ (Fun (CBareTraitWrapper T))]>
   sample_heap).

(** Two more bodies for the functions of the sample heap: number 0 is
    [s => undefined], every other number is [s => s]. *)
Definition careless_user (id : nat) (this arg : val) (h : heap) : outcome val :=
  match id with
  | 0 => Ret VUndef h
  | _ => Ret arg h
  end.

(** [class Other {}], next to the classes of a heap. *)
Definition with_Other : M val :=
  new_class (Some FunctionPrototype) (Some ObjectPrototype).

(** What a run gave: its value, the heap it left. *)
Definition result_of {A} (d : A) (r : outcome A * trace) : A :=
  match r with
  | (Ret a _, _) => a
  | _ => d
  end.

Definition heap_of {A} (r : outcome A * trace) : heap :=
  match r with
  | (Ret _ h, _) | (Throw _ h, _) => h
  | (Stuck, _) => ∅
  end.

End Sample.

(** * Facts about the object model *)

Module JSFacts.
Import JS Notions.

(** ** Walks along prototype chains *)

Section Walk.
Context {A : Type} (stop : loc → obj → option A).

Lemma walk_mono n m (h : heap) o r :
  walk stop n h o = Some r → n ≤ m → walk stop m h o = Some r.
Proof.
  revert m o. induction n as [|n IH]; intros m [l|] Hw Hle; simpl in *; try done.
  - by destruct m.
  - destruct m as [|m]; [lia|]. simpl.
    destruct (h !! l) as [ob|]; [|done].
    destruct (stop l ob); [done|]. apply IH; [done|lia].
  - by destruct m.
Qed.

Lemma walk_path n (h : heap) o r :
  walk stop n h o = Some r → ∃ L, path stop h o L r ∧ length L ≤ n.
Proof.
  revert o. induction n as [|n IH]; intros [l|] Hw; simpl in *; simplify_eq.
  - exists []. split; [constructor|done].
  - destruct (h !! l) as [ob|] eqn:Hl; [|done].
    destruct (stop l ob) as [a|] eqn:Hs.
    + simplify_eq. exists [l]. split; [by econstructor|simpl; lia].
    + destruct (IH _ Hw) as (L & HL & Hlen).
      exists (l :: L). split; [by econstructor|simpl; lia].
  - exists []. split; [constructor|simpl; lia].
Qed.

Lemma path_walk (h : heap) o L r :
  path stop h o L r → walk stop (length L) h o = Some r.
Proof.
  induction 1 as [|l ob a Hl Hs|l ob L r Hl Hs _ IH]; simpl; [done|..].
  - by rewrite Hl, Hs.
  - by rewrite Hl, Hs.
Qed.

Lemma path_fun (h : heap) o L1 r1 L2 r2 :
  path stop h o L1 r1 → path stop h o L2 r2 → L1 = L2 ∧ r1 = r2.
Proof.
  intros H1. revert L2 r2.
  induction H1 as [|l ob a Hl Hs|l ob L r Hl Hs _ IH]; intros L2 r2 H2;
    inversion H2; simplify_eq; try done.
  match goal with Hp : path _ _ _ _ _ |- _ => destruct (IH _ _ Hp) as [-> ->] end.
  done.
Qed.

Lemma path_from_member (h : heap) o L r l :
  path stop h o L r → l ∈ L →
  ∃ L', path stop h (Some l) L' r ∧ length L' ≤ length L.
Proof.
  induction 1 as [|l0 ob a Hl Hs|l0 ob L r Hl Hs Hp IH]; intros Hin.
  - by apply elem_of_nil in Hin.
  - apply list_elem_of_singleton in Hin as ->.
    exists [l0]. split; [by econstructor|done].
  - apply elem_of_cons in Hin as [->|Hin].
    + exists (l0 :: L). split; [by econstructor|done].
    + destruct (IH Hin) as (L' & HL' & Hlen).
      exists L'. split; [done|simpl; lia].
Qed.

Lemma path_NoDup (h : heap) o L r : path stop h o L r → NoDup L.
Proof.
  induction 1 as [|l ob a Hl Hs|l ob L r Hl Hs Hp IH].
  - constructor.
  - apply NoDup_singleton.
  - constructor; [|done]. intros Hin.
    destruct (path_from_member _ _ _ _ _ Hp Hin) as (L' & HL' & Hlen).
    assert (Hfull : path stop h (Some l) (l :: L) r) by by econstructor.
    destruct (path_fun _ _ _ _ _ _ HL' Hfull) as [-> _]. simpl in Hlen. lia.
Qed.

Lemma path_dom (h : heap) o L r l : path stop h o L r → l ∈ L → l ∈ dom h.
Proof.
  induction 1 as [|l0 ob a Hl Hs|l0 ob L r Hl Hs Hp IH]; intros Hin.
  - by apply elem_of_nil in Hin.
  - apply list_elem_of_singleton in Hin as ->. by apply elem_of_dom.
  - apply elem_of_cons in Hin as [->|Hin]; [by apply elem_of_dom|auto].
Qed.

Lemma path_length (h : heap) o L r : path stop h o L r → length L ≤ size h.
Proof.
  intros Hp.
  rewrite <- (size_list_to_set (C := gset loc) L) by by eapply path_NoDup.
  rewrite <- size_dom. apply subseteq_size.
  intros l Hl. apply elem_of_list_to_set in Hl. by eapply path_dom.
Qed.

(** Fuel never matters once it reaches the size of the heap. *)
Lemma walk_enough n (h : heap) o r :
  walk stop n h o = Some r → ∀ m, size h ≤ m → walk stop m h o = Some r.
Proof.
  intros Hw m Hm. destruct (walk_path _ _ _ _ Hw) as (L & HL & _).
  eapply walk_mono; [by apply path_walk|].
  etrans; [by eapply path_length|done].
Qed.

Lemma walk_fuel_path (h : heap) o r :
  walk stop (walk_fuel h) h o = Some r ↔ ∃ L, path stop h o L r.
Proof.
  split.
  - intros Hw. destruct (walk_path _ _ _ _ Hw) as (L & HL & _). eauto.
  - intros [L HL]. eapply walk_enough; [by apply path_walk|]. unfold walk_fuel. lia.
Qed.

End Walk.

Lemma path_agree {A} (stop stop' : loc → obj → option A) (h h' : heap) o L r :
  path stop h o L r →
  (∀ l ob, l ∈ L → h !! l = Some ob →
     ∃ ob', h' !! l = Some ob' ∧ proto ob' = proto ob ∧ stop' l ob' = stop l ob) →
  path stop' h' o L r.
Proof.
  induction 1 as [|l ob a Hl Hs|l ob L r Hl Hs Hp IH]; intros Hag.
  - constructor.
  - destruct (Hag l ob) as (ob' & Hl' & _ & Hs'); [by left|done|].
    econstructor; [done|congruence].
  - destruct (Hag l ob) as (ob' & Hl' & Hpr & Hs'); [by left|done|].
    econstructor; [done|congruence|]. rewrite Hpr. apply IH.
    intros l0 ob0 Hin. apply Hag. by right.
Qed.

(** ** Reading properties *)

Lemma same_on_refl k (h : heap) : same_on k h h.
Proof. intros l ob Hl. eauto. Qed.

Lemma same_on_trans k (h1 h2 h3 : heap) :
  same_on k h1 h2 → same_on k h2 h3 → same_on k h1 h3.
Proof.
  intros H12 H23 l ob Hl.
  destruct (H12 _ _ Hl) as (ob2 & Hl2 & Hp2 & Hk2).
  destruct (H23 _ _ Hl2) as (ob3 & Hl3 & Hp3 & Hk3).
  exists ob3. split_and!; [done|congruence|congruence].
Qed.

Lemma same_on_insert_fresh k (h : heap) l ob :
  h !! l = None → same_on k h (<[l := ob]> h).
Proof.
  intros Hfresh l0 ob0 Hl0. exists ob0. split_and!; try done.
  rewrite lookup_insert_ne; [done|]. intros ->. congruence.
Qed.

Lemma same_on_insert k (h : heap) l ob ob' :
  h !! l = Some ob → proto ob' = proto ob → props ob' !! k = props ob !! k →
  same_on k h (<[l := ob']> h).
Proof.
  intros Hl Hp Hk l0 ob0 Hl0. destruct (decide (l0 = l)) as [->|Hne].
  - simplify_eq. exists ob'. by rewrite lookup_insert_eq.
  - exists ob0. by rewrite lookup_insert_ne.
Qed.

Lemma find_prop_path (h : heap) o k r :
  find_prop h o k = Some r ↔ ∃ L, path (λ _ ob, props ob !! k) h o L r.
Proof. apply walk_fuel_path. Qed.

Lemma find_prop_same_on k (h h' : heap) o r :
  same_on k h h' → find_prop h o k = Some r → find_prop h' o k = Some r.
Proof.
  intros Hs [L HL]%find_prop_path. apply find_prop_path. exists L.
  eapply path_agree; [done|]. intros l ob _ Hl.
  destruct (Hs _ _ Hl) as (ob' & ? & ? & ?). eauto.
Qed.

Lemma Get_same_on k (h h' : heap) v x :
  same_on k h h' → Get v k h = Ok x → Get v k h' = Ok x.
Proof.
  intros Hs. unfold Get. destruct (lookup_start v) as [l|]; [|done].
  destruct (find_prop h (Some l) k) as [r|] eqn:Hf; [|done].
  by rewrite (find_prop_same_on _ _ _ _ _ Hs Hf).
Qed.

Lemma find_prop_own (h : heap) l ob k p :
  h !! l = Some ob → props ob !! k = Some p → find_prop h (Some l) k = Some (Some p).
Proof.
  intros Hl Hk. apply find_prop_path. exists [l]. by econstructor.
Qed.

Lemma find_prop_inherit (h : heap) l ob k :
  h !! l = Some ob → props ob !! k = None →
  find_prop h (Some l) k = find_prop h (proto ob) k.
Proof.
  intros Hl Hk.
  destruct (find_prop h (proto ob) k) as [r|] eqn:Hf.
  - apply find_prop_path in Hf as [L HL]. apply find_prop_path.
    exists (l :: L). by econstructor.
  - destruct (find_prop h (Some l) k) as [r|] eqn:Hf'; [|done].
    apply find_prop_path in Hf' as [L HL]. inversion HL; simplify_eq.
    assert (find_prop h (proto ob) k = Some r) by (apply find_prop_path; eauto).
    congruence.
Qed.

Lemma Get_own (h : heap) l ob k p :
  h !! l = Some ob → props ob !! k = Some p → Get (VObj l) k h = Ok (pvalue p).
Proof. intros Hl Hk. unfold Get. simpl. by rewrite (find_prop_own _ _ _ _ _ Hl Hk). Qed.

Lemma find_prop_end (h : heap) k : find_prop h None k = Some None.
Proof. done. Qed.

Lemma Get_inherit (h : heap) l ob k :
  h !! l = Some ob → props ob !! k = None →
  Get (VObj l) k h = match proto ob with
                     | Some q => Get (VObj q) k h
                     | None => Ok VUndef
                     end.
Proof.
  intros Hl Hk. unfold Get at 1. simpl. rewrite (find_prop_inherit _ _ _ _ Hl Hk).
  destruct (proto ob) as [q|]; [done|]. by rewrite find_prop_end.
Qed.

(** A value found by a lookup is the value of an own property of some
    object. *)
Lemma find_prop_found (h : heap) o k p :
  find_prop h o k = Some (Some p) → ∃ l ob, h !! l = Some ob ∧ props ob !! k = Some p.
Proof.
  intros [L HL]%find_prop_path. remember (Some p) as r eqn:Hr.
  induction HL; simplify_eq; eauto.
Qed.

(** ** The command monad *)

Lemma bind_Ret {A B} (m : M A) (k : A → M B) (h : heap) b h' t :
  bind m k h = (Ret b h', t) →
  ∃ a h0 t0 t1, m h = (Ret a h0, t0) ∧ k a h0 = (Ret b h', t1) ∧ t = t0 ++ t1.
Proof.
  unfold bind. destruct (m h) as [[a h0|e h0|] t0]; [|done..].
  destruct (k a h0) as [o t1] eqn:Hk. intros [= -> <-]. eauto 10.
Qed.

Lemma bind_Throw {A B} (m : M A) (k : A → M B) (h : heap) e h' t :
  bind m k h = (Throw e h', t) →
  m h = (Throw e h', t) ∨
  ∃ a h0 t0 t1, m h = (Ret a h0, t0) ∧ k a h0 = (Throw e h', t1) ∧ t = t0 ++ t1.
Proof.
  unfold bind. destruct (m h) as [[a h0|e0 h0|] t0]; [| |done].
  - destruct (k a h0) as [o t1] eqn:Hk. intros [= -> <-]. right. eauto 10.
  - intros [= -> -> ->]. by left.
Qed.

Lemma bind_run {A B} (m : M A) (k : A → M B) (h : heap) a h0 t0 :
  m h = (Ret a h0, t0) →
  bind m k h = (let '(o, t1) := k a h0 in (o, t0 ++ t1)).
Proof. unfold bind. by intros ->. Qed.

Lemma bind_run_Throw {A B} (m : M A) (k : A → M B) (h : heap) e h0 t0 :
  m h = (Throw e h0, t0) → bind m k h = (Throw e h0, t0).
Proof. unfold bind. by intros ->. Qed.

Lemma query_Ret {A} (q : Q A) (h : heap) a h' t :
  query q h = (Ret a h', t) → q h = Ok a ∧ h' = h ∧ t = [].
Proof. unfold query. destruct (q h); [|done..]. by intros [= -> -> ->]. Qed.

Lemma query_run {A} (q : Q A) (h : heap) a : q h = Ok a → query q h = (Ret a h, []).
Proof. unfold query. by intros ->. Qed.

Lemma qbind_Ok {A B} (m : Q A) (k : A → Q B) (h : heap) b :
  qbind m k h = Ok b → ∃ a, m h = Ok a ∧ k a h = Ok b.
Proof. unfold qbind. destruct (m h); [|done..]. eauto. Qed.

Lemma qbind_run {A B} (m : Q A) (k : A → Q B) (h : heap) a :
  m h = Ok a → qbind m k h = k a h.
Proof. unfold qbind. by intros ->. Qed.

(** ** Writing properties *)

Lemma Set_Ret target k v (h : heap) u h' t :
  Set_ target k v h = (Ret u h', t) →
  ∃ l ob, target = VObj l ∧ h !! l = Some ob ∧
          h' = <[l := write_own k v ob]> h ∧ t = [].
Proof.
  unfold Set_. destruct target as [| | | | |l]; try done.
  destruct (h !! l) as [ob|] eqn:Hl; [|done].
  destruct (find_prop h (Some l) k) as [found|]; [|done].
  destruct (match found with Some p => writable p | None => true end); [|done].
  intros [= _ <- <-]. eauto 10.
Qed.

Lemma write_own_lookup k v ob : ∃ p, props (write_own k v ob) !! k = Some p ∧ pvalue p = v.
Proof.
  unfold write_own. simpl. rewrite lookup_insert_eq.
  destruct (props ob !! k); eauto.
Qed.

Lemma write_own_lookup_ne k k' v ob :
  k ≠ k' → props (write_own k v ob) !! k' = props ob !! k'.
Proof. intros Hne. unfold write_own. simpl. by rewrite lookup_insert_ne. Qed.

Lemma Set_same_on target k k' v (h : heap) u h' t :
  Set_ target k v h = (Ret u h', t) → k ≠ k' → same_on k' h h'.
Proof.
  intros (l & ob & -> & Hl & -> & _)%Set_Ret Hne.
  eapply same_on_insert; [done|done|by apply write_own_lookup_ne].
Qed.

Lemma Set_Get target k v (h : heap) u h' t :
  Set_ target k v h = (Ret u h', t) → Get target k h' = Ok v.
Proof.
  intros (l & ob & -> & Hl & -> & _)%Set_Ret.
  destruct (write_own_lookup k v ob) as (p & Hp & <-).
  eapply Get_own; [apply lookup_insert_eq|done].
Qed.

Lemma Set_hasOwnProperty target k v (h : heap) u h' t :
  Set_ target k v h = (Ret u h', t) → hasOwnProperty target k h' = Ok true.
Proof.
  intros (l & ob & -> & Hl & -> & _)%Set_Ret.
  destruct (write_own_lookup k v ob) as (p & Hp & _).
  unfold hasOwnProperty. rewrite lookup_insert_eq, Hp.
  by rewrite bool_decide_eq_true_2.
Qed.


(** ** Changing the prototype link *)

(** A chain that reaches its end answers every other question as well, on
    objects of the same chain. *)
Lemma path_restop {A B} (stop : loc → obj → option A) (stop' : loc → obj → option B)
    (h : heap) o L :
  path stop h o L None → ∃ L' r, path stop' h o L' r ∧ L' ⊆ L.
Proof.
  remember None as r0 eqn:Hr0. intros Hp. revert Hr0.
  induction Hp as [|l ob a Hl Hs|l ob L r Hl Hs Hp IH]; intros Hr0.
  - exists [], None. split; [constructor|done].
  - done.
  - destruct (stop' l ob) as [b|] eqn:Hs'.
    + exists [l], (Some b). split; [by econstructor|].
      intros x ->%list_elem_of_singleton. by left.
    + destruct (IH Hr0) as (L' & r' & HL' & Hsub).
      exists (l :: L'), r'. split; [by econstructor|].
      intros x [->|Hx]%elem_of_cons; [by left|right; by apply Hsub].
Qed.

Lemma on_chain_false (h : heap) o target :
  on_chain h o target = Some false →
  ∃ L, path (λ l (_ : obj), if decide (l = target) then Some tt else None) h o L None
       ∧ target ∉ L.
Proof.
  unfold on_chain.
  destruct (walk _ (walk_fuel h) h o) as [[[]|]|] eqn:Hw; try done.
  intros _. apply walk_fuel_path in Hw as [L HL]. exists L. split; [done|].
  clear -HL. remember None as r0 eqn:Hr0. revert Hr0.
  induction HL as [|l ob a Hl Hs|l ob L r Hl Hs Hp IH]; intros Hr0.
  - apply not_elem_of_nil.
  - done.
  - apply not_elem_of_cons. split; [|by apply IH].
    intros ->. by rewrite decide_True in Hs.
Qed.

(** Changing an object that is not on the chain of [o] changes no lookup
    that starts at [o]. *)
Lemma find_prop_off_chain (h : heap) o target ob' k r :
  on_chain h o target = Some false →
  find_prop (<[target := ob']> h) o k = Some r → find_prop h o k = Some r.
Proof.
  intros (L & HL & Hnot)%on_chain_false Hf.
  destruct (path_restop _ (λ _ ob, props ob !! k) _ _ _ HL) as (L' & r' & HL' & Hsub).
  assert (Hr : find_prop (<[target := ob']> h) o k = Some r').
  { apply find_prop_path. exists L'. eapply path_agree; [done|].
    intros l ob Hin Hl. exists ob. split_and!; try done.
    rewrite lookup_insert_ne; [done|]. intros ->. by apply Hnot, Hsub. }
  assert (r = r') as -> by congruence.
  apply find_prop_path. eauto.
Qed.

Lemma setPrototypeOf_Ret (o p : val) (h : heap) r h' t :
  setPrototypeOf o p h = (Ret r h', t) →
  r = o ∧ t = [] ∧
  (h' = h ∨
   ∃ l ob, o = VObj l ∧ h !! l = Some ob ∧
           on_chain h (proto_of_val p) l = Some false ∧
           h' = <[l := Obj (proto_of_val p) (props ob) (kind ob)]> h).
Proof.
  unfold setPrototypeOf. intros Hs.
  repeat case_match; simplify_eq; split_and!; auto; right; eauto 10.
Qed.

Lemma setPrototypeOf_Ret_proto (o p : val) (h : heap) r h' t :
  setPrototypeOf o p h = (Ret r h', t) → p = VNull ∨ ∃ q, p = VObj q.
Proof.
  unfold setPrototypeOf. destruct o, p; try done; eauto.
Qed.

Lemma Get_Ok_start v k (h : heap) x : Get v k h = Ok x → is_Some (lookup_start v).
Proof. unfold Get. destruct (lookup_start v); [eauto|done]. Qed.

(** After [Object.setPrototypeOf(o, p)] the object [o] has the prototype
    [p] and the properties it had. *)
Lemma setPrototypeOf_object l (p : val) (h : heap) r h' t ob :
  setPrototypeOf (VObj l) p h = (Ret r h', t) → h !! l = Some ob →
  h' !! l = Some (Obj (proto_of_val p) (props ob) (kind ob)).
Proof.
  intros Hs Hl. unfold setPrototypeOf in Hs. rewrite Hl in Hs.
  repeat case_match; simplify_eq; rewrite ?lookup_insert_eq; try done;
    rewrite Hl; destruct ob; simpl in *; by subst.
Qed.

Lemma setPrototypeOf_other (o p : val) (h : heap) r h' t l :
  setPrototypeOf o p h = (Ret r h', t) → o ≠ VObj l → h' !! l = h !! l.
Proof.
  intros (_ & _ & [->|(l0 & ob & -> & _ & _ & ->)])%setPrototypeOf_Ret Hne; [done|].
  rewrite lookup_insert_ne; [done|congruence].
Qed.

(** The lookups that start at the new prototype are not changed. *)
Lemma setPrototypeOf_Get (o : val) q (h : heap) r h' t k x :
  setPrototypeOf o (VObj q) h = (Ret r h', t) →
  Get (VObj q) k h' = Ok x → Get (VObj q) k h = Ok x.
Proof.
  intros (_ & _ & [->|(l0 & ob & -> & _ & Hc & ->)])%setPrototypeOf_Ret; [done|].
  unfold Get. simpl in *.
  destruct (find_prop (<[l0 := _]> h) (Some q) k) as [r0|] eqn:Hf; [|done].
  by rewrite (find_prop_off_chain _ _ _ _ _ _ Hc Hf).
Qed.

(** ** Allocation, maps, function objects *)

Lemma alloc_Ret ob (h : heap) l h' t :
  alloc ob h = (Ret l h', t) → h !! l = None ∧ h' = <[l := ob]> h ∧ t = [].
Proof.
  unfold alloc. intros [= <- <- <-]. split_and!; try done.
  apply not_elem_of_dom, is_fresh.
Qed.

Lemma alloc_run ob (h : heap) :
  ∃ l, h !! l = None ∧ alloc ob h = (Ret l (<[l := ob]> h), []).
Proof.
  exists (fresh (dom h)). split; [|done]. apply not_elem_of_dom, is_fresh.
Qed.

Lemma new_function_Ret c (h : heap) f h' t :
  new_function c h = (Ret f h', t) →
  ∃ l, f = VObj l ∧ h !! l = None ∧ t = [] ∧
       h' = <[l := Obj (Some FunctionPrototype) ∅ (Fun c)]> h.
Proof.
  unfold new_function. intros (l & h0 & t0 & t1 & Ha & Hr & ->)%bind_Ret.
  apply alloc_Ret in Ha as (Hl & -> & ->). unfold ret in Hr. simplify_eq. eauto.
Qed.

Lemma new_Map_Ret (h : heap) m h' t :
  new_Map h = (Ret m h', t) →
  ∃ l, m = VObj l ∧ h !! l = None ∧ t = [] ∧
       h' = <[l := Obj (Some MapPrototype) ∅ (MapObj [])]> h.
Proof.
  unfold new_Map. intros (l & h0 & t0 & t1 & Ha & Hr & ->)%bind_Ret.
  apply alloc_Ret in Ha as (Hl & -> & ->). unfold ret in Hr. simplify_eq. eauto.
Qed.

Lemma hasOwnProperty_insert_ne (h : heap) l l' ob k :
  l ≠ l' → hasOwnProperty (VObj l') k (<[l := ob]> h) = hasOwnProperty (VObj l') k h.
Proof. intros Hne. unfold hasOwnProperty. by rewrite lookup_insert_ne. Qed.

Lemma hasOwnProperty_true v k (h : heap) :
  hasOwnProperty v k h = Ok true →
  ∃ l ob p, v = VObj l ∧ h !! l = Some ob ∧ props ob !! k = Some p.
Proof.
  unfold hasOwnProperty. destruct v as [| | | | |l]; try done.
  destruct (h !! l) as [ob|] eqn:Hl; [|done]. intros [= Hb].
  apply bool_decide_eq_true in Hb as [p Hp]. eauto 10.
Qed.

Lemma code_of_insert_ne (h : heap) l ob v :
  v ≠ VObj l → code_of (<[l := ob]> h) v = code_of h v.
Proof.
  intros Hne. unfold code_of. destruct v as [| | | | |l']; try done.
  rewrite lookup_insert_ne; [done|congruence].
Qed.

Lemma code_of_insert (h : heap) l pr ps c :
  code_of (<[l := Obj pr ps (Fun c)]> h) (VObj l) = Some c.
Proof. unfold code_of. by rewrite lookup_insert_eq. Qed.

Lemma code_of_Some (h : heap) v c :
  code_of h v = Some c → ∃ l pr ps, v = VObj l ∧ h !! l = Some (Obj pr ps (Fun c)).
Proof.
  unfold code_of. destruct v as [| | | | |l]; try done.
  destruct (h !! l) as [[pr ps [|c'|]]|] eqn:Hl; try done. intros [= ->]. eauto 10.
Qed.

(** Writing a property, changing a prototype link or a map leaves every
    function what it is. *)
Lemma code_of_same_kind (h : heap) l ob ob' v :
  h !! l = Some ob → kind ob' = kind ob →
  code_of (<[l := ob']> h) v = code_of h v.
Proof.
  intros Hl Hk. unfold code_of. destruct v as [| | | | |l']; try done.
  destruct (decide (l' = l)) as [->|Hne].
  - rewrite lookup_insert_eq, Hl. destruct ob, ob'. simpl in *. by subst.
  - by rewrite lookup_insert_ne.
Qed.

Lemma Set_code target k v (h : heap) u h' t x :
  Set_ target k v h = (Ret u h', t) → code_of h' x = code_of h x.
Proof.
  intros (l & ob & -> & Hl & -> & _)%Set_Ret. by eapply code_of_same_kind.
Qed.

Lemma Get_write_own (h : heap) l k v ob :
  Get (VObj l) k (<[l := write_own k v ob]> h) = Ok v.
Proof.
  destruct (write_own_lookup k v ob) as (p & Hp & Hv).
  rewrite (Get_own _ l (write_own k v ob) k p); [by rewrite Hv|apply lookup_insert_eq|done].
Qed.

(** ** Maps *)

Lemma assoc_assoc_set k v entries : assoc k (assoc_set k v entries) = Some v.
Proof.
  induction entries as [|[k' v'] rest IH]; simpl.
  - by rewrite decide_True.
  - destruct (decide (k' = k)) as [->|Hne]; simpl.
    + by rewrite decide_True.
    + by rewrite decide_False.
Qed.

Lemma assoc_assoc_set_ne k k' v entries :
  k ≠ k' → assoc k' (assoc_set k v entries) = assoc k' entries.
Proof.
  intros Hne. induction entries as [|[k0 v0] rest IH]; simpl.
  - by rewrite decide_False.
  - destruct (decide (k0 = k)) as [->|Hne0]; simpl.
    + by rewrite !decide_False.
    + destruct (decide (k0 = k')); [done|apply IH].
Qed.

Lemma Map_get_Ok m k (h : heap) x :
  Map_get m k h = Ok x →
  ∃ l pr ps entries, m = VObj l ∧ h !! l = Some (Obj pr ps (MapObj entries)) ∧
                     x = default VUndef (assoc k entries).
Proof.
  unfold Map_get. destruct m as [| | | | |l]; try done.
  destruct (h !! l) as [[pr ps [|c|entries]]|] eqn:Hl; try done.
  intros [= <-]. eauto 10.
Qed.

Lemma Map_set_Ret m k v (h : heap) u h' t :
  Map_set m k v h = (Ret u h', t) →
  ∃ l pr ps entries, m = VObj l ∧ h !! l = Some (Obj pr ps (MapObj entries)) ∧ t = [] ∧
                     h' = <[l := Obj pr ps (MapObj (assoc_set k v entries))]> h.
Proof.
  unfold Map_set. destruct m as [| | | | |l]; try done.
  destruct (h !! l) as [[pr ps [|c|entries]]|] eqn:Hl; try done.
  intros [= _ <- <-]. eauto 10.
Qed.

Lemma Map_set_run m k v (h : heap) x :
  Map_get m k h = Ok x → ∃ h', Map_set m k v h = (Ret tt h', []).
Proof.
  intros (l & pr & ps & entries & -> & Hl & _)%Map_get_Ok.
  unfold Map_set. rewrite Hl. eauto.
Qed.

Lemma Map_set_get m k v (h : heap) u h' t :
  Map_set m k v h = (Ret u h', t) → Map_get m k h' = Ok v.
Proof.
  intros (l & pr & ps & entries & -> & Hl & -> & ->)%Map_set_Ret.
  unfold Map_get. rewrite lookup_insert_eq. by rewrite assoc_assoc_set.
Qed.

Lemma Map_set_same_on m k v (h : heap) u h' t k' :
  Map_set m k v h = (Ret u h', t) → same_on k' h h'.
Proof.
  intros (l & pr & ps & entries & -> & Hl & -> & ->)%Map_set_Ret.
  by eapply same_on_insert.
Qed.

Lemma Map_set_code m k v (h : heap) u h' t x :
  Map_set m k v h = (Ret u h', t) → code_of h' x = code_of h x.
Proof.
  intros (l & pr & ps & entries & -> & Hl & -> & ->)%Map_set_Ret.
  unfold code_of. destruct x as [| | | | |l']; try done.
  destruct (decide (l' = l)) as [->|Hne].
  - by rewrite lookup_insert_eq, Hl.
  - by rewrite lookup_insert_ne.
Qed.

Lemma Get_Ok_object l k (h : heap) x : Get (VObj l) k h = Ok x → is_Some (h !! l).
Proof.
  unfold Get. simpl.
  destruct (find_prop h (Some l) k) as [r|] eqn:Hf; [|done]. intros _.
  apply find_prop_path in Hf as [L HL]. inversion HL; eauto.
Qed.

(** ** Chains that pass through their own start *)

Lemma on_chain_self (h : heap) l ob : h !! l = Some ob → on_chain h (Some l) l = Some true.
Proof.
  intros Hl. unfold on_chain, walk_fuel. simpl. rewrite Hl. by rewrite decide_True.
Qed.

(** An object that is its own prototype and lacks a property never answers
    a lookup of it. *)
Lemma Get_self_loop (h : heap) l ob k x :
  h !! l = Some ob → proto ob = Some l → props ob !! k = None →
  Get (VObj l) k h ≠ Ok x.
Proof.
  intros Hl Hpr Hk. unfold Get. simpl.
  destruct (find_prop h (Some l) k) as [r|] eqn:Hf; [|done]. exfalso.
  apply find_prop_path in Hf as [L HL].
  inversion HL as [|? ? ? Hl' Hs|? ob' L' ? Hl' Hs Hp]; simplify_eq.
  rewrite Hpr in Hp.
  destruct (path_fun _ _ _ _ _ _ _ HL Hp) as [Heq _].
  apply (f_equal length) in Heq. simpl in Heq. lia.
Qed.

Lemma Set_Throw target k v (h : heap) e h' t :
  Set_ target k v h = (Throw e h', t) → h' = h ∧ t = [].
Proof.
  unfold Set_. intros Hs. repeat case_match; by simplify_eq.
Qed.

(** ** Commands that leave a key alone *)

Lemma kept_refl k (h : heap) : kept k h h.
Proof. intros l ob Hl. eauto. Qed.

Lemma kept_trans k (h1 h2 h3 : heap) : kept k h1 h2 → kept k h2 h3 → kept k h1 h3.
Proof.
  intros H12 H23 l ob Hl.
  destruct (H12 _ _ Hl) as (ob2 & Hl2 & Hp2 & Hk2 & Hx2).
  destruct (H23 _ _ Hl2) as (ob3 & Hl3 & Hp3 & Hk3 & Hx3).
  exists ob3. split_and!; [done|congruence..].
Qed.

Lemma kept_same_on k (h h' : heap) : kept k h h' → same_on k h h'.
Proof.
  intros Hk l ob Hl. destruct (Hk _ _ Hl) as (ob' & ? & ? & ? & ?). eauto.
Qed.

Lemma kept_Map_get k (h h' : heap) m x y :
  kept k h h' → Map_get m x h = Ok y → Map_get m x h' = Ok y.
Proof.
  intros Hk (l & pr & ps & entries & -> & Hl & ->)%Map_get_Ok.
  destruct (Hk _ _ Hl) as ([pr' ps' kd] & Hl' & _ & Hkd & _). simpl in Hkd. subst kd.
  unfold Map_get. by rewrite Hl'.
Qed.

Lemma kept_code k (h h' : heap) v c :
  kept k h h' → code_of h v = Some c → code_of h' v = Some c.
Proof.
  intros Hk (l & pr & ps & -> & Hl)%code_of_Some.
  destruct (Hk _ _ Hl) as ([pr' ps' kd] & Hl' & _ & Hkd & _). simpl in Hkd. subst kd.
  unfold code_of. by rewrite Hl'.
Qed.

Lemma frames_ret {A} k (a : A) : frames k (ret a).
Proof. intros h o t h' [= <- <-] [= <-]. apply kept_refl. Qed.

Lemma frames_throw {A} k e : frames k (throw e : M A).
Proof. intros h o t h' [= <- <-] [= <-]. apply kept_refl. Qed.

Lemma frames_query {A} k (q : Q A) : frames k (query q).
Proof.
  intros h o t h'. unfold query. destruct (q h); intros [= <- <-] [= <-];
    apply kept_refl.
Qed.

Lemma frames_alloc k ob : frames k (alloc ob).
Proof.
  intros h o t h' Ha Hh. destruct o as [l h0| |]; try done.
  apply alloc_Ret in Ha as (Hl & -> & _). injection Hh as <-.
  intros l0 ob0 Hl0. exists ob0. split_and!; try done.
  rewrite lookup_insert_ne; [done|]. intros ->. congruence.
Qed.

Lemma frames_Set k target k' v : k' ≠ k → frames k (Set_ target k' v).
Proof.
  intros Hne h o t h' Hs Hh. destruct o as [[] h0|e h0|]; [| |done].
  - apply Set_Ret in Hs as (l & ob & -> & Hl & -> & _). injection Hh as <-.
    intros l0 ob0 Hl0. destruct (decide (l0 = l)) as [->|Hl0l].
    + rewrite Hl in Hl0. injection Hl0 as <-.
      exists (write_own k' v ob). rewrite lookup_insert_eq.
      split_and!; try done. by apply write_own_lookup_ne.
    + exists ob0. by rewrite lookup_insert_ne.
  - apply Set_Throw in Hs as [-> _]. injection Hh as <-. apply kept_refl.
Qed.

Lemma define_own_Ret o k v (h : heap) u h' t :
  define_own o k v h = (Ret u h', t) →
  ∃ l ob, o = VObj l ∧ h !! l = Some ob ∧
          h' = <[l := write_own k v ob]> h ∧ t = [].
Proof.
  unfold define_own. destruct o as [| | | | |l]; try done.
  destruct (h !! l) as [ob|] eqn:Hl; [|done]. intros [= <- <-].
  exists l, ob. by split_and!.
Qed.

Lemma frames_define_own k o k' v : k' ≠ k → frames k (define_own o k' v).
Proof.
  intros Hne h out t h' Hs Hh. destruct out as [[] h0|e h0|]; [| |done].
  - apply define_own_Ret in Hs as (l & ob & -> & Hl & -> & _). injection Hh as <-.
    intros l0 ob0 Hl0. destruct (decide (l0 = l)) as [->|Hl0l].
    + rewrite Hl in Hl0. injection Hl0 as <-.
      exists (write_own k' v ob). rewrite lookup_insert_eq.
      split_and!; try done. by apply write_own_lookup_ne.
    + exists ob0. by rewrite lookup_insert_ne.
  - unfold define_own in Hs.
    destruct o as [| | | | |l];
      try (injection Hs as _ <- _; injection Hh as <-; apply kept_refl).
    by destruct (h !! l).
Qed.

Lemma frames_bind {A B} k (m : M A) (f : A → M B) :
  frames k m → (∀ a, frames k (f a)) → frames k (bind m f).
Proof.
  intros Hm Hf h o t h'. unfold bind.
  destruct (m h) as [[a h0|e h0|] t0] eqn:Hmh.
  - destruct (f a h0) as [o1 t1] eqn:Hfa. intros [= <- <-] Hh.
    eapply kept_trans; [by eapply Hm|by eapply Hf].
  - intros [= <- <-] Hh. by eapply Hm.
  - by intros [= <- <-].
Qed.

Lemma frames_new_class k parent protoParent :
  Str "constructor" ≠ k → frames k (new_class parent protoParent).
Proof.
  intros Hne. unfold new_class.
  apply frames_bind; [apply frames_alloc|intros p].
  apply frames_bind; [apply frames_alloc|intros c].
  apply frames_bind; [by apply frames_define_own|intros _]. apply frames_ret.
Qed.


End JSFacts.

(** * Properties of the trait engine *)

Module MutraitFacts.
Import JS Mutrait Notions JSFacts.

(** ** wrap and unwrap *)

Lemma unwrap_Ok w (h : heap) u :
  unwrap w h = Ok u ↔
  ∃ x, Get w (Sym _wrappedTrait) h = Ok x ∧ u = if truthy x then x else w.
Proof.
  unfold unwrap, qbind, qret. destruct (Get w (Sym _wrappedTrait) h); split;
    try done; try (intros (? & ? & ?); done).
  - intros [= <-]. eauto.
  - intros (x & [= <-] & ->). done.
Qed.

Lemma unwrap_same_on (h h' : heap) w u :
  same_on (Sym _wrappedTrait) h h' → unwrap w h = Ok u → unwrap w h' = Ok u.
Proof.
  intros Hs (x & Hx & ->)%unwrap_Ok. apply unwrap_Ok. exists x. split; [|done].
  by eapply Get_same_on.
Qed.

Lemma wrap_Ret T w (h : heap) r h' t :
  wrap T w h = (Ret r h', t) →
  r = w ∧ t = [] ∧
  ∃ h0 x, setPrototypeOf w T h = (Ret w h0, []) ∧
          Get T (Sym _wrappedTrait) h0 = Ok x ∧
          (truthy x = true ∧ h' = h0 ∨
           truthy x = false ∧ Set_ T (Sym _wrappedTrait) T h0 = (Ret tt h', [])).
Proof.
  unfold wrap. intros (a & h0 & t0 & t1 & Hs & Hk & ->)%bind_Ret.
  apply bind_Ret in Hk as (x & h1 & t2 & t3 & (Hx & -> & ->)%query_Ret & Hk & ->).
  apply bind_Ret in Hk as (u & h2 & t4 & t5 & Hset & Hr & ->).
  unfold ret in Hr. simplify_eq.
  destruct (setPrototypeOf_Ret _ _ _ _ _ _ Hs) as (-> & -> & _).
  destruct (truthy x) eqn:Htx; simpl in Hset.
  - unfold ret in Hset. simplify_eq. split_and!; try done. eauto 10.
  - destruct (Set_Ret _ _ _ _ _ _ _ Hset) as (l & ob & -> & Hl & -> & ->).
    destruct u. split_and!; try done. exists h0, x. split_and!; try done. by right.
Qed.

Lemma unwrap_truthy w (h : heap) u :
  Get w (Sym _wrappedTrait) h = Ok u → truthy u = true → unwrap w h = Ok u.
Proof. intros Hg Ht. apply unwrap_Ok. exists u. by rewrite Ht. Qed.

Lemma wrap_trait_object T w (h : heap) r h' t :
  wrap T w h = (Ret r h', t) → ∃ lt, T = VObj lt.
Proof.
  intros (_ & _ & h0 & x & Hs & Hx & _)%wrap_Ret.
  destruct (setPrototypeOf_Ret_proto _ _ _ _ _ _ Hs) as [->|[q ->]]; [|eauto].
  by apply Get_Ok_start in Hx as [? ?].
Qed.

(** Wrapping gives the wrapper the back-reference of what it wraps, and
    leaves the identity of the wrapped function as it was. *)
Lemma wrap_Get T w (h : heap) r h' t :
  wrap T w h = (Ret r h', t) → plain h w →
  ∃ u, truthy u = true ∧
       Get T (Sym _wrappedTrait) h' = Ok u ∧
       Get w (Sym _wrappedTrait) h' = Ok u ∧
       unwrap T h = Ok u ∧
       (w = T ∨ ∃ lw lt ob', w = VObj lw ∧ T = VObj lt ∧ h' !! lw = Some ob' ∧
                             proto ob' = Some lt ∧
                             props ob' !! Sym _wrappedTrait = None).
Proof.
  intros Hw (lw & ob & -> & Hlw & Hplain).
  destruct (wrap_trait_object _ _ _ _ _ _ Hw) as [lt ->].
  destruct (wrap_Ret _ _ _ _ _ _ Hw) as (-> & -> & h0 & x & Hs & Hx & Hcase).
  pose proof (setPrototypeOf_object _ _ _ _ _ _ _ Hs Hlw) as Hlw0. simpl in Hlw0.
  assert (Hw0 : Get (VObj lw) (Sym _wrappedTrait) h0 = Ok x).
  { by rewrite (Get_inherit _ _ _ _ Hlw0 Hplain). }
  pose proof (setPrototypeOf_Get _ _ _ _ _ _ _ _ Hs Hx) as HxT.
  destruct Hcase as [[Htx ->]|[Htx Hset]].
  - exists x. split_and!; try done; [by apply unwrap_truthy|].
    right. eexists _, _, _. split_and!; done.
  - exists (VObj lt). pose proof (Set_Get _ _ _ _ _ _ _ Hset) as HT'.
    destruct (decide (lw = lt)) as [->|Hne].
    { split_and!; try done; [|by left]. apply unwrap_Ok. exists x. by rewrite Htx. }
    destruct (Set_Ret _ _ _ _ _ _ _ Hset) as (l & obT & [= <-] & HlT & -> & _).
    assert (Hlw' : <[lt := write_own (Sym _wrappedTrait) (VObj lt) obT]> h0 !! lw
                   = Some (Obj (Some lt) (props ob) (kind ob))).
    { by rewrite lookup_insert_ne. }
    split_and!; try done.
    + by rewrite (Get_inherit _ _ _ _ Hlw' Hplain).
    + apply unwrap_Ok. exists x. by rewrite Htx.
    + right. eexists _, _, _. split_and!; done.
Qed.

Lemma wrap_unwrap T w (h : heap) r h' t :
  wrap T w h = (Ret r h', t) → plain h w →
  ∃ u, unwrap T h = Ok u ∧ unwrap T h' = Ok u ∧ unwrap w h' = Ok u.
Proof.
  intros Hw Hp. destruct (wrap_Get _ _ _ _ _ _ Hw Hp) as (u & Htu & HT & Hw' & Hu & _).
  exists u. split_and!; [done|by apply unwrap_truthy..].
Qed.

(** What [wrap] changes: the prototype of the wrapper and, at most, the
    back-reference of the wrapped function. *)
Lemma wrap_objects T w (h : heap) r h' t l ob :
  wrap T w h = (Ret r h', t) → h !! l = Some ob →
  ∃ ob', h' !! l = Some ob' ∧ kind ob' = kind ob ∧
         (∀ k, k ≠ Sym _wrappedTrait → props ob' !! k = props ob !! k) ∧
         (VObj l ≠ T → props ob' = props ob) ∧
         (VObj l ≠ w → proto ob' = proto ob).
Proof.
  intros (-> & -> & h0 & x & Hs & Hx & Hcase)%wrap_Ret Hl.
  assert (∃ ob0, h0 !! l = Some ob0 ∧ kind ob0 = kind ob ∧ props ob0 = props ob ∧
                 (VObj l ≠ w → proto ob0 = proto ob)) as (ob0 & Hl0 & Hk0 & Hp0 & Hpr0).
  { destruct (decide (w = VObj l)) as [->|Hne].
    - rewrite (setPrototypeOf_object _ _ _ _ _ _ _ Hs Hl).
      eexists. split_and!; done.
    - rewrite (setPrototypeOf_other _ _ _ _ _ _ l Hs Hne).
      exists ob. split_and!; done. }
  destruct Hcase as [[Htx ->]|[Htx Hset]].
  - exists ob0. split_and!; try done; intros; by rewrite ?Hp0.
  - destruct (Set_Ret _ _ _ _ _ _ _ Hset) as (lt & obT & -> & HlT & -> & _).
    destruct (decide (l = lt)) as [->|Hne].
    + simplify_eq. rewrite lookup_insert_eq. eexists. split; [done|]. simpl.
      split_and!; try done.
      intros k Hk. rewrite lookup_insert_ne; [|done]. by rewrite Hp0.
    + rewrite lookup_insert_ne; [|done]. exists ob0.
      split_and!; try done; intros; by rewrite ?Hp0.
Qed.

Lemma wrap_code T w (h : heap) r h' t v c :
  wrap T w h = (Ret r h', t) → code_of h v = Some c → code_of h' v = Some c.
Proof.
  intros Hw. unfold code_of. destruct v as [| | | | |l]; try done.
  destruct (h !! l) as [ob|] eqn:Hl; [|done].
  destruct (wrap_objects _ _ _ _ _ _ _ _ Hw Hl) as (ob' & -> & Hk & _).
  destruct ob as [? ? k], ob' as [? ? k']. simpl in *. by subst.
Qed.

Lemma wrap_plain T w (h : heap) r h' t v :
  wrap T w h = (Ret r h', t) → plain h v →
  v ≠ T ∨ (∃ x, Get T (Sym _wrappedTrait) h = Ok x ∧ truthy x = true) →
  plain h' v.
Proof.
  intros Hw (l & ob & -> & Hl & Hplain) Hor.
  destruct Hor as [Hne|(x & Hx & Htx)].
  - destruct (wrap_objects _ _ _ _ _ _ _ _ Hw Hl) as (ob' & Hl' & _ & _ & Hp & _).
    exists l, ob'. split_and!; try done. by rewrite (Hp Hne).
  - destruct (wrap_trait_object _ _ _ _ _ _ Hw) as [lt ->].
    destruct (wrap_Ret _ _ _ _ _ _ Hw) as (-> & -> & h0 & x0 & Hs & Hx0 & Hcase).
    pose proof (setPrototypeOf_Get _ _ _ _ _ _ _ _ Hs Hx0). simplify_eq.
    destruct Hcase as [[_ ->]|[? _]]; [|congruence].
    destruct (decide (w = VObj l)) as [->|Hne].
    + eexists _, _. split_and!; [done| |]; [by eapply setPrototypeOf_object|done].
    + exists l, ob. split_and!; try done.
      by rewrite (setPrototypeOf_other _ _ _ _ _ _ l Hs Hne).
Qed.

(** A function without a back-reference of its own cannot be wrapped around
    itself. *)
Lemma wrap_wrapper_ne T w (h : heap) r h' t :
  wrap T w h = (Ret r h', t) → plain h w → w ≠ T.
Proof.
  intros Hw (l & ob & -> & Hl & Hplain) <-.
  destruct (wrap_Ret _ _ _ _ _ _ Hw) as (_ & _ & h0 & x & Hs & Hx & _).
  pose proof (setPrototypeOf_object _ _ _ _ _ _ _ Hs Hl) as Hl0. simpl in Hl0.
  by eapply Get_self_loop.
Qed.

Lemma wrap_layers_unwrap ws : ∀ T (h : heap) last h' t,
  Forall (plain h) ws →
  T ∉ ws ∨ (∃ x, Get T (Sym _wrappedTrait) h = Ok x ∧ truthy x = true) →
  wrap_layers T ws h = (Ret last h', t) →
  unwrap last h' = unwrap T h ∧ (ws ≠ [] → ∃ u, unwrap T h = Ok u).
Proof.
  induction ws as [|w rest IH]; intros T h last h' t Hplain Hor Hrun.
  - simpl in Hrun. unfold ret in Hrun. by simplify_eq.
  - simpl in Hrun. apply bind_Ret in Hrun as (r & h1 & t1 & t2 & Hw & Hrest & ->).
    apply Forall_cons in Hplain as [Hw_plain Hrest_plain].
    destruct (wrap_Get _ _ _ _ _ _ Hw Hw_plain) as (u & Htu & HuT' & Huw & HuT & _).
    destruct (wrap_Ret _ _ _ _ _ _ Hw) as (-> & _).
    destruct (IH w h1 last h' t2) as [Hlast _].
    + apply Forall_forall. intros v Hin.
      eapply wrap_plain; [done|by eapply Forall_forall in Hrest_plain|].
      destruct Hor as [Hnot|Hx]; [left|by right].
      intros ->. apply Hnot. by right.
    + right. eauto.
    + done.
    + rewrite Hlast, HuT, (unwrap_truthy _ _ _ Huw Htu). eauto.
Qed.

Lemma unwrap_idempotent x (h : heap) u :
  backrefs_at_home h → unwrap x h = Ok u → unwrap u h = Ok u.
Proof.
  intros Hhome Hu. pose proof Hu as (y & Hy & ->)%unwrap_Ok.
  destruct (truthy y) eqn:Hty; [|done].
  unfold Get in Hy. destruct (lookup_start x) as [l|]; [|done].
  destruct (find_prop h (Some l) (Sym _wrappedTrait)) as [[p|]|] eqn:Hf; simplify_eq.
  destruct (find_prop_found _ _ _ _ Hf) as (l' & ob & Hl' & Hp).
  simpl in *. rewrite (Hhome _ _ _ Hl' Hp) in *.
  apply unwrap_truthy; [|done].
  rewrite (Get_own _ _ _ _ _ Hl' Hp). by rewrite (Hhome _ _ _ Hl' Hp).
Qed.

Lemma wrap_backrefs T w (h : heap) r h' t :
  wrap T w h = (Ret r h', t) → backrefs_at_home h → backrefs_at_home h'.
Proof.
  intros (-> & -> & h0 & x & Hs & Hx & Hcase)%wrap_Ret Hhome.
  assert (Hhome0 : backrefs_at_home h0).
  { destruct (setPrototypeOf_Ret _ _ _ _ _ _ Hs)
      as (_ & _ & [->|(l0 & ob0 & -> & Hl0 & _ & ->)]); [done|].
    intros l ob p Hl Hp. destruct (decide (l = l0)) as [->|Hne].
    - rewrite lookup_insert_eq in Hl. simplify_eq. simpl in Hp. eauto.
    - rewrite lookup_insert_ne in Hl by done. eauto. }
  destruct Hcase as [[_ ->]|[_ Hset]]; [done|].
  destruct (Set_Ret _ _ _ _ _ _ _ Hset) as (lt & obT & -> & HlT & -> & _).
  intros l ob p Hl Hp. destruct (decide (l = lt)) as [->|Hne].
  - rewrite lookup_insert_eq in Hl. simplify_eq.
    destruct (write_own_lookup (Sym _wrappedTrait) (VObj lt) obT) as (p' & Hp' & Hv).
    congruence.
  - rewrite lookup_insert_ne in Hl by done. eauto.
Qed.

(** C5. Round trip and idempotence of wrap and unwrap.  For a wrapper [W]
    that carries no back-reference of its own, [unwrap(wrap(T, W))] is the
    unwrapped identity of [T], the one it had before the call and still has
    after it; the same holds through any number of layers, each a wrapper
    without a back-reference of its own put around the previous one; a
    function on whose prototype chain no back-reference is found unwraps to
    itself, and [unwrap] applied to its own result gives that result
    again. *)
Theorem unwrap_wrap_roundtrip :
  (∀ T W (h : heap) r h' t,
      plain h W → wrap T W h = (Ret r h', t) →
      r = W ∧ ∃ u, unwrap T h = Ok u ∧ unwrap T h' = Ok u ∧ unwrap r h' = Ok u)
  ∧ (∀ T ws (h : heap) last h' t,
      Forall (plain h) ws → T ∉ ws → ws ≠ [] →
      wrap_layers T ws h = (Ret last h', t) →
      ∃ u, unwrap T h = Ok u ∧ unwrap last h' = Ok u)
  ∧ (∀ f (h : heap),
      find_prop h (lookup_start f) (Sym _wrappedTrait) = Some None →
      nullish f = false → unwrap f h = Ok f)
  ∧ (∀ x (h : heap) u,
      backrefs_at_home h → unwrap x h = Ok u → unwrap u h = Ok u).
Proof.
  split_and!.
  - intros T W h r h' t Hp Hw. destruct (wrap_Ret _ _ _ _ _ _ Hw) as (-> & _).
    split; [done|]. by eapply wrap_unwrap.
  - intros T ws h last h' t Hp Hnot Hne Hrun.
    destruct (wrap_layers_unwrap ws T h last h' t Hp (or_introl Hnot) Hrun) as [Heq Hdef].
    destruct (Hdef Hne) as [u Hu]. exists u. by rewrite Heq.
  - intros f h Hf Hn. apply unwrap_Ok. exists VUndef. split; [|done].
    unfold Get. destruct f; try done; simpl in *; by rewrite Hf.
  - intros x h u. apply unwrap_idempotent.
Qed.


(** Two wrappers put around the same function unwrap to the same thing. *)
Lemma wrap_same_identity T0 W1 W2 (h : heap) r1 h1 t1 r2 h2 t2 :
  plain h W1 → plain h1 W2 →
  wrap T0 W1 h = (Ret r1 h1, t1) →
  wrap T0 W2 h1 = (Ret r2 h2, t2) →
  ∃ u, unwrap W1 h2 = Ok u ∧ unwrap W2 h2 = Ok u.
Proof.
  intros Hp1 Hp2 Hw1 Hw2.
  destruct (wrap_Get _ _ _ _ _ _ Hw1 Hp1) as (u1 & Htu1 & HT1 & HW1 & _ & Hshape).
  destruct (wrap_Get _ _ _ _ _ _ Hw2 Hp2) as (u2 & Htu2 & HT2 & HW2 & HT1' & _).
  exists u2. split; [|by apply unwrap_truthy].
  apply unwrap_truthy; [|done].
  destruct Hshape as [->|(lw & lt & ob' & -> & -> & Hlw & Hpr & Hk)]; [done|].
  destruct (wrap_Ret _ _ _ _ _ _ Hw2) as (-> & -> & h0 & x & Hs & Hx & Hcase).
  pose proof (setPrototypeOf_Get _ _ _ _ _ _ _ _ Hs Hx) as Hx1.
  assert (x = u1) as -> by congruence.
  destruct Hcase as [[_ ->]|[? _]]; [|congruence].
  destruct (decide (W2 = VObj lw)) as [->|Hne].
  - pose proof (setPrototypeOf_object _ _ _ _ _ _ _ Hs Hlw) as Hlw0. simpl in Hlw0.
    by rewrite (Get_inherit _ _ _ _ Hlw0 Hk).
  - pose proof (setPrototypeOf_other _ _ _ _ _ _ lw Hs Hne) as Hlw0.
    rewrite Hlw in Hlw0. rewrite (Get_inherit _ _ _ _ Hlw0 Hk). by rewrite Hpr.
Qed.

Section Apply.
Variable user : nat → val → val → heap → outcome val.

(** ** apply and isTraitificationOf *)

Lemma apply_Ret fuel B T (h : heap) app h' t :
  apply user fuel B T h = (Ret app h', t) →
  ∃ h1 surface u,
    invoke user fuel T B h = (Ret app h1, t) ∧
    Get app (Str "prototype") h1 = Ok surface ∧
    unwrap T h1 = Ok u ∧
    Set_ surface (Sym _appliedTrait) u h1 = (Ret tt h', []).
Proof.
  unfold apply, apply_body.
  intros (a & h1 & t0 & t1 & Hcall & Hk & ->)%bind_Ret.
  apply bind_Ret in Hk as (surface & h2 & t2 & t3 & (Hs & -> & ->)%query_Ret & Hk & ->).
  apply bind_Ret in Hk as (u & h3 & t4 & t5 & (Hu & -> & ->)%query_Ret & Hk & ->).
  apply bind_Ret in Hk as ([] & h4 & t6 & t7 & Hset & Hr & ->).
  unfold ret in Hr. simplify_eq.
  destruct (Set_Ret _ _ _ _ _ _ _ Hset) as (l & ob & -> & Hl & -> & ->).
  exists h1, (VObj l), u. rewrite !app_nil_r. done.
Qed.

(** After [apply(B, T)] the prototype of the result owns the marker, and
    the marker is the unwrapped [T]. *)
Lemma apply_marker fuel B T (h : heap) app h' t :
  apply user fuel B T h = (Ret app h', t) →
  ∃ surface u,
    Get app (Str "prototype") h' = Ok surface ∧
    unwrap T h' = Ok u ∧
    hasOwnProperty surface (Sym _appliedTrait) h' = Ok true ∧
    Get surface (Sym _appliedTrait) h' = Ok u.
Proof.
  intros (h1 & surface & u & _ & Hs & Hu & Hset)%apply_Ret.
  exists surface, u. split_and!.
  - eapply Get_same_on; [|done]. by eapply Set_same_on.
  - eapply unwrap_same_on; [|done]. by eapply Set_same_on.
  - by eapply Set_hasOwnProperty.
  - by eapply Set_Get.
Qed.

Lemma isTraitificationOf_marked surface U (h : heap) u :
  hasOwnProperty surface (Sym _appliedTrait) h = Ok true →
  Get surface (Sym _appliedTrait) h = Ok u →
  isTraitificationOf surface U h = (let? u' := unwrap U in qret (strict_equal u u')) h.
Proof.
  intros Hown Hget. unfold isTraitificationOf.
  rewrite (qbind_run _ _ _ _ Hown). by rewrite (qbind_run _ _ _ _ Hget).
Qed.

(** C1. After [apply(B, T)] has returned, [isTraitificationOf] on the
    prototype of the result is true for [T], false for every trait whose
    unwrapped form differs from that of [T], and true for every [W2] when
    [T] is a wrapper [W1] and both were put around the same original by
    [wrap] (each a wrapper without a back-reference of its own, and the
    trait body leaving what the two unwrap to as it was). *)
Theorem isTraitificationOf_apply :
  (∀ fuel B T (h : heap) app h' t,
      apply user fuel B T h = (Ret app h', t) →
      ∃ surface,
        Get app (Str "prototype") h' = Ok surface ∧
        isTraitificationOf surface T h' = Ok true ∧
        (∀ U uU uT, unwrap U h' = Ok uU → unwrap T h' = Ok uT → uU ≠ uT →
                    isTraitificationOf surface U h' = Ok false))
  ∧ (∀ fuel B T0 W1 W2 (h : heap) r1 h1 t1 r2 h2 t2 app h3 t3,
      plain h W1 → plain h1 W2 →
      wrap T0 W1 h = (Ret r1 h1, t1) →
      wrap T0 W2 h1 = (Ret r2 h2, t2) →
      apply user fuel B r1 h2 = (Ret app h3, t3) →
      unwrap W1 h3 = unwrap W1 h2 → unwrap W2 h3 = unwrap W2 h2 →
      ∃ surface,
        Get app (Str "prototype") h3 = Ok surface ∧
        isTraitificationOf surface r2 h3 = Ok true).
Proof.
  split.
  - intros fuel B T h app h' t (surface & u & Hs & Hu & Hown & Hget)%apply_marker.
    exists surface. split_and!; [done|..].
    + rewrite (isTraitificationOf_marked _ _ _ _ Hown Hget).
      rewrite (qbind_run _ _ _ _ Hu). unfold qret, strict_equal.
      by rewrite bool_decide_eq_true_2.
    + intros U uU uT HuU HuT Hne.
      rewrite (isTraitificationOf_marked _ _ _ _ Hown Hget).
      rewrite (qbind_run _ _ _ _ HuU). unfold qret, strict_equal.
      rewrite bool_decide_eq_false_2; [done|congruence].
  - intros fuel B T0 W1 W2 h r1 h1 t1 r2 h2 t2 app h3 t3 Hp1 Hp2 Hw1 Hw2 Happ Hk1 Hk2.
    destruct (wrap_Ret _ _ _ _ _ _ Hw1) as (-> & _).
    destruct (wrap_Ret _ _ _ _ _ _ Hw2) as (-> & _).
    destruct (wrap_same_identity _ _ _ _ _ _ _ _ _ _ Hp1 Hp2 Hw1 Hw2) as (u & Hu1 & Hu2).
    rewrite Hu1 in Hk1. rewrite Hu2 in Hk2.
    destruct (apply_marker _ _ _ _ _ _ _ Happ) as (surface & u' & Hs & Hu' & Hown & Hget).
    assert (u' = u) as -> by congruence.
    exists surface. split; [done|].
    rewrite (isTraitificationOf_marked _ _ _ _ Hown Hget).
    rewrite (qbind_run _ _ _ _ Hk2). unfold qret, strict_equal.
    by rewrite bool_decide_eq_true_2.
Qed.

End Apply.
(** ** expresses *)

Lemma expresses_loop_walk n trait (h : heap) o :
  expresses_loop n (val_of_proto o) trait h
  = expresses_answer (walk (surface_stop trait h) n h o).
Proof.
  revert o. induction n as [|n IH]; intros [l|]; simpl; try done.
  unfold qbind, surface_stop.
  destruct (h !! l) as [ob|] eqn:Hl.
  - destruct (isTraitificationOf (VObj l) trait h) as [[]| |] eqn:Hi; try done.
    unfold getPrototypeOf. rewrite Hl. apply IH.
  - unfold isTraitificationOf, qbind, hasOwnProperty. by rewrite Hl.
Qed.

(** Once the loop has an answer, the fuel of [expresses] gives it too. *)
Lemma expresses_enough n v trait (h : heap) r :
  expresses_loop n v trait h = r → r ≠ QStuck → expresses v trait h = r.
Proof.
  intros Hr Hns. unfold expresses, walk_fuel.
  assert (Hobj : ∀ o m, expresses_loop m (val_of_proto o) trait h = r →
                        ∀ m', size h ≤ m' → expresses_loop m' (val_of_proto o) trait h = r).
  { intros o m Hm m' Hle. rewrite expresses_loop_walk in *.
    destruct (walk (surface_stop trait h) m h o) as [x|] eqn:Hw; [|by subst].
    by rewrite (walk_enough _ _ _ _ _ Hw m' Hle). }
  destruct v as [| |b|z|s|l].
  - by destruct n.
  - by destruct n.
  - destruct n as [|n]; [by subst|]. simpl in *. unfold qbind in *. simpl in *.
    apply (Hobj (Some BooleanPrototype) n); [done|lia].
  - destruct n as [|n]; [by subst|]. simpl in *. unfold qbind in *. simpl in *.
    apply (Hobj (Some NumberPrototype) n); [done|lia].
  - destruct n as [|n]; [by subst|]. simpl in *. unfold qbind in *. simpl in *.
    apply (Hobj (Some StringPrototype) n); [done|lia].
  - apply (Hobj (Some l) n); [done|lia].
Qed.

Lemma expresses_loop_surfaces (h : heap) v L last trait n :
  surfaces h v L last →
  Forall (λ s, isTraitificationOf s trait h = Ok false) L →
  expresses_loop (length L + n) v trait h = expresses_loop n last trait h.
Proof.
  induction 1 as [|v next L last Hv Hnext _ IH]; intros Hall; [done|].
  apply Forall_cons in Hall as [Hhead Htail]. simpl. rewrite Hv.
  rewrite (qbind_run _ _ _ _ Hhead). rewrite (qbind_run _ _ _ _ Hnext). auto.
Qed.

Lemma expresses_found (h : heap) v L s trait :
  surfaces h v L s →
  Forall (λ s, isTraitificationOf s trait h = Ok false) L →
  isTraitificationOf s trait h = Ok true →
  expresses v trait h = Ok true.
Proof.
  intros Hs Hall Hfound. apply (expresses_enough (length L + 1)); [|done].
  rewrite (expresses_loop_surfaces _ _ _ _ _ _ Hs Hall). simpl.
  destruct (nullish s) eqn:Hn.
  - destruct s; try done.
  - by rewrite (qbind_run _ _ _ _ Hfound).
Qed.

Lemma expresses_exhausted (h : heap) v L last trait :
  surfaces h v L last → nullish last = true →
  Forall (λ s, isTraitificationOf s trait h = Ok false) L →
  expresses v trait h = Ok false.
Proof.
  intros Hs Hn Hall. apply (expresses_enough (length L + 0)); [|done].
  rewrite (expresses_loop_surfaces _ _ _ _ _ _ Hs Hall).
  destruct last; try done; by destruct (length L + 0).
Qed.

Lemma construct_Ret C (h : heap) i h' t :
  construct C h = (Ret i h', t) →
  ∃ p li, code_of h C = Some CClass ∧
          Get C (Str "prototype") h = Ok p ∧
          h !! li = None ∧ i = VObj li ∧ t = [] ∧
          h' = <[li := Obj (Some (match p with VObj q => q | _ => ObjectPrototype end))
                           ∅ Plain]> h.
Proof.
  unfold construct. destruct (code_of h C) as [[]|] eqn:Hc; try done.
  intros (p & h0 & t0 & t1 & (Hp & -> & ->)%query_Ret & Hk & ->)%bind_Ret.
  apply bind_Ret in Hk as (li & h1 & t2 & t3 & Ha & Hr & ->).
  apply alloc_Ret in Ha as (Hli & -> & ->). unfold ret in Hr. simplify_eq.
  eauto 10.
Qed.

Section Expresses.
Variable user : nat → val → val → heap → outcome val.

(** C2. An instance of [apply(B, T)] expresses [T]; in general [expresses]
    follows the chain of behaviour surfaces from the value on, answers true
    at the first surface that is a traitification of the trait, whatever
    follows it, and false when the chain ends without one. *)
Theorem expresses_instance_and_chain :
  (∀ fuel B T (h : heap) app h1 t1 i h2 t2,
      apply user fuel B T h = (Ret app h1, t1) →
      construct app h1 = (Ret i h2, t2) →
      expresses i T h2 = Ok true)
  ∧ (∀ (h : heap) v T L s,
      surfaces h v L s →
      Forall (λ s', isTraitificationOf s' T h = Ok false) L →
      isTraitificationOf s T h = Ok true →
      expresses v T h = Ok true)
  ∧ (∀ (h : heap) v T L last,
      surfaces h v L last → nullish last = true →
      Forall (λ s', isTraitificationOf s' T h = Ok false) L →
      expresses v T h = Ok false).
Proof.
  split_and!;
    [|intros h v T L s; apply expresses_found
     |intros h v T L last; apply expresses_exhausted].
  intros fuel B T h app h1 t1 i h2 t2 Happ Hnew.
  destruct (apply_marker _ _ _ _ _ _ _ _ Happ) as (surface & u & Hs & Hu & Hown & Hget).
  destruct (hasOwnProperty_true _ _ _ Hown) as (s & ob & p & -> & Hsl & Hp).
  destruct (construct_Ret _ _ _ _ _ Hnew) as (p' & li & _ & Hp' & Hli & -> & _ & ->).
  assert (p' = VObj s) as -> by congruence.
  assert (Hne : li ≠ s) by (intros ->; congruence).
  eapply (expresses_found _ _ [VObj li] (VObj s)).
  - econstructor; [done| |constructor].
    unfold getPrototypeOf. by rewrite lookup_insert_eq.
  - constructor; [|done].
    unfold isTraitificationOf, qbind, hasOwnProperty. rewrite lookup_insert_eq. simpl.
    by rewrite lookup_empty.
  - rewrite (isTraitificationOf_marked _ _ _ u).
    + rewrite (qbind_run _ _ _ u); [unfold qret, strict_equal; by rewrite bool_decide_eq_true_2|].
      eapply unwrap_same_on; [|done]. by apply same_on_insert_fresh.
    + by rewrite hasOwnProperty_insert_ne.
    + eapply Get_same_on; [|done]. by apply same_on_insert_fresh.
Qed.

End Expresses.

(** ** Cached *)

Lemma keeps_objects_code (h h' : heap) v c :
  keeps_objects h h' → code_of h v = Some c → code_of h' v = Some c.
Proof.
  intros Hk (l & pr & ps & -> & Hl)%code_of_Some.
  destruct (Hk _ _ Hl) as ([pr' ps' k'] & Hl' & Hsk). simpl in Hsk.
  inversion Hsk; subst. unfold code_of. by rewrite Hl'.
Qed.

Lemma emit_bind {A} e (k : unit → M A) (h : heap) :
  bind (emit e) k h = (let '(o, t) := k tt h in (o, e :: t)).
Proof. done. Qed.

Lemma cachedApplications_of_Ret B (h : heap) m hm t :
  cachedApplications_of B h = (Ret m hm, t) →
  t = [] ∧
  ((Get B (Sym _cachedApplications) h = Ok m ∧ truthy m = true ∧ hm = h) ∨
   (∃ found lm lb ob,
      Get B (Sym _cachedApplications) h = Ok found ∧ truthy found = false ∧
      m = VObj lm ∧ h !! lm = None ∧ B = VObj lb ∧ h !! lb = Some ob ∧
      hm = <[lb := write_own (Sym _cachedApplications) (VObj lm) ob]>
             (<[lm := Obj (Some MapPrototype) ∅ (MapObj [])]> h))).
Proof.
  unfold cachedApplications_of.
  intros (found & h0 & t0 & t1 & (Hf & -> & ->)%query_Ret & Hk & ->)%bind_Ret.
  destruct (truthy found) eqn:Htf; simpl in Hk.
  - unfold ret in Hk. simplify_eq. split; [done|]. by left.
  - apply bind_Ret in Hk as (m' & h1 & t2 & t3 & Hm & Hk & ->).
    apply bind_Ret in Hk as ([] & h2 & t4 & t5 & Hset & Hr & ->).
    unfold ret in Hr. simplify_eq.
    apply new_Map_Ret in Hm as (lm & -> & Hlm & -> & ->).
    destruct (Set_Ret _ _ _ _ _ _ _ Hset) as (lb & ob & -> & Hlb & -> & ->).
    split; [done|]. right.
    destruct (Get_Ok_object _ _ _ _ Hf) as [ob0 Hob0].
    assert (lb ≠ lm) by (intros ->; congruence).
    rewrite lookup_insert_ne in Hlb by done.
    exists found, lm, lb, ob. split_and!; done.
Qed.

(** After its first two statements the closure holds the cache that
    [superclass[_cachedApplications]] reads, and no function has changed. *)
Lemma cachedApplications_of_slot B (h : heap) m hm t :
  cachedApplications_of B h = (Ret m hm, t) →
  Get B (Sym _cachedApplications) hm = Ok m ∧ truthy m = true ∧
  (∀ v, code_of hm v = code_of h v).
Proof.
  intros (-> & [(Hg & Ht & ->)|(found & lm & lb & ob & Hg & Ht & -> & Hlm & -> & Hlb & ->)])
    %cachedApplications_of_Ret; [done|].
  assert (lb ≠ lm) by (intros ->; congruence).
  split_and!; [|done|].
  - apply Get_write_own.
  - intros v. rewrite (code_of_same_kind _ lb ob); [| by rewrite lookup_insert_ne |done].
    unfold code_of. destruct v as [| | | | |l]; try done.
    destruct (decide (l = lm)) as [->|Hne].
    + by rewrite lookup_insert_eq, Hlm.
    + by rewrite lookup_insert_ne.
Qed.

Lemma cachedApplications_of_found B (h : heap) m :
  Get B (Sym _cachedApplications) h = Ok m → truthy m = true →
  cachedApplications_of B h = (Ret m h, []).
Proof.
  intros Hg Ht. unfold cachedApplications_of.
  rewrite (bind_run _ _ _ _ _ _ (query_run _ _ _ Hg)). by rewrite Ht.
Qed.


Section CachedBody.
Variable callf : val → val → M val.

Lemma Cached_body_Ret T B (h : heap) app h1 t :
  Cached_body callf T B h = (Ret app h1, t) →
  ∃ m hm c,
    cachedApplications_of B h = (Ret m hm, []) ∧ Map_get m T hm = Ok c ∧
    ((truthy c = true ∧ app = c ∧ h1 = hm ∧ t = []) ∨
     (truthy c = false ∧
      ∃ hT, callf T B hm = (Ret app hT, t) ∧ Map_set m T app hT = (Ret tt h1, []))).
Proof.
  unfold Cached_body.
  intros (m & hm & t0 & t1 & Hm & Hk & ->)%bind_Ret.
  destruct (cachedApplications_of_Ret _ _ _ _ _ Hm) as [-> _].
  apply bind_Ret in Hk as (c & h0 & t2 & t3 & (Hc & -> & ->)%query_Ret & Hk & ->).
  exists m, hm, c. split_and!; try done.
  destruct (truthy c) eqn:Htc; simpl in Hk.
  - unfold ret in Hk. simplify_eq. by left.
  - right. split; [done|].
    apply bind_Ret in Hk as (a & hT & t4 & t5 & Hcall & Hk & ->).
    apply bind_Ret in Hk as ([] & h2 & t6 & t7 & Hset & Hr & ->).
    unfold ret in Hr. simplify_eq.
    destruct (Map_set_Ret _ _ _ _ _ _ _ Hset) as (? & ? & ? & ? & _ & _ & -> & _).
    exists hT. by rewrite !app_nil_r.
Qed.

Lemma Cached_body_hit T B (h : heap) m hm c :
  cachedApplications_of B h = (Ret m hm, []) → Map_get m T hm = Ok c →
  truthy c = true →
  Cached_body callf T B h = (Ret c hm, []).
Proof.
  intros Hm Hc Htc. unfold Cached_body.
  rewrite (bind_run _ _ _ _ _ _ Hm).
  rewrite (bind_run _ _ _ _ _ _ (query_run _ _ _ Hc)). by rewrite Htc.
Qed.

Lemma Cached_body_miss T B (h : heap) m hm c app hT tT h1 :
  cachedApplications_of B h = (Ret m hm, []) → Map_get m T hm = Ok c →
  truthy c = false →
  callf T B hm = (Ret app hT, tT) →
  Map_set m T app hT = (Ret tt h1, []) →
  Cached_body callf T B h = (Ret app h1, tT).
Proof.
  intros Hm Hc Htc Hcall Hset. unfold Cached_body.
  rewrite (bind_run _ _ _ _ _ _ Hm).
  rewrite (bind_run _ _ _ _ _ _ (query_run _ _ _ Hc)). rewrite Htc. simpl.
  rewrite (bind_run _ _ _ _ _ _ Hcall).
  rewrite (bind_run _ _ _ _ _ _ Hset). unfold ret. by rewrite !app_nil_r.
Qed.

Lemma Cached_body_throw T B (h : heap) m hm c e hT tT :
  cachedApplications_of B h = (Ret m hm, []) → Map_get m T hm = Ok c →
  truthy c = false →
  callf T B hm = (Throw e hT, tT) →
  Cached_body callf T B h = (Throw e hT, tT).
Proof.
  intros Hm Hc Htc Hcall. unfold Cached_body.
  rewrite (bind_run _ _ _ _ _ _ Hm).
  rewrite (bind_run _ _ _ _ _ _ (query_run _ _ _ Hc)). rewrite Htc. simpl.
  by rewrite (bind_run_Throw _ _ _ _ _ _ Hcall).
Qed.

End CachedBody.

(** A decorator makes a new function with the given code and wraps the
    trait in it. *)
Lemma decorate_Ret c T (h : heap) W h0 t :
  (let* wrapper := new_function c in wrap T wrapper) h = (Ret W h0, t) →
  code_of h0 W = Some c ∧ t = [] ∧ W ≠ T ∧
  (∀ v c', code_of h v = Some c' → code_of h0 v = Some c') ∧
  ∃ lw, W = VObj lw ∧ h !! lw = None.
Proof.
  intros (w & h1 & t0 & t1 & Hn & Hw & ->)%bind_Ret.
  apply new_function_Ret in Hn as (lw & -> & Hlw & -> & ->).
  destruct (wrap_Ret _ _ _ _ _ _ Hw) as (-> & -> & _).
  split_and!; [|done| | |eauto].
  - eapply wrap_code; [done|]. apply code_of_insert.
  - eapply wrap_wrapper_ne; [done|].
    eexists _, _. split_and!; [done|apply lookup_insert_eq|done].
  - intros v c' Hv. eapply wrap_code; [done|].
    rewrite code_of_insert_ne; [done|]. intros ->.
    apply code_of_Some in Hv as (? & ? & ? & [= <-] & ?). congruence.
Qed.

Section Cached.
Variable user : nat → val → val → heap → outcome val.

Lemma call_code n f this arg (h : heap) c :
  code_of h f = Some c →
  call user (S n) f this arg h
  = (let '(o, t) := run_code user (invoke user n) c this arg h in (o, Called f arg :: t)).
Proof. intros Hc. simpl. by rewrite Hc. Qed.

Lemma call_user n f this arg (h : heap) id :
  code_of h f = Some (CUser id) →
  call user (S n) f this arg h = (user id this arg h, [Called f arg]).
Proof. intros Hc. by rewrite (call_code _ _ _ _ _ _ Hc). Qed.

(** A user function whose runs leave [_cachedApplications] alone on every
    object leaves the cache alone. *)
Lemma frames_leaves_cache_alone n T B id :
  (∀ this arg, frames (Sym _cachedApplications) (λ h, (user id this arg h, []))) →
  leaves_cache_alone user n T B (Some (CUser id)).
Proof.
  intros Hf h o t h' Hc Hcall Hh.
  destruct n as [|n]; [by injection Hcall as <- _|].
  unfold invoke in Hcall. rewrite (call_user _ _ _ _ _ _ Hc) in Hcall.
  injection Hcall as <- _.
  pose proof (Hf VUndef B h _ _ h' eq_refl Hh) as Hk.
  split.
  - intros l ob Hl. destruct (Hk _ _ Hl) as (ob' & Hl' & _ & Hkd & _).
    exists ob'. split; [done|]. rewrite Hkd. destruct (kind ob); constructor.
  - intros m Hm. split.
    + eapply Get_same_on; [|done]. by eapply kept_same_on.
    + intros x Hx. by eapply kept_Map_get.
Qed.

Lemma invocations_cons f g a t :
  invocations f (Called g a :: t)
  = (if decide (g = f) then 1 else 0) + invocations f t.
Proof.
  unfold invocations. rewrite filter_cons. simpl. by destruct (decide (g = f)).
Qed.


End Cached.

(** ** Errors of the trait body *)

Lemma keeps_objects_code_back (h h' : heap) l :
  keeps_objects h h' → is_Some (h !! l) → code_of h' (VObj l) = code_of h (VObj l).
Proof.
  intros Hk [[pr ps k] Hl].
  destruct (Hk _ _ Hl) as ([pr' ps' k'] & Hl' & Hsk). simpl in Hsk.
  unfold code_of. rewrite Hl, Hl'. by inversion Hsk.
Qed.

Section Errors.
Variable user : nat → val → val → heap → outcome val.

(** A call that throws was made on a value that is not a missing object. *)
Lemma call_Throw_present n f this arg (h : heap) e h' t :
  call user n f this arg h = (Throw e h', t) →
  ∀ h2, keeps_objects h h2 → code_of h2 f = code_of h f.
Proof.
  intros Hcall h2 Hk. destruct n as [|n]; [done|]. simpl in Hcall.
  destruct f as [| | | | |l]; try done.
  destruct (code_of h (VObj l)) as [c|] eqn:Hc.
  - by rewrite (keeps_objects_code _ _ _ _ Hk Hc).
  - case_decide as Hl; [|done]. rewrite <- Hc. by apply keeps_objects_code_back.
Qed.

(** C9. An exception of the trait body goes through [apply] and through
    the closure of [Cached] as it is, with the heap as the body left it:
    the closure writes no cache entry.  When the body respects the cache,
    nothing is cached for the pair afterwards, and the next call of the
    wrapper runs the body again and returns and caches what it returns. *)
Theorem trait_errors_propagate n T B e :
  (∀ (h : heap) hT tT,
      invoke user n T B h = (Throw e hT, tT) →
      apply user n B T h = (Throw e hT, tT))
  ∧ (∀ W (h : heap) m hm c hT tT,
      code_of h W = Some (CCachedWrapper T) →
      cachedApplications_of B h = (Ret m hm, []) →
      Map_get m T hm = Ok c → truthy c = false →
      invoke user n T B hm = (Throw e hT, tT) →
      invoke user (S n) W B h = (Throw e hT, Called W B :: tT)
      ∧ (leaves_cache_alone user n T B (code_of hm T) →
         (∃ c', cached_application B T hT = Ok c' ∧ truthy c' = false)
         ∧ ∀ app h2 t2,
             invoke user n T B hT = (Ret app h2, t2) →
             ∃ h3, invoke user (S n) W B hT = (Ret app h3, Called W B :: t2)
                   ∧ cached_application B T h3 = Ok app)).
Proof.
  split.
  - intros h hT tT Hcall. unfold apply, apply_body.
    by rewrite (bind_run_Throw _ _ _ _ _ _ Hcall).
  - intros W h m hm c hT tT HcW Hm Hc Htc Hcall. split.
    + unfold invoke. rewrite (call_code _ _ _ _ _ _ _ HcW). simpl.
      by rewrite (Cached_body_throw _ _ _ _ _ _ _ _ _ _ Hm Hc Htc Hcall).
    + intros Hframe.
      destruct (cachedApplications_of_slot _ _ _ _ _ Hm) as (Hslot & Htm & Hcode).
      destruct (Hframe hm (Throw e hT) tT hT) as (Hkeep & Hkept); [done..|].
      destruct (Hkept m Hslot) as (HslotT & HgetT).
      pose proof (HgetT _ Hc) as HcT.
      assert (HcWT : code_of hT W = Some (CCachedWrapper T)).
      { eapply keeps_objects_code; [done|]. by rewrite Hcode. }
      split.
      { exists c. split; [|done]. unfold cached_application.
        by rewrite (qbind_run _ _ _ _ HslotT), Htm. }
      intros app h2 t2 Hcall2.
      destruct (Hframe hT (Ret app h2) t2 h2) as (Hkeep2 & Hkept2); [|done|done|].
      { unfold invoke in Hcall. by eapply call_Throw_present. }
      destruct (Hkept2 m HslotT) as (Hslot2 & Hget2).
      destruct (Map_set_run m T app h2 c (Hget2 _ HcT)) as [h3 Hset].
      exists h3. split.
      * unfold invoke. rewrite (call_code _ _ _ _ _ _ _ HcWT). simpl.
        rewrite (Cached_body_miss _ _ _ _ m hT c app h2 t2 h3); try done.
        by apply cachedApplications_of_found.
      * unfold cached_application.
        rewrite (qbind_run _ _ _ m), Htm; [by eapply Map_set_get|].
        eapply Get_same_on; [|done]. by eapply Map_set_same_on.
Qed.

End Errors.

(** ** HasInstance *)

Lemma defineProperty_Ret o k v (h : heap) r h' t :
  defineProperty o k v h = (Ret r h', t) →
  ∃ l ob p, o = VObj l ∧ r = o ∧ t = [] ∧ h !! l = Some ob ∧ pvalue p = v ∧
            h' = <[l := Obj (proto ob) (<[k := p]> (props ob)) (kind ob)]> h.
Proof.
  unfold defineProperty. destruct o as [| | | | |l]; try done.
  destruct (h !! l) as [ob|] eqn:Hl; [|done].
  destruct (props ob !! k) as [p|] eqn:Hp.
  - destruct (configurable p || writable p || strict_equal (pvalue p) v); [|done].
    intros [= <- <- <-]. unfold write_own. rewrite Hp.
    exists l, ob, (Prop_ v (writable p) (configurable p)). split_and!; done.
  - intros [= <- <- <-]. exists l, ob, (Prop_ v false false). split_and!; done.
Qed.

Lemma HasInstance_Ret T (h : heap) r h' t :
  HasInstance true T h = (Ret r h', t) →
  r = T ∧ t = [] ∧
  ∃ prior lv lt ob p,
    T = VObj lt ∧ Get T (Sym Symbol_hasInstance) h = Ok prior ∧
    h !! lv = None ∧ h !! lt = Some ob ∧ lv ≠ lt ∧ pvalue p = VObj lv ∧
    h' = <[lt := Obj (proto ob) (<[Sym Symbol_hasInstance := p]> (props ob)) (kind ob)]>
           (<[lv := Obj (Some FunctionPrototype) ∅ (Fun (CHasInstanceValue prior T))]> h).
Proof.
  unfold HasInstance.
  intros (prior & h0 & t0 & t1 & (Hprior & -> & ->)%query_Ret & Hk & ->)%bind_Ret.
  apply bind_Ret in Hk as (value & h1 & t2 & t3 & Hnew & Hk & ->).
  apply bind_Ret in Hk as (d & h2 & t4 & t5 & Hdef & Hr & ->).
  unfold ret in Hr. simplify_eq.
  apply new_function_Ret in Hnew as (lv & -> & Hlv & -> & ->).
  apply defineProperty_Ret in Hdef as (lt & ob & p & -> & _ & -> & Hlt & Hp & ->).
  destruct (Get_Ok_object _ _ _ _ Hprior) as [ob0 Hob0].
  assert (lv ≠ lt) by (intros ->; congruence).
  rewrite lookup_insert_ne in Hlt by done.
  split_and!; try done. exists prior, lv, lt, ob, p. split_and!; done.
Qed.

Section HasInstance.
Variable user : nat → val → val → heap → outcome val.

Lemma instanceof_handler fuel v l (h : heap) handler :
  Get (VObj l) (Sym Symbol_hasInstance) h = Ok handler → nullish handler = false →
  instanceof user fuel v (VObj l) h
  = (let* r := call user fuel handler (VObj l) v in ret (truthy r)) h.
Proof.
  intros Hg Hn. unfold instanceof.
  rewrite (bind_run _ _ _ _ _ _ (query_run _ _ _ Hg)). rewrite Hn.
  by destruct (bind _ _ h).
Qed.

End HasInstance.

(** ** Dedupe, Trait and the builder's default base *)

Lemma HasInstance_code sym T (h : heap) r h' t :
  HasInstance sym T h = (Ret r h', t) → r = T ∧ code_of h' T = code_of h T.
Proof.
  destruct sym.
  - intros (-> & -> & prior & lv & lt & ob & p & -> & Hprior & Hlv & Hlt & Hne & Hp & ->)
      %HasInstance_Ret.
    split; [done|].
    rewrite (code_of_same_kind _ lt ob); [| by rewrite lookup_insert_ne |done].
    rewrite code_of_insert_ne; [done|congruence].
  - unfold HasInstance, ret. by intros [= -> ->].
Qed.

Lemma Trait_Ret sym f (h : heap) W h0 t :
  Trait sym f h = (Ret W h0, t) → ∃ cached, code_of h0 W = Some (CDedupeWrapper cached).
Proof.
  unfold Trait.
  intros (bare & h1 & t0 & t1 & _ & Hk & ->)%bind_Ret.
  apply bind_Ret in Hk as (cached & h2 & t2 & t3 & _ & Hk & ->).
  apply bind_Ret in Hk as (deduped & h3 & t4 & t5 & Hd & Hk & ->).
  unfold Dedupe in Hd. destruct (decorate_Ret _ _ _ _ _ _ Hd) as (Hc & _).
  destruct (HasInstance_code _ _ _ _ _ _ Hk) as (-> & Hcode).
  exists cached. congruence.
Qed.

Lemma new_class_Ret parent protoParent (h : heap) c h' t :
  new_class parent protoParent h = (Ret c h', t) →
  ∃ lp lc ob,
    c = VObj lc ∧ t = [] ∧ h !! lp = None ∧ h !! lc = None ∧ lp ≠ lc ∧
    h' !! lc = Some (Obj parent {[ Str "prototype" := Prop_ (VObj lp) false false ]}
                         (Fun CClass)) ∧
    h' !! lp = Some ob ∧ proto ob = protoParent ∧ kind ob = Plain ∧
    (∀ k, k ≠ Str "constructor" → props ob !! k = None) ∧
    (∀ l, l ≠ lp → l ≠ lc → h' !! l = h !! l).
Proof.
  unfold new_class.
  intros (lp & h1 & t0 & t1 & Hp & Hk & ->)%bind_Ret.
  apply bind_Ret in Hk as (lc & h2 & t2 & t3 & Hc & Hk & ->).
  apply bind_Ret in Hk as ([] & h3 & t4 & t5 & Hset & Hr & ->).
  unfold ret in Hr. simplify_eq.
  apply alloc_Ret in Hp as (Hlp & -> & ->).
  apply alloc_Ret in Hc as (Hlc & -> & ->).
  destruct (define_own_Ret _ _ _ _ _ _ _ Hset) as (l & ob & [= <-] & Hl & -> & ->).
  assert (lp ≠ lc) by (intros ->; by rewrite lookup_insert_eq in Hlc).
  rewrite lookup_insert_ne in Hlc by done.
  rewrite lookup_insert_ne, lookup_insert_eq in Hl by done. simplify_eq.
  exists lp, lc, (write_own (Str "constructor") (VObj lc) (Obj protoParent ∅ Plain)).
  split_and!; try done.
  - rewrite lookup_insert_ne by done. apply lookup_insert_eq.
  - apply lookup_insert_eq.
  - intros k Hk. simpl. rewrite lookup_insert_ne by done. apply lookup_empty.
  - intros l Hl1 Hl2. by rewrite !lookup_insert_ne.
Qed.

Section Dedupe.
Variable user : nat → val → val → heap → outcome val.

(** C6. Idempotence of Dedupe.  [W = Dedupe(T)] is a function other than
    [T]; applied to a base whose prototype already expresses [T] it returns
    that base, changes nothing and calls nothing but [W]; otherwise it is
    the call [T(base)]. *)
Theorem Dedupe_skips_or_delegates n T W (h : heap) h0 t0 :
  Dedupe T h = (Ret W h0, t0) →
  W ≠ T ∧
  ∀ (h1 : heap) B surface,
    code_of h1 W = code_of h0 W →
    Get B (Str "prototype") h1 = Ok surface →
    (expresses surface T h1 = Ok true →
     invoke user (S n) W B h1 = (Ret B h1, [Called W B]))
    ∧ (expresses surface T h1 = Ok false →
       invoke user (S n) W B h1
       = (let '(o, t) := invoke user n T B h1 in (o, Called W B :: t))).
Proof.
  intros HD. unfold Dedupe in HD.
  destruct (decorate_Ret _ _ _ _ _ _ HD) as (HcW & _ & Hne & _).
  split; [done|]. intros h1 B surface Hcode Hs.
  rewrite HcW in Hcode.
  split; intros He; unfold invoke; rewrite (call_code _ _ _ _ _ _ _ Hcode); simpl;
    unfold Dedupe_body;
    rewrite (bind_run _ _ _ _ _ _ (query_run _ _ _ Hs));
    rewrite (bind_run _ _ _ _ _ _ (query_run _ _ _ He)); simpl.
  - done.
  - unfold invoke. by destruct (call user n T VUndef B h1).
Qed.

(** C10. The function that [Dedupe(f)] returns, and so the one that
    [Trait(f)] returns, throws a TypeError when it is called with a null or
    undefined base: only the builder puts a new empty class in the place of
    a missing base. *)
Theorem decorated_trait_needs_a_base n base :
  nullish base = true →
  (∀ f (h : heap) W h0 t0 h1,
      Dedupe f h = (Ret W h0, t0) → code_of h1 W = code_of h0 W →
      invoke user (S n) W base h1 = (Throw TypeError h1, [Called W base]))
  ∧ (∀ sym f (h : heap) W h0 t0 h1,
      Trait sym f h = (Ret W h0, t0) → code_of h1 W = code_of h0 W →
      invoke user (S n) W base h1 = (Throw TypeError h1, [Called W base]))
  ∧ (∀ (h : heap) builder h' t,
      superclass base h = (Ret builder h', t) →
      ∃ lc, Get builder (Str "superclass") h' = Ok (VObj lc) ∧
            h !! lc = None ∧ code_of h' (VObj lc) = Some CClass).
Proof.
  intros Hbase.
  assert (Hthrow : ∀ W T (h1 : heap), code_of h1 W = Some (CDedupeWrapper T) →
            invoke user (S n) W base h1 = (Throw TypeError h1, [Called W base])).
  { intros W T h1 Hc. unfold invoke. rewrite (call_code _ _ _ _ _ _ _ Hc). simpl.
    unfold Dedupe_body, bind, query, Get. by destruct base. }
  split_and!.
  - intros f h W h0 t0 h1 HD Hcode. unfold Dedupe in HD.
    destruct (decorate_Ret _ _ _ _ _ _ HD) as (HcW & _).
    eapply Hthrow. by rewrite Hcode.
  - intros sym f h W h0 t0 h1 HT Hcode.
    destruct (Trait_Ret _ _ _ _ _ _ HT) as (cached & HcW).
    eapply Hthrow. by rewrite Hcode.
  - intros h builder h' t. unfold superclass, new_TraitBuilder.
    intros (this & h1 & t0 & t1 & Hthis & Hk & ->)%bind_Ret.
    apply bind_Ret in Hk as ([] & h2 & t2 & t3 & Hctor & Hr & ->).
    unfold ret in Hr. simplify_eq.
    apply alloc_Ret in Hthis as (Hlt & -> & ->).
    unfold TraitBuilder_constructor in Hctor.
    assert (Htb : truthy base = false) by by destruct base.
    rewrite Htb in Hctor.
    apply bind_Ret in Hctor as (c & h3 & t4 & t5 & Hclass & Hset & ->).
    destruct (new_class_Ret _ _ _ _ _ _ Hclass)
      as (lp & lc & ob & -> & -> & Hlp & Hlc & Hne & Hclc & _).
    exists lc. split_and!.
    + by eapply Set_Get.
    + apply lookup_insert_None in Hlc as [? _]. done.
    + rewrite (Set_code _ _ _ _ _ _ _ _ Hset). unfold code_of. by rewrite Hclc.
Qed.

End Dedupe.

(** ** The builder *)

Lemma bind_ext {A B} (m : M A) (k1 k2 : A → M B) (h : heap) :
  (∀ a h', k1 a h' = k2 a h') → bind m k1 h = bind m k2 h.
Proof.
  intros Hk. unfold bind. destruct (m h) as [[a h'|e h'|] t]; try done.
  by rewrite Hk.
Qed.

Lemma bind_ext_l {A B} (m1 m2 : M A) (k : A → M B) (h : heap) :
  m1 h = m2 h → bind m1 k h = bind m2 k h.
Proof. unfold bind. by intros ->. Qed.

Lemma bind_assoc {A B C} (m : M A) (f : A → M B) (g : B → M C) (h : heap) :
  bind (bind m f) g h = bind m (λ a, bind (f a) g) h.
Proof.
  unfold bind. destruct (m h) as [[a h'|e h'|] t]; try done.
  destruct (f a h') as [[b h''|e h''|] t']; try done.
  destruct (g b h'') as [o t'']. by rewrite app_assoc.
Qed.

Lemma bind_ret_l {A B} (a : A) (k : A → M B) (h : heap) : bind (ret a) k h = k a h.
Proof. unfold bind, ret. by destruct (k a h). Qed.

Lemma bind_ret_r {A} (m : M A) (h : heap) : bind m ret h = m h.
Proof.
  unfold bind, ret. destruct (m h) as [[a h'|e h'|] t]; try done.
  by rewrite app_nil_r.
Qed.

Section Builder.
Variable user : nat → val → val → heap → outcome val.

Lemma nested_app n l1 l2 B (h : heap) :
  nested user n (l1 ++ l2) B h = bind (nested user n l2 B) (λ x, nested user n l1 x) h.
Proof.
  revert h. induction l1 as [|Tn l1 IH]; intros h; simpl.
  - by rewrite bind_ret_r.
  - etrans; [apply bind_ext_l, IH|]. apply bind_assoc.
Qed.

Lemma reduce_nested n ts : ∀ acc (h : heap),
  reduce (λ it t, invoke user n t it) ts acc h = nested user n (rev ts) acc h.
Proof.
  induction ts as [|x rest IH]; intros acc h; simpl; [done|].
  rewrite nested_app. simpl.
  etrans; [|symmetry; apply bind_ext_l, bind_ret_l].
  by apply bind_ext.
Qed.

Lemma superclass_Ret B (h : heap) builder h' t :
  superclass B h = (Ret builder h', t) →
  ∃ this h1 base,
    builder = VObj this ∧ h !! this = None ∧
    (if truthy B then ret B
     else new_class (Some FunctionPrototype) (Some ObjectPrototype))
      (<[this := Obj (Some TraitBuilderPrototype) ∅ Plain]> h) = (Ret base h1, []) ∧
    Set_ builder (Str "superclass") base h1 = (Ret tt h', []) ∧ t = [].
Proof.
  unfold superclass, new_TraitBuilder.
  intros (this & h1 & t0 & t1 & Hthis & Hk & ->)%bind_Ret.
  apply bind_Ret in Hk as ([] & h2 & t2 & t3 & Hctor & Hr & ->).
  unfold ret in Hr. simplify_eq.
  apply alloc_Ret in Hthis as (Hlt & -> & ->).
  unfold TraitBuilder_constructor in Hctor.
  apply bind_Ret in Hctor as (base & h3 & t4 & t5 & Hbase & Hset & ->).
  destruct (Set_Ret _ _ _ _ _ _ _ Hset) as (? & ? & _ & _ & _ & ->).
  assert (t4 = []) as ->.
  { destruct (truthy B).
    - unfold ret in Hbase. by simplify_eq.
    - by destruct (new_class_Ret _ _ _ _ _ _ Hbase) as (? & ? & ? & _ & -> & _). }
  exists this, h3, base. split_and!; done.
Qed.

Lemma expressing_base n builder base ts (h1 h' : heap) :
  Set_ builder (Str "superclass") base h1 = (Ret tt h', []) →
  expressing user n builder ts h' = nested user n (rev ts) base h'.
Proof.
  intros Hset. unfold expressing.
  rewrite (bind_run _ _ _ _ _ _ (query_run _ _ _ (Set_Get _ _ _ _ _ _ _ Hset))).
  rewrite reduce_nested. by destruct (nested user n (rev ts) base h').
Qed.

(** C7. The builder applies the traits from left to right:
    [superclass(B).expressing(T1, ..., Tn)] is [Tn(...(T2(T1(B))))]; when
    the base is missing, as in [traits(...)], the innermost trait is applied
    to a new empty class, one that inherits from nothing but
    [Object.prototype]. *)
Theorem expressing_applies_in_order :
  (∀ n B ts (h : heap) builder h' t,
      truthy B = true → superclass B h = (Ret builder h', t) →
      expressing user n builder ts h' = nested user n (rev ts) B h')
  ∧ (∀ n base ts (h : heap) builder h' t,
      truthy base = false → superclass base h = (Ret builder h', t) →
      ∃ lc lp,
        h !! lc = None ∧ h !! lp = None ∧
        code_of h' (VObj lc) = Some CClass ∧
        Get (VObj lc) (Str "prototype") h' = Ok (VObj lp) ∧
        getPrototypeOf (VObj lp) h' = Ok (VObj ObjectPrototype) ∧
        hasOwnProperty (VObj lp) (Sym _appliedTrait) h' = Ok false ∧
        expressing user n builder ts h' = nested user n (rev ts) (VObj lc) h')
  ∧ (∀ n ts (h : heap) builder h' t,
      superclass VUndef h = (Ret builder h', t) →
      traits user n ts h = expressing user n builder ts h').
Proof.
  split_and!.
  - intros n B ts h builder h' t HB (this & h1 & base & -> & _ & Hbase & Hset & _)%superclass_Ret.
    rewrite HB in Hbase. unfold ret in Hbase. simplify_eq.
    by eapply expressing_base.
  - intros n base ts h builder h' t HB
      (this & h1 & c & -> & Hthis & Hbase & Hset & _)%superclass_Ret.
    rewrite HB in Hbase.
    destruct (new_class_Ret _ _ _ _ _ _ Hbase)
      as (lp & lc & ob & -> & _ & Hlp & Hlc & Hne & Hclc & Hclp & Hpr & Hk & Hprops & _).
    apply lookup_insert_None in Hlp as [Hlp Hne_p].
    apply lookup_insert_None in Hlc as [Hlc Hne_c].
    destruct (Set_Ret _ _ _ _ _ _ _ Hset) as (l & obt & [= <-] & Hlt & -> & _).
    exists lc, lp. split_and!; try done.
    + rewrite (Set_code _ _ _ _ _ _ _ _ Hset). unfold code_of. by rewrite Hclc.
    + change (VObj lp) with (pvalue (Prop_ (VObj lp) false false)).
      eapply (Get_own _ lc); [by rewrite lookup_insert_ne|]. simpl. apply lookup_insert_eq.
    + unfold getPrototypeOf. rewrite lookup_insert_ne by done. by rewrite Hclp, Hpr.
    + unfold hasOwnProperty. rewrite lookup_insert_ne by done. rewrite Hclp.
      by rewrite Hprops.
    + by eapply expressing_base.
  - intros n ts h builder h' t Hs. unfold traits.
    rewrite (bind_run _ _ _ _ _ _ Hs).
    destruct (superclass_Ret _ _ _ _ _ Hs) as (? & ? & ? & _ & _ & _ & _ & ->).
    by destruct (expressing user n builder ts h').
Qed.

End Builder.

(** ** Further properties: wrap *)

Lemma setPrototypeOf_present l p (h : heap) r h' t :
  setPrototypeOf (VObj l) p h = (Ret r h', t) → is_Some (h !! l).
Proof.
  unfold setPrototypeOf. destruct (h !! l) eqn:Hl; [done|].
  by destruct p.
Qed.

Lemma new_function_run c (h : heap) :
  ∃ l, h !! l = None ∧
       new_function c h
       = (Ret (VObj l) (<[l := Obj (Some FunctionPrototype) ∅ (Fun c)]> h), []).
Proof.
  destruct (alloc_run (Obj (Some FunctionPrototype) ∅ (Fun c)) h) as (l & Hl & Ha).
  exists l. split; [done|]. unfold new_function. by rewrite (bind_run _ _ _ _ _ _ Ha).
Qed.

(** What [wrap] leaves of the wrapper: an object whose prototype is the
    trait. *)
Lemma wrap_wrapper_proto T lw (h : heap) r h' t :
  wrap T (VObj lw) h = (Ret r h', t) →
  ∃ lt ob', T = VObj lt ∧ h' !! lw = Some ob' ∧ proto ob' = Some lt.
Proof.
  intros Hw. destruct (wrap_trait_object _ _ _ _ _ _ Hw) as [lt ->].
  destruct (wrap_Ret _ _ _ _ _ _ Hw) as (_ & _ & h0 & x & Hs & Hx & Hcase).
  destruct (setPrototypeOf_present _ _ _ _ _ _ Hs) as [ob Hl].
  pose proof (setPrototypeOf_object _ _ _ _ _ _ _ Hs Hl) as Hl0. simpl in Hl0.
  exists lt. destruct Hcase as [[_ ->]|[_ Hset]]; [eauto|].
  destruct (Set_Ret _ _ _ _ _ _ _ Hset) as (l & obT & [= <-] & HlT & -> & _).
  destruct (decide (lw = lt)) as [->|Hne].
  - rewrite lookup_insert_eq. rewrite Hl0 in HlT. injection HlT as <-. eauto.
  - rewrite lookup_insert_ne by done. eauto.
Qed.

(** [wrap(T, W)] returns [W] with [T] as its prototype, so that whatever
    [W] does not own itself is read through [W] as it is on [T]. *)
Theorem wrap_delegates T W (h : heap) r h' t :
  is_object W = true → wrap T W h = (Ret r h', t) →
  r = W ∧ getPrototypeOf W h' = Ok T ∧
  ∀ k, hasOwnProperty W k h' = Ok false → Get W k h' = Get T k h'.
Proof.
  intros HW Hw. destruct W as [| | | | |lw]; try done.
  destruct (wrap_Ret _ _ _ _ _ _ Hw) as (-> & _).
  destruct (wrap_wrapper_proto _ _ _ _ _ _ Hw) as (lt & ob' & -> & Hl & Hp).
  split; [done|]. split.
  - unfold getPrototypeOf. by rewrite Hl, Hp.
  - intros k Hown. unfold hasOwnProperty in Hown. rewrite Hl in Hown.
    injection Hown as Hown. apply bool_decide_eq_false_1 in Hown.
    rewrite (Get_inherit _ _ _ k Hl), Hp; [done|].
    destruct (props ob' !! k) eqn:Hk; [|done]. destruct Hown. eauto.
Qed.

(** [wrap] refuses a wrapper that the trait itself inherits from, the trait
    included: [Object.setPrototypeOf] throws a TypeError before anything is
    changed. *)
Theorem wrap_refuses_cycle lt lw (h : heap) ob :
  h !! lw = Some ob → proto ob ≠ Some lt →
  on_chain h (Some lt) lw = Some true →
  wrap (VObj lt) (VObj lw) h = (Throw TypeError h, []).
Proof.
  intros Hl Hp Hc. unfold wrap, bind, setPrototypeOf. simpl.
  rewrite Hl. rewrite decide_False by done. by rewrite Hc.
Qed.

(** ** Further properties: HasInstance *)

(** On a function that has no [Symbol.hasInstance] method of its own,
    [HasInstance] works once: the method it defines is neither writable nor
    configurable, so that a second [HasInstance] on the same function throws
    a TypeError, having made one more closure and changed nothing else. *)
Theorem HasInstance_only_once T (h : heap) r h' t :
  hasOwnProperty T (Sym Symbol_hasInstance) h = Ok false →
  HasInstance true T h = (Ret r h', t) →
  ∃ lv2 ob2,
    h' !! lv2 = None ∧
    HasInstance true T h' = (Throw TypeError (<[lv2 := ob2]> h'), []).
Proof.
  intros Hown HH. unfold HasInstance in HH.
  apply bind_Ret in HH as (prior & h0 & t0 & t1 & (Hprior & -> & ->)%query_Ret & Hk & ->).
  apply bind_Ret in Hk as (value & h1 & t2 & t3 & Hnew & Hk & ->).
  apply bind_Ret in Hk as (d & h2 & t4 & t5 & Hdef & Hr & ->).
  unfold ret in Hr. injection Hr as <- <- <-.
  apply new_function_Ret in Hnew as (lv & -> & Hlv & -> & ->).
  destruct T as [| | | | |lt]; try done.
  unfold hasOwnProperty in Hown. destruct (h !! lt) as [ob|] eqn:Hlt; [|done].
  injection Hown as Hown. apply bool_decide_eq_false_1 in Hown.
  assert (Hnone : props ob !! Sym Symbol_hasInstance = None).
  { destruct (props ob !! Sym Symbol_hasInstance); [|done]. destruct Hown. eauto. }
  assert (lv ≠ lt) by (intros ->; congruence).
  unfold defineProperty in Hdef. rewrite lookup_insert_ne in Hdef by done.
  rewrite Hlt, Hnone in Hdef. injection Hdef as <- <-.
  set (obT := Obj (proto ob)
                  (<[Sym Symbol_hasInstance := Prop_ (VObj lv) false false]> (props ob))
                  (kind ob)).
  set (h' := <[lt := obT]> (<[lv := _]> h)).
  assert (HlT : h' !! lt = Some obT) by apply lookup_insert_eq.
  assert (Hget : Get (VObj lt) (Sym Symbol_hasInstance) h' = Ok (VObj lv)).
  { change (VObj lv) with (pvalue (Prop_ (VObj lv) false false)).
    eapply Get_own; [done|]. apply lookup_insert_eq. }
  destruct (new_function_run (CHasInstanceValue (VObj lv) (VObj lt)) h')
    as (lv2 & Hlv2 & Hnewf).
  exists lv2, (Obj (Some FunctionPrototype) ∅ (Fun (CHasInstanceValue (VObj lv) (VObj lt)))).
  split; [done|].
  assert (lv2 ≠ lt) by (intros ->; congruence).
  assert (Hdef : defineProperty (VObj lt) (Sym Symbol_hasInstance) (VObj lv2)
                   (<[lv2 := Obj (Some FunctionPrototype) ∅
                               (Fun (CHasInstanceValue (VObj lv) (VObj lt)))]> h')
                 = (Throw TypeError
                      (<[lv2 := Obj (Some FunctionPrototype) ∅
                                  (Fun (CHasInstanceValue (VObj lv) (VObj lt)))]> h'), [])).
  { unfold defineProperty. rewrite lookup_insert_ne by done. rewrite HlT. simpl.
    rewrite lookup_insert_eq. simpl. unfold strict_equal.
    rewrite bool_decide_eq_false_2; [done|].
    intros [= ->]. unfold h' in Hlv2. destruct (decide (lv2 = lt)); [done|].
    by rewrite lookup_insert_ne, lookup_insert_eq in Hlv2. }
  unfold HasInstance.
  rewrite (bind_run _ _ _ _ _ _ (query_run _ _ _ Hget)).
  rewrite (bind_run _ _ _ _ _ _ Hnewf).
  by rewrite (bind_run_Throw _ _ _ _ _ _ Hdef).
Qed.

(** ** Further properties: apply and the builder *)

Section MoreApply.
Variable user : nat → val → val → heap → outcome val.

Lemma call_not_callable n f this arg (h : heap) :
  code_of h f = None →
  (∀ l, f = VObj l → is_Some (h !! l)) →
  call user (S n) f this arg h = (Throw TypeError h, []).
Proof.
  intros Hc Hp. simpl. rewrite Hc. destruct f as [| | | | |l]; try done.
  by rewrite decide_True by eauto.
Qed.

(** Where [apply] fails.  A trait that is not a function cannot be called;
    a trait that returns nothing, or something whose [prototype] is not an
    object, cannot be marked.  In each case [apply] throws a TypeError, and
    what the trait has done before is not undone. *)
Theorem apply_failures n B T (h : heap) :
  (code_of h T = None → (∀ l, T = VObj l → is_Some (h !! l)) →
   apply user (S n) B T h = (Throw TypeError h, []))
  ∧ (∀ app hT tT,
      invoke user n T B h = (Ret app hT, tT) → nullish app = true →
      apply user n B T h = (Throw TypeError hT, tT))
  ∧ (∀ app hT tT surface u,
      invoke user n T B h = (Ret app hT, tT) →
      Get app (Str "prototype") hT = Ok surface → is_object surface = false →
      unwrap T hT = Ok u →
      apply user n B T h = (Throw TypeError hT, tT)).
Proof.
  split_and!.
  - intros Hc Hp. unfold apply, apply_body, invoke.
    by rewrite (bind_run_Throw _ _ _ _ _ _ (call_not_callable n T VUndef B h Hc Hp)).
  - intros app hT tT Hcall Hnull. unfold apply, apply_body.
    rewrite (bind_run _ _ _ _ _ _ Hcall).
    assert (Hget : query (Get app (Str "prototype")) hT = (Throw TypeError hT, [])).
    { unfold query, Get. by destruct app. }
    rewrite (bind_run_Throw _ _ _ _ _ _ Hget). by rewrite app_nil_r.
  - intros app hT tT surface u Hcall Hget Hobj Hu. unfold apply, apply_body.
    rewrite (bind_run _ _ _ _ _ _ Hcall).
    rewrite (bind_run _ _ _ _ _ _ (query_run _ _ _ Hget)).
    rewrite (bind_run _ _ _ _ _ _ (query_run _ _ _ Hu)).
    assert (Hset : Set_ surface (Sym _appliedTrait) u hT = (Throw TypeError hT, [])).
    { by destruct surface. }
    rewrite (bind_run_Throw _ _ _ _ _ _ Hset). by rewrite !app_nil_r.
Qed.

Lemma reduce_app (f : val → val → M val) l1 l2 acc (h : heap) :
  reduce f (l1 ++ l2) acc h = bind (reduce f l1 acc) (λ x, reduce f l2 x) h.
Proof.
  revert acc h. induction l1 as [|x l1 IH]; intros acc h; simpl.
  - by rewrite bind_ret_l.
  - rewrite bind_assoc. apply bind_ext. intros a h'. apply IH.
Qed.

(** The builder stops at the first trait that throws: the traits listed
    after it are not called, and the exception is the builder's. *)
Theorem expressing_stops_at_failure n builder ts1 T ts2 (h : heap) x h1 t1 e h2 t2 :
  expressing user n builder ts1 h = (Ret x h1, t1) →
  invoke user n T x h1 = (Throw e h2, t2) →
  expressing user n builder (ts1 ++ T :: ts2) h = (Throw e h2, t1 ++ t2).
Proof.
  unfold expressing. intros H1 HT.
  apply bind_Ret in H1 as (base & h0 & t0 & t3 & Hq & Hred & ->).
  rewrite (bind_run _ _ _ _ _ _ Hq). rewrite reduce_app.
  rewrite (bind_run _ _ _ _ _ _ Hred). simpl.
  rewrite (bind_run_Throw _ _ _ _ _ _ HT). by rewrite app_assoc.
Qed.

End MoreApply.

(** ** Further properties: subclasses of an application *)

Lemma subseteq_kept k (h h' : heap) : h ⊆ h' → kept k h h'.
Proof.
  intros Hs l ob Hl. exists ob. split_and!; try done. by eapply lookup_weaken.
Qed.

Lemma new_class_subseteq parent protoParent (h : heap) c h' t :
  new_class parent protoParent h = (Ret c h', t) → h ⊆ h'.
Proof.
  intros (lp & lc & ob & _ & _ & Hlp & Hlc & _ & _ & _ & _ & _ & _ & Hrest)%new_class_Ret.
  apply map_subseteq_spec. intros l x Hl.
  rewrite Hrest; [done|intros ->; congruence..].
Qed.

Lemma isTraitificationOf_not_own surface T (h : heap) :
  hasOwnProperty surface (Sym _appliedTrait) h = Ok false →
  isTraitificationOf surface T h = Ok false.
Proof. intros Hown. unfold isTraitificationOf. by rewrite (qbind_run _ _ _ _ Hown). Qed.

Section Subclass.
Variable user : nat → val → val → heap → outcome val.

(** [class C extends apply(B, T) {}]: the prototype of [C] inherits the
    marker without owning it, so it is not itself a traitification of [T],
    and yet every instance of [C] expresses [T]. *)
Theorem subclass_instance_expresses fuel B T (h : heap) app h1 t1 C h2 t2 i h3 t3 :
  apply user fuel B T h = (Ret app h1, t1) →
  Sample.class_extends app h1 = (Ret C h2, t2) →
  construct C h2 = (Ret i h3, t3) →
  expresses i T h3 = Ok true
  ∧ ∃ own, Get C (Str "prototype") h3 = Ok own ∧
           isTraitificationOf own T h3 = Ok false ∧
           getPrototypeOf i h3 = Ok own.
Proof.
  intros Ha Hc Hn.
  destruct (apply_marker _ _ _ _ _ _ _ _ Ha) as (surface & u & Hsurf & Hu & Hown & Hmark).
  destruct (hasOwnProperty_true _ _ _ Hown) as (q & obq & pm & -> & Hq & Hpm).
  unfold Sample.class_extends in Hc.
  assert (Hc' : match code_of h1 app with
                | Some CClass =>
                    (let* p := query (Get app (Str "prototype")) in
                     match p with
                     | VObj q => new_class (lookup_start app) (Some q)
                     | VNull => new_class (lookup_start app) None
                     | _ => throw TypeError
                     end) h1
                | _ => (Throw TypeError h1, [])
                end = (Ret C h2, t2)).
  { destruct app; try done. }
  clear Hc. rename Hc' into Hc.
  destruct (code_of h1 app) as [[]|] eqn:Hcode; try done.
  rewrite (bind_run _ _ _ _ _ _ (query_run _ _ _ Hsurf)) in Hc.
  destruct (new_class (lookup_start app) (Some q) h1) as [o tc] eqn:Hnc.
  injection Hc as -> <-.
  pose proof (new_class_subseteq _ _ _ _ _ _ Hnc) as Hsub12.
  destruct (new_class_Ret _ _ _ _ _ _ Hnc)
    as (lp & lc & obp & -> & -> & Hlp & Hlc & Hne & HC & HP & Hproto & Hkind & Hprops & Hrest).
  destruct (construct_Ret _ _ _ _ _ Hn) as (p & li & _ & Hp & Hli & -> & -> & ->).
  assert (HCp : Get (VObj lc) (Str "prototype") h2 = Ok (VObj lp)).
  { change (VObj lp) with (pvalue (Prop_ (VObj lp) false false)).
    eapply Get_own; [done|]. apply lookup_singleton_eq. }
  rewrite HCp in Hp. injection Hp as <-.
  set (h3 := <[li := Obj (Some lp) ∅ Plain]> h2).
  assert (Hsub23 : h2 ⊆ h3) by by apply insert_subseteq.
  assert (Hsub13 : h1 ⊆ h3) by by etrans.
  assert (Hi3 : h3 !! li = Some (Obj (Some lp) ∅ Plain)) by apply lookup_insert_eq.
  assert (Hp3 : h3 !! lp = Some obp) by by eapply lookup_weaken.
  assert (Hq3 : h3 !! q = Some obq) by by eapply lookup_weaken.
  assert (Hnot_p : isTraitificationOf (VObj lp) T h3 = Ok false).
  { apply isTraitificationOf_not_own. unfold hasOwnProperty. rewrite Hp3.
    rewrite Hprops by done. by rewrite bool_decide_eq_false_2 by by intros []. }
  split.
  - apply expresses_found with [VObj li; VObj lp] (VObj q).
    + apply surfaces_cons with (VObj lp); [done|by unfold getPrototypeOf; rewrite Hi3|].
      apply surfaces_cons with (VObj q);
        [done|by unfold getPrototypeOf; rewrite Hp3, Hproto|]. apply surfaces_nil.
    + repeat constructor; [|done].
      apply isTraitificationOf_not_own. unfold hasOwnProperty. rewrite Hi3. simpl.
      by rewrite bool_decide_eq_false_2 by by intros [].
    + rewrite (isTraitificationOf_marked (VObj q) T h3 u).
      * assert (Hu3 : unwrap T h3 = Ok u).
        { eapply unwrap_same_on; [|done]. eapply kept_same_on. by apply subseteq_kept. }
        rewrite (qbind_run _ _ _ _ Hu3). unfold qret, strict_equal.
        by rewrite bool_decide_eq_true_2.
      * unfold hasOwnProperty. rewrite Hq3, Hpm. by rewrite bool_decide_eq_true_2.
      * eapply Get_same_on; [|done]. eapply kept_same_on. by apply subseteq_kept.
  - exists (VObj lp). split_and!; [|done|by unfold getPrototypeOf; rewrite Hi3].
    eapply Get_same_on; [|done]. eapply kept_same_on. by apply subseteq_kept.
Qed.

End Subclass.

(** ** Further properties: the decorators together *)

Lemma subseteq_Get k (h h' : heap) v x : h ⊆ h' → Get v k h = Ok x → Get v k h' = Ok x.
Proof.
  intros Hs. eapply Get_same_on. eapply kept_same_on. by apply subseteq_kept.
Qed.

Lemma subseteq_code (h h' : heap) v c : h ⊆ h' → code_of h v = Some c → code_of h' v = Some c.
Proof. intros Hs. eapply kept_code. by apply (subseteq_kept (Str "")). Qed.

(** A decorator of the form [trait => wrap(trait, closure)]: the closure is
    a new function, and afterwards the trait and the closure read the same
    back-reference, the unwrapped trait. *)
Lemma decorate_identity c T (h : heap) W h0 t u :
  (let* wrapper := new_function c in wrap T wrapper) h = (Ret W h0, t) →
  unwrap T h = Ok u →
  truthy u = true ∧
  Get T (Sym _wrappedTrait) h0 = Ok u ∧ Get W (Sym _wrappedTrait) h0 = Ok u.
Proof.
  intros (w & h1 & t0 & t1 & Hn & Hw & ->)%bind_Ret Hu.
  apply new_function_Ret in Hn as (lw & -> & Hlw & -> & ->).
  destruct (wrap_Ret _ _ _ _ _ _ Hw) as (-> & _).
  destruct (wrap_Get _ _ _ _ _ _ Hw) as (u' & Htu & HT & HW & Hu' & _).
  { eexists _, _. split_and!; [done|apply lookup_insert_eq|done]. }
  assert (Hu1 : unwrap T (<[lw := Obj (Some FunctionPrototype) ∅ (Fun c)]> h) = Ok u).
  { eapply unwrap_same_on; [|done]. by apply same_on_insert_fresh. }
  rewrite Hu1 in Hu'. by injection Hu' as <-.
Qed.

(** Around a trait that already reads a back-reference, the decorator only
    adds its closure to the heap. *)
Lemma decorate_layer c T (h : heap) W h0 t u :
  (let* wrapper := new_function c in wrap T wrapper) h = (Ret W h0, t) →
  Get T (Sym _wrappedTrait) h = Ok u → truthy u = true →
  h ⊆ h0.
Proof.
  intros (w & h1 & t0 & t1 & Hn & Hw & ->)%bind_Ret Hu Htu.
  apply new_function_Ret in Hn as (lw & -> & Hlw & -> & ->).
  destruct (wrap_Ret _ _ _ _ _ _ Hw) as (-> & _ & hs & x & Hs & Hx & Hcase).
  assert (Hsub : h ⊆ hs).
  { destruct (setPrototypeOf_Ret _ _ _ _ _ _ Hs)
      as (_ & _ & [->|(l & ob & [= <-] & _ & _ & ->)]).
    - by apply insert_subseteq.
    - rewrite insert_insert_eq. by apply insert_subseteq. }
  rewrite (subseteq_Get _ _ _ _ _ Hsub Hu) in Hx. injection Hx as <-.
  destruct Hcase as [[_ ->]|[Hf _]]; [done|congruence].
Qed.

Lemma isTraitificationOf_marker surface x (h : heap) u :
  hasOwnProperty surface (Sym _appliedTrait) h = Ok true →
  Get surface (Sym _appliedTrait) h = Ok u →
  Get x (Sym _wrappedTrait) h = Ok u → truthy u = true →
  isTraitificationOf surface x h = Ok true.
Proof.
  intros Hown Hget Hx Htu. rewrite (isTraitificationOf_marked _ _ _ _ Hown Hget).
  rewrite (qbind_run _ _ _ _ (unwrap_truthy _ _ _ Hx Htu)).
  unfold qret, strict_equal. by rewrite bool_decide_eq_true_2.
Qed.

Section Decorators.
Variable user : nat → val → val → heap → outcome val.

(** One call of the closure of [BareTrait(T)], for a trait [T] that leaves
    the back-references of the heap alone. *)
Lemma BareTrait_call n bare T B id u (h1 : heap) app h2 t :
  code_of h1 bare = Some (CBareTraitWrapper T) → code_of h1 T = Some (CUser id) →
  (∀ this arg, frames (Sym _wrappedTrait) (λ h, (user id this arg h, []))) →
  Get T (Sym _wrappedTrait) h1 = Ok u → truthy u = true →
  invoke user (S (S n)) bare B h1 = (Ret app h2, t) →
  t = [Called bare B; Called T B] ∧ kept (Sym _wrappedTrait) h1 h2 ∧
  (∀ k, k ≠ Sym _appliedTrait →
        (∀ this arg, frames k (λ h, (user id this arg h, []))) → kept k h1 h2) ∧
  ∃ surface, Get app (Str "prototype") h2 = Ok surface ∧
             hasOwnProperty surface (Sym _appliedTrait) h2 = Ok true ∧
             Get surface (Sym _appliedTrait) h2 = Ok u.
Proof.
  intros Hcb HcT Hframes HT Htu Hcall.
  unfold invoke in Hcall. rewrite (call_code _ _ _ _ _ _ _ Hcb) in Hcall. simpl in Hcall.
  change (apply_body (invoke user (S n)) B T) with (apply user (S n) B T) in Hcall.
  destruct (apply user (S n) B T h1) as [o t'] eqn:Ha. injection Hcall as -> <-.
  destruct (apply_Ret _ _ _ _ _ _ _ _ Ha) as (hT & surface & u' & Hinv & Hs & Hu' & Hset).
  unfold invoke in Hinv. rewrite (call_user _ _ _ _ _ _ _ HcT) in Hinv.
  injection Hinv as Huser <-.
  assert (HkT : kept (Sym _wrappedTrait) h1 hT).
  { eapply (Hframes VUndef B h1); [done|]. by rewrite Huser. }
  assert (u' = u) as ->.
  { pose proof (Get_same_on _ _ _ _ _ (kept_same_on _ _ _ HkT) HT) as HT'.
    rewrite (unwrap_truthy _ _ _ HT' Htu) in Hu'. by injection Hu'. }
  split; [done|]. split; [|split].
  - eapply kept_trans; [done|].
    eapply (frames_Set (Sym _wrappedTrait) surface (Sym _appliedTrait) u); [done|done|done].
  - intros k Hk Hfk. eapply kept_trans.
    + eapply (Hfk VUndef B h1); [done|]. by rewrite Huser.
    + eapply (frames_Set k surface (Sym _appliedTrait) u); [done|done|done].
  - exists surface. split_and!.
    + eapply Get_same_on; [|done]. by eapply Set_same_on.
    + by eapply Set_hasOwnProperty.
    + by eapply Set_Get.
Qed.

(** The class that [BareTrait(T)] makes of a base is recognised as an
    application of the decorated trait and of [T] itself, and [T] has run
    once for it. *)
Theorem BareTrait_application_recognised n T id B (h : heap) u bare h0 t0 app h1 t1 :
  unwrap T h = Ok u → code_of h T = Some (CUser id) →
  (∀ this arg, frames (Sym _wrappedTrait) (λ h, (user id this arg h, []))) →
  BareTrait T h = (Ret bare h0, t0) →
  invoke user (S (S n)) bare B h0 = (Ret app h1, t1) →
  t1 = [Called bare B; Called T B] ∧
  ∃ surface, Get app (Str "prototype") h1 = Ok surface ∧
             isTraitificationOf surface bare h1 = Ok true ∧
             isTraitificationOf surface T h1 = Ok true.
Proof.
  intros Hu HcT Hframes Hb Hcall. unfold BareTrait in Hb.
  destruct (decorate_Ret _ _ _ _ _ _ Hb) as (Hcb & _ & _ & Hcodes & _).
  destruct (decorate_identity _ _ _ _ _ _ _ Hb Hu) as (Htu & HT & Hbare).
  destruct (BareTrait_call _ _ _ _ _ _ _ _ _ _ Hcb (Hcodes _ _ HcT) Hframes HT Htu Hcall)
    as (-> & Hk & _ & surface & Hs & Hown & Hmark).
  split; [done|]. exists surface. split; [done|].
  split; eapply isTraitificationOf_marker; try done;
    (eapply Get_same_on; [by apply kept_same_on|done]).
Qed.

(** [Dedupe(BareTrait(T))] applied to what it has returned: the first call
    on a base that does not express the trait runs [T] once; the call on
    its result returns that result and runs nothing, so that [T(T(B))]
    applies the trait once. *)
Theorem Dedupe_BareTrait_applies_once n T id B (h : heap) u bare hb tb D h0 t0 s C1 h1 t1 :
  unwrap T h = Ok u → code_of h T = Some (CUser id) →
  (∀ this arg, frames (Sym _wrappedTrait) (λ h, (user id this arg h, []))) →
  BareTrait T h = (Ret bare hb, tb) → Dedupe bare hb = (Ret D h0, t0) →
  Get B (Str "prototype") h0 = Ok s → expresses s bare h0 = Ok false →
  invoke user (S (S (S n))) D B h0 = (Ret C1 h1, t1) →
  t1 = [Called D B; Called bare B; Called T B] ∧
  invoke user (S (S (S n))) D C1 h1 = (Ret C1 h1, [Called D C1]) ∧
  invocations T (t1 ++ [Called D C1]) = 1.
Proof.
  intros Hu HcT Hframes Hb Hd Hs Hnot Hcall. unfold BareTrait in Hb. unfold Dedupe in Hd.
  destruct (decorate_Ret _ _ _ _ _ _ Hb) as (Hcb & _ & HbT & Hcodes & lb & -> & Hlb).
  destruct (decorate_identity _ _ _ _ _ _ _ Hb Hu) as (Htu & HT & Hbare).
  destruct (decorate_Ret _ _ _ _ _ _ Hd) as (HcD & _ & HDb & Hcodes' & lD & -> & HlD).
  pose proof (decorate_layer _ _ _ _ _ _ _ Hd Hbare Htu) as Hsub.
  assert (HDT : VObj lD ≠ T).
  { intros <-. apply Hcodes in HcT. unfold code_of in HcT. by rewrite HlD in HcT. }
  unfold invoke in Hcall. rewrite (call_code _ _ _ _ _ _ _ HcD) in Hcall. simpl in Hcall.
  unfold Dedupe_body in Hcall.
  rewrite (bind_run _ _ _ _ _ _ (query_run _ _ _ Hs)) in Hcall.
  rewrite (bind_run _ _ _ _ _ _ (query_run _ _ _ Hnot)) in Hcall.
  destruct (invoke user (S (S n)) (VObj lb) B h0) as [o t'] eqn:Hinner.
  simpl in Hcall. injection Hcall as -> <-.
  destruct (BareTrait_call _ _ _ _ _ _ _ _ _ _
              (subseteq_code _ _ _ _ Hsub Hcb) (Hcodes' _ _ (Hcodes _ _ HcT)) Hframes
              (subseteq_Get _ _ _ _ _ Hsub HT) Htu Hinner)
    as (-> & Hk & _ & surface & Hsurf & Hown & Hmark).
  split; [done|].
  assert (Hexp : expresses surface (VObj lb) h1 = Ok true).
  { apply expresses_found with [] surface; [apply surfaces_nil|constructor|].
    eapply isTraitificationOf_marker; try done.
    eapply Get_same_on; [by apply kept_same_on|]. by eapply subseteq_Get. }
  split.
  - unfold invoke.
    rewrite (call_code _ _ _ _ _ _ (CDedupeWrapper (VObj lb))); [|by eapply kept_code].
    simpl. unfold Dedupe_body.
    rewrite (bind_run _ _ _ _ _ _ (query_run _ _ _ Hsurf)).
    by rewrite (bind_run _ _ _ _ _ _ (query_run _ _ _ Hexp)).
  - simpl. rewrite !invocations_cons. rewrite !decide_False by done.
    by rewrite decide_True.
Qed.

End Decorators.

(** ** Further properties: Trait *)

Lemma HasInstance_kept sym T (h : heap) r h' t k :
  HasInstance sym T h = (Ret r h', t) → k ≠ Sym Symbol_hasInstance → kept k h h'.
Proof.
  destruct sym.
  - intros (_ & _ & prior & lv & lt & ob & p & -> & _ & Hlv & Hlt & Hne & _ & ->)
      %HasInstance_Ret Hk.
    intros l ob0 Hl. destruct (decide (l = lt)) as [->|Hl'].
    + rewrite Hlt in Hl. injection Hl as <-. eexists. rewrite lookup_insert_eq.
      split_and!; try done. simpl. by rewrite lookup_insert_ne.
    + exists ob0. rewrite lookup_insert_ne by done.
      rewrite lookup_insert_ne by (intros ->; congruence). done.
  - intros [= _ <- _] _. apply kept_refl.
Qed.

Lemma decorate_proto c T (h : heap) W h0 t :
  (let* wrapper := new_function c in wrap T wrapper) h = (Ret W h0, t) →
  getPrototypeOf W h0 = Ok T.
Proof.
  intros (w & h1 & t0 & t1 & Hn & Hw & ->)%bind_Ret.
  apply new_function_Ret in Hn as (lw & -> & Hlw & -> & ->).
  destruct (wrap_Ret _ _ _ _ _ _ Hw) as (-> & _).
  destruct (wrap_wrapper_proto _ _ _ _ _ _ Hw) as (lt & ob' & -> & Hl & Hp).
  unfold getPrototypeOf. by rewrite Hl, Hp.
Qed.

Lemma kept_getPrototypeOf k (h h' : heap) v p :
  kept k h h' → getPrototypeOf v h = Ok p → getPrototypeOf v h' = Ok p.
Proof.
  intros Hk. unfold getPrototypeOf. destruct v as [| | | | |l]; try done.
  destruct (h !! l) as [ob|] eqn:Hl; [|done].
  destruct (Hk _ _ Hl) as (ob' & -> & -> & _). done.
Qed.

(** [Trait(T)] is a new function on top of three more: its prototype chain
    runs through the closures of [Dedupe], [Cached] and [BareTrait] to [T],
    and it unwraps to what [T] unwraps to, as [T] still does. *)
Theorem Trait_identity sym T (h : heap) u W h' t :
  unwrap T h = Ok u → Trait sym T h = (Ret W h', t) →
  W ≠ T ∧ unwrap W h' = Ok u ∧ unwrap T h' = Ok u ∧
  ∃ cached bare,
    getPrototypeOf W h' = Ok cached ∧ getPrototypeOf cached h' = Ok bare ∧
    getPrototypeOf bare h' = Ok T ∧
    code_of h' W = Some (CDedupeWrapper cached) ∧
    code_of h' cached = Some (CCachedWrapper bare) ∧
    code_of h' bare = Some (CBareTraitWrapper T).
Proof.
  intros Hu HT. unfold Trait in HT.
  apply bind_Ret in HT as (bare & h1 & t0 & t1 & Hb & Hk & ->).
  apply bind_Ret in Hk as (cached & h2 & t2 & t3 & Hc & Hk & ->).
  apply bind_Ret in Hk as (deduped & h3 & t4 & t5 & Hd & Hh & ->).
  unfold BareTrait in Hb. unfold Cached in Hc. unfold Dedupe in Hd.
  destruct (decorate_identity _ _ _ _ _ _ _ Hb Hu) as (Htu & HT1 & Hb1).
  destruct (decorate_identity _ _ _ _ _ _ _ Hc (unwrap_truthy _ _ _ Hb1 Htu))
    as (_ & Hb2 & Hc2).
  destruct (decorate_identity _ _ _ _ _ _ _ Hd (unwrap_truthy _ _ _ Hc2 Htu))
    as (_ & Hc3 & Hd3).
  pose proof (decorate_layer _ _ _ _ _ _ _ Hc Hb1 Htu) as Hs12.
  pose proof (decorate_layer _ _ _ _ _ _ _ Hd Hc2 Htu) as Hs23.
  destruct (decorate_Ret _ _ _ _ _ _ Hb) as (Hcb & _ & _ & _ & lb & -> & Hlb).
  destruct (decorate_Ret _ _ _ _ _ _ Hc) as (Hcc & _ & _ & _ & lc & -> & Hlc).
  destruct (decorate_Ret _ _ _ _ _ _ Hd) as (Hcd & _ & _ & _ & ld & -> & Hld).
  destruct (HasInstance_code _ _ _ _ _ _ Hh) as (-> & Hcode).
  assert (Hk : kept (Sym _wrappedTrait) h3 h') by by eapply HasInstance_kept.
  assert (Hs13 : h1 ⊆ h3) by by etrans.
  assert (HT3 : Get T (Sym _wrappedTrait) h3 = Ok u) by by eapply subseteq_Get.
  split_and!.
  - intros <-. apply Get_Ok_object in HT1 as [ob Hob].
    pose proof (lookup_weaken _ _ _ _ Hob Hs12) as Hob2. congruence.
  - apply unwrap_truthy; [|done]. eapply Get_same_on; [by apply kept_same_on|done].
  - apply unwrap_truthy; [|done]. eapply Get_same_on; [by apply kept_same_on|done].
  - exists (VObj lc), (VObj lb). split_and!.
    + eapply kept_getPrototypeOf; [done|]. by eapply decorate_proto.
    + eapply kept_getPrototypeOf; [done|].
      eapply kept_getPrototypeOf; [exact (subseteq_kept (Str "") _ _ Hs23)|].
      by eapply decorate_proto.
    + eapply kept_getPrototypeOf; [done|].
      eapply kept_getPrototypeOf; [exact (subseteq_kept (Str "") _ _ Hs13)|].
      by eapply decorate_proto.
    + by rewrite Hcode.
    + eapply kept_code; [done|]. exact (subseteq_code _ _ _ _ Hs23 Hcc).
    + eapply kept_code; [done|]. exact (subseteq_code _ _ _ _ Hs13 Hcb).
Qed.

(** ** Further properties: HasInstance and the ordinary check *)

Section MoreHasInstance.
Variable user : nat → val → val → heap → outcome val.

(** The built-in [Function.prototype[Symbol.hasInstance]] called as a bare
    function, without a receiver, answers false. *)
Lemma bare_builtin_hasInstance n v (h : heap) :
  code_of h (VObj FunctionPrototype_hasInstance) = Some CFunctionHasInstance →
  invoke user (S n) (VObj FunctionPrototype_hasInstance) v h
  = (Ret (VBool false) h, [Called (VObj FunctionPrototype_hasInstance) v]).
Proof.
  intros Hc. unfold invoke. rewrite (call_code _ _ _ _ _ _ _ Hc). done.
Qed.

(** The type check through the closure of [HasInstance] when the method
    it calls first is the built-in one. *)
Lemma instanceof_closure n v lt handler (h1 : heap) :
  Get (VObj lt) (Sym Symbol_hasInstance) h1 = Ok handler →
  code_of h1 handler
  = Some (CHasInstanceValue (VObj FunctionPrototype_hasInstance) (VObj lt)) →
  code_of h1 (VObj FunctionPrototype_hasInstance) = Some CFunctionHasInstance →
  instanceof user (S (S n)) v (VObj lt) h1
  = (outcome_of_query (expresses v (VObj lt) h1) h1,
     [Called handler v; Called (VObj FunctionPrototype_hasInstance) v]).
Proof.
  intros Hhandler Hcv Hcb.
  rewrite (instanceof_handler _ _ _ _ _ _ Hhandler).
  2:{ apply code_of_Some in Hcv as (? & ? & ? & -> & _). done. }
  unfold bind at 1. rewrite (call_code _ _ _ _ _ _ _ Hcv). simpl.
  unfold HasInstance_value.
  rewrite (bind_run _ _ _ _ _ _ (bare_builtin_hasInstance _ _ _ Hcb)). simpl.
  unfold bind, query. by destruct (expresses v (VObj lt) h1).
Qed.

(** On a function whose [Symbol.hasInstance] was the built-in one,
    [HasInstance] replaces the ordinary check rather than adding to it: the
    closure calls the built-in method without a receiver, which answers
    false, so that [v instanceof T] is [expresses(v, T)] and nothing else. *)
Theorem HasInstance_replaces_ordinary_check T (h : heap) r h' t (h1 : heap) :
  HasInstance true T h = (Ret r h', t) →
  Get T (Sym Symbol_hasInstance) h = Ok (VObj FunctionPrototype_hasInstance) →
  code_of h (VObj FunctionPrototype_hasInstance) = Some CFunctionHasInstance →
  kept (Sym Symbol_hasInstance) h' h1 →
  ∃ handler,
    Get T (Sym Symbol_hasInstance) h1 = Ok handler ∧
    ∀ n v, instanceof user (S (S n)) v T h1
           = (outcome_of_query (expresses v T h1) h1,
              [Called handler v; Called (VObj FunctionPrototype_hasInstance) v]).
Proof.
  intros HH Hprior Hbuiltin Hk1.
  pose proof (HasInstance_kept _ _ _ _ _ _ (Str "") HH) as Hk0.
  destruct (HasInstance_Ret _ _ _ _ _ HH)
    as (_ & _ & prior & lv & lt & ob & p & -> & Hprior' & Hlv & Hlt & Hne & Hp & ->).
  rewrite Hprior in Hprior'. injection Hprior' as <-.
  set (h' := <[lt := _]> (<[lv := _]> h)) in *.
  assert (Hlt' : h' !! lt = Some (Obj (proto ob) (<[Sym Symbol_hasInstance := p]> (props ob))
                                      (kind ob))) by apply lookup_insert_eq.
  destruct (Hk1 _ _ Hlt') as (obT & HltT & _ & _ & Hprop). simpl in Hprop.
  rewrite lookup_insert_eq in Hprop.
  assert (Hhandler : Get (VObj lt) (Sym Symbol_hasInstance) h1 = Ok (VObj lv)).
  { rewrite <- Hp. by eapply Get_own. }
  assert (Hcv : code_of h1 (VObj lv)
                = Some (CHasInstanceValue (VObj FunctionPrototype_hasInstance) (VObj lt))).
  { eapply kept_code; [done|]. unfold h'.
    rewrite code_of_insert_ne by congruence. apply code_of_insert. }
  assert (Hcb : code_of h1 (VObj FunctionPrototype_hasInstance) = Some CFunctionHasInstance).
  { eapply kept_code; [done|]. eapply kept_code; [|done]. by apply Hk0. }
  exists (VObj lv). split; [done|]. intros n v.
  by apply instanceof_closure.
Qed.

End MoreHasInstance.

(** ** Further properties: the cache of Cached *)

Lemma find_prop_insert_off_chain (h : heap) o target ob' k r :
  on_chain h o target = Some false →
  find_prop h o k = Some r → find_prop (<[target := ob']> h) o k = Some r.
Proof.
  intros (L & HL & Hnot)%on_chain_false Hf.
  destruct (path_restop _ (λ _ ob, props ob !! k) _ _ _ HL) as (L' & r' & HL' & Hsub).
  assert (r = r') as ->.
  { assert (find_prop h o k = Some r') by (apply find_prop_path; eauto). congruence. }
  apply find_prop_path. exists L'. eapply path_agree; [done|].
  intros l ob Hin Hl. exists ob. split_and!; try done.
  rewrite lookup_insert_ne; [done|]. intros ->. by apply Hnot, Hsub.
Qed.

Lemma Get_insert_off_chain (h : heap) v target ob' k x :
  on_chain h (lookup_start v) target = Some false →
  Get v k h = Ok x → Get v k (<[target := ob']> h) = Ok x.
Proof.
  intros Hoff. unfold Get. destruct (lookup_start v) as [l|]; [|done].
  destruct (find_prop h (Some l) k) as [r|] eqn:Hf; [|done].
  by rewrite (find_prop_insert_off_chain _ _ _ ob' _ _ Hoff Hf).
Qed.

Section MoreCached.
Variable user : nat → val → val → heap → outcome val.

(** A hit is whatever the property read finds: when [B[_cachedApplications]]
    reads a cache that holds a class for the trait, on [B] itself or on
    anything [B] inherits from, the closure of [Cached] returns that class,
    changes nothing and does not call the trait. *)
Theorem Cached_returns_what_it_reads n W T B (h : heap) m c :
  code_of h W = Some (CCachedWrapper T) →
  Get B (Sym _cachedApplications) h = Ok m → truthy m = true →
  Map_get m T h = Ok c → truthy c = true →
  invoke user (S n) W B h = (Ret c h, [Called W B]).
Proof.
  intros Hc Hm Htm Hget Htc. unfold invoke. rewrite (call_code _ _ _ _ _ _ _ Hc). simpl.
  by rewrite (Cached_body_hit _ _ _ _ m h c (cachedApplications_of_found _ _ _ Hm Htm) Hget Htc).
Qed.

(** A base that sees no cache and does not inherit from [B1] still sees
    none after the trait has been applied to [B1]; and when [B1] saw no
    cache either, the cache is then an own property of [B1] and holds the
    class made for it. *)
Theorem Cached_leaves_unrelated_bases n W T id lb1 B2 (h : heap) x app h1 t1 :
  code_of h W = Some (CCachedWrapper T) → code_of h T = Some (CUser id) →
  (∀ this arg, frames (Sym _cachedApplications) (λ h, (user id this arg h, []))) →
  on_chain h (lookup_start B2) lb1 = Some false →
  Get B2 (Sym _cachedApplications) h = Ok x → truthy x = false →
  invoke user (S (S n)) W (VObj lb1) h = (Ret app h1, t1) →
  Get B2 (Sym _cachedApplications) h1 = Ok x
  ∧ cached_application B2 T h1 = Ok VUndef
  ∧ (∀ y, Get (VObj lb1) (Sym _cachedApplications) h = Ok y → truthy y = false →
          hasOwnProperty (VObj lb1) (Sym _cachedApplications) h1 = Ok true
          ∧ cached_application (VObj lb1) T h1 = Ok app
          ∧ t1 = [Called W (VObj lb1); Called T (VObj lb1)]).
Proof.
  intros HcW HcT Hframes Hoff Hx Htx Hcall.
  unfold invoke in Hcall. rewrite (call_code _ _ _ _ _ _ _ HcW) in Hcall. simpl in Hcall.
  destruct (Cached_body (invoke user (S n)) T (VObj lb1) h) as [o t'] eqn:Hbody.
  injection Hcall as -> <-.
  destruct (Cached_body_Ret _ _ _ _ _ _ _ Hbody) as (m & hm & c & Hm & Hc & Hcase).
  destruct (cachedApplications_of_slot _ _ _ _ _ Hm) as (Hslot & Htm & Hcodes).
  destruct (cachedApplications_of_Ret _ _ _ _ _ Hm) as (_ & Hcreate).
  (* what [B2] reads once the cache of [B1] is there *)
  assert (Hxm : Get B2 (Sym _cachedApplications) hm = Ok x).
  { destruct Hcreate as [(_ & _ & ->)|(found & lm & lb & ob & _ & _ & -> & Hlm & [= <-] & Hlb & ->)];
      [done|].
    rewrite insert_insert_ne by (intros ->; congruence).
    eapply Get_same_on.
    { apply same_on_insert_fresh. rewrite lookup_insert_ne; [done|]. intros ->. congruence. }
    by apply Get_insert_off_chain. }
  (* the cache of [B1] after the body and the update of the map *)
  assert (Hafter : same_on (Sym _cachedApplications) hm h1
                   ∧ (truthy c = false →
                      Map_get m T h1 = Ok app ∧ t' = [Called T (VObj lb1)])).
  { destruct Hcase as [(Htc & -> & -> & ->)|(Htc & hT & HT & Hset)].
    - split; [apply same_on_refl|congruence].
    - unfold invoke in HT. rewrite (call_user _ _ _ _ _ _ id) in HT by by rewrite Hcodes.
      injection HT as Huser <-.
      assert (Hk : kept (Sym _cachedApplications) hm hT).
      { eapply (Hframes VUndef (VObj lb1) hm); [done|]. by rewrite Huser. }
      split.
      + eapply same_on_trans; [by apply kept_same_on|]. by eapply Map_set_same_on.
      + intros _. split; [|done]. by eapply Map_set_get. }
  destruct Hafter as [Hsame Hmiss].
  assert (Hx1 : Get B2 (Sym _cachedApplications) h1 = Ok x) by by eapply Get_same_on.
  split_and!; [done| |].
  - unfold cached_application. rewrite (qbind_run _ _ _ _ Hx1). by rewrite Htx.
  - intros y Hy Hty.
    destruct Hcreate as [(Hfound & Htf & _)|(found & lm & lb & ob & _ & _ & -> & Hlm & [= <-] & Hlb & ->)].
    { rewrite Hy in Hfound. injection Hfound as ->. congruence. }
    assert (Hc0 : truthy c = false).
    { unfold Map_get in Hc. rewrite lookup_insert_ne in Hc by (intros ->; congruence).
      rewrite lookup_insert_eq in Hc. by injection Hc as <-. }
    destruct (Hmiss Hc0) as [Hget ->].
    set (hm := <[lb1 := _]> (<[lm := _]> h)) in *.
    assert (Hown : hm !! lb1 = Some (write_own (Sym _cachedApplications) (VObj lm) ob))
      by apply lookup_insert_eq.
    destruct (Hsame _ _ Hown) as (ob1 & Hl1 & _ & Hprops).
    split_and!; [|
      unfold cached_application;
      rewrite (qbind_run _ _ _ _ (Get_same_on _ _ _ _ _ Hsame Hslot)); by rewrite Htm
      |done].
    unfold hasOwnProperty. rewrite Hl1, Hprops.
    destruct (write_own_lookup (Sym _cachedApplications) (VObj lm) ob) as (p & -> & _).
    by rewrite bool_decide_eq_true_2.
Qed.

End MoreCached.

(** ** Further properties: Trait from end to end *)

Lemma carried_refl (h : heap) : carried h h.
Proof. split_and!; [apply same_on_refl..|done]. Qed.

Lemma carried_trans (h1 h2 h3 : heap) : carried h1 h2 → carried h2 h3 → carried h1 h3.
Proof.
  intros (Ha & Hb & Hc) (Ha' & Hb' & Hc').
  split_and!; [by eapply same_on_trans..|eauto].
Qed.

Lemma kept_carried (h h' : heap) :
  kept (Sym _wrappedTrait) h h' → kept (Sym Symbol_hasInstance) h h' → carried h h'.
Proof.
  intros Ha Hb. split_and!; [by apply kept_same_on..|].
  intros v c. by apply (kept_code (Sym _wrappedTrait)).
Qed.

Lemma subseteq_carried (h h' : heap) : h ⊆ h' → carried h h'.
Proof. intros Hs. apply kept_carried; by apply subseteq_kept. Qed.

Lemma Map_set_carried m k v (h : heap) u h' t :
  Map_set m k v h = (Ret u h', t) → carried h h'.
Proof.
  intros Hs. split_and!; [by eapply Map_set_same_on..|].
  intros x c. by rewrite (Map_set_code _ _ _ _ _ _ _ x Hs).
Qed.

Lemma hasOwnProperty_same_on k (h h' : heap) v b :
  same_on k h h' → hasOwnProperty v k h = Ok b → hasOwnProperty v k h' = Ok b.
Proof.
  intros Hs. unfold hasOwnProperty. destruct v as [| | | | |l]; try done.
  destruct (h !! l) as [ob|] eqn:Hl; [|done].
  destruct (Hs _ _ Hl) as (ob' & -> & _ & ->). done.
Qed.

Lemma decorate_kept c T (h : heap) W h0 t k :
  (let* wrapper := new_function c in wrap T wrapper) h = (Ret W h0, t) →
  k ≠ Sym _wrappedTrait → kept k h h0.
Proof.
  intros (w & h1 & t0 & t1 & Hn & Hw & ->)%bind_Ret Hk.
  apply new_function_Ret in Hn as (lw & -> & Hlw & -> & ->).
  intros l ob Hl.
  assert (l ≠ lw) by (intros ->; congruence).
  destruct (wrap_objects _ _ _ _ _ _ l ob Hw) as (ob' & Hl' & Hkind & Hprops & _ & Hproto).
  { by rewrite lookup_insert_ne. }
  exists ob'. split_and!; [done|apply Hproto; congruence|done|by apply Hprops].
Qed.

Lemma decorate_delegates c T (h : heap) W h0 t k :
  (let* wrapper := new_function c in wrap T wrapper) h = (Ret W h0, t) →
  Get W k h0 = Get T k h0.
Proof.
  intros (w & h1 & t0 & t1 & Hn & Hw & ->)%bind_Ret.
  apply new_function_Ret in Hn as (lw & -> & Hlw & -> & ->).
  destruct (wrap_Ret _ _ _ _ _ _ Hw) as (-> & _).
  destruct (wrap_wrapper_proto _ _ _ _ _ _ Hw) as (lt & ob' & -> & Hl & Hp).
  destruct (wrap_objects _ _ _ _ _ _ lw _ Hw (lookup_insert_eq _ _ _))
    as (ob2 & Hl2 & _ & _ & Hprops & _).
  rewrite Hl in Hl2. injection Hl2 as <-.
  rewrite (Get_inherit _ _ _ k Hl), Hp; [done|].
  rewrite Hprops; [done|].
  eapply wrap_wrapper_ne; [done|].
  eexists _, _. split_and!; [done|apply lookup_insert_eq|done].
Qed.

Lemma cachedApplications_of_frames k B :
  k ≠ Sym _cachedApplications → frames k (cachedApplications_of B).
Proof.
  intros Hk. unfold cachedApplications_of.
  apply frames_bind; [apply frames_query|]. intros found.
  destruct (negb (truthy found)); [|apply frames_ret].
  apply frames_bind.
  - unfold new_Map. apply frames_bind; [apply frames_alloc|]. intros l. apply frames_ret.
  - intros m. apply frames_bind; [by apply frames_Set|]. intros _. apply frames_ret.
Qed.

Lemma isTraitificationOf_same_unwrap surface x y (h : heap) :
  unwrap x h = unwrap y h → isTraitificationOf surface x h = isTraitificationOf surface y h.
Proof.
  intros Hxy. unfold isTraitificationOf, qbind. destruct (hasOwnProperty _ _ h) as [[]| |]; try done.
  destruct (Get surface _ h); try done. by rewrite Hxy.
Qed.

Lemma expresses_same_unwrap v x y (h : heap) :
  unwrap x h = unwrap y h → expresses v x h = expresses v y h.
Proof.
  intros Hxy. unfold expresses. generalize (walk_fuel h) as n. intros n. revert v.
  induction n as [|n IH]; intros v; simpl; [done|].
  destruct (nullish v); [done|]. unfold qbind.
  rewrite (isTraitificationOf_same_unwrap v x y h Hxy).
  destruct (isTraitificationOf v y h) as [[]| |]; try done.
  destruct (getPrototypeOf v h); done.
Qed.

Lemma decorate_shape c T (h : heap) W h0 t :
  (let* wrapper := new_function c in wrap T wrapper) h = (Ret W h0, t) →
  ∃ lw lt ob', W = VObj lw ∧ T = VObj lt ∧ h !! lw = None ∧
               h0 !! lw = Some ob' ∧ proto ob' = Some lt ∧ props ob' = ∅.
Proof.
  intros (w & h1 & t0 & t1 & Hn & Hw & ->)%bind_Ret.
  apply new_function_Ret in Hn as (lw & -> & Hlw & -> & ->).
  destruct (wrap_Ret _ _ _ _ _ _ Hw) as (-> & _).
  destruct (wrap_wrapper_proto _ _ _ _ _ _ Hw) as (lt & ob' & -> & Hl & Hp).
  destruct (wrap_objects _ _ _ _ _ _ lw _ Hw (lookup_insert_eq _ _ _))
    as (ob2 & Hl2 & _ & _ & Hprops & _).
  rewrite Hl in Hl2. injection Hl2 as <-.
  exists lw, lt, ob'. split_and!; try done.
  rewrite Hprops; [done|].
  eapply wrap_wrapper_ne; [done|].
  eexists _, _. split_and!; [done|apply lookup_insert_eq|done].
Qed.

Lemma Get_through (h : heap) l ob q k :
  h !! l = Some ob → proto ob = Some q → props ob = ∅ →
  Get (VObj l) k h = Get (VObj q) k h.
Proof.
  intros Hl Hp He. rewrite (Get_inherit _ _ _ k Hl); [by rewrite Hp|].
  rewrite He. apply lookup_empty.
Qed.

(** The four layers of [Trait(T)], before [HasInstance] puts its method on
    the outermost one. *)
Lemma Trait_layers T (h : heap) u W h0 t :
  unwrap T h = Ok u → Trait true T h = (Ret W h0, t) →
  ∃ lb lc ld h3,
    W = VObj ld ∧ truthy u = true ∧
    HasInstance true (VObj ld) h3 = (Ret (VObj ld) h0, []) ∧ t = [] ∧
    (∀ k, k ≠ Sym _wrappedTrait → kept k h h3) ∧
    (h !! lb = None ∧ h !! lc = None ∧ h !! ld = None) ∧
    (code_of h3 (VObj ld) = Some (CDedupeWrapper (VObj lc)) ∧
     code_of h3 (VObj lc) = Some (CCachedWrapper (VObj lb)) ∧
     code_of h3 (VObj lb) = Some (CBareTraitWrapper T)) ∧
    (Get T (Sym _wrappedTrait) h3 = Ok u ∧ Get (VObj lb) (Sym _wrappedTrait) h3 = Ok u ∧
     Get (VObj lc) (Sym _wrappedTrait) h3 = Ok u ∧
     Get (VObj ld) (Sym _wrappedTrait) h3 = Ok u) ∧
    (∀ k, Get (VObj ld) k h3 = Get T k h3).
Proof.
  intros Hu HT. unfold Trait in HT.
  apply bind_Ret in HT as (bare & h1 & t0 & t1 & Hb & Hk & ->).
  apply bind_Ret in Hk as (cached & h2 & t2 & t3 & Hc & Hk & ->).
  apply bind_Ret in Hk as (deduped & h3 & t4 & t5 & Hd & Hh & ->).
  unfold BareTrait in Hb. unfold Cached in Hc. unfold Dedupe in Hd.
  destruct (decorate_identity _ _ _ _ _ _ _ Hb Hu) as (Htu & HT1 & Hb1).
  destruct (decorate_identity _ _ _ _ _ _ _ Hc (unwrap_truthy _ _ _ Hb1 Htu))
    as (_ & Hb2 & Hc2).
  destruct (decorate_identity _ _ _ _ _ _ _ Hd (unwrap_truthy _ _ _ Hc2 Htu))
    as (_ & Hc3 & Hd3).
  pose proof (decorate_layer _ _ _ _ _ _ _ Hc Hb1 Htu) as Hs12.
  pose proof (decorate_layer _ _ _ _ _ _ _ Hd Hc2 Htu) as Hs23.
  assert (Hs13 : h1 ⊆ h3) by by etrans.
  destruct (decorate_Ret _ _ _ _ _ _ Hb) as (Hcb & -> & _ & _ & _).
  destruct (decorate_Ret _ _ _ _ _ _ Hc) as (Hcc & -> & _ & _ & _).
  destruct (decorate_Ret _ _ _ _ _ _ Hd) as (Hcd & -> & _ & _ & _).
  destruct (decorate_shape _ _ _ _ _ _ Hb) as (lb & lt & ob_b & -> & -> & Hlb & Hob_b & Hpb & Heb).
  destruct (decorate_shape _ _ _ _ _ _ Hc) as (lc & ? & ob_c & -> & [= <-] & Hlc & Hob_c & Hpc & Hec).
  destruct (decorate_shape _ _ _ _ _ _ Hd) as (ld & ? & ob_d & -> & [= <-] & Hld & Hob_d & Hpd & Hed).
  destruct (HasInstance_Ret _ _ _ _ _ Hh) as (-> & -> & _).
  assert (Hk01 : ∀ k, k ≠ Sym _wrappedTrait → kept k h h1)
    by (intros k Hk; by eapply decorate_kept).
  assert (Hin1 : ∀ l, h1 !! l = None → h !! l = None).
  { intros l Hl. destruct (h !! l) as [ob|] eqn:Hl0; [|done].
    destruct (Hk01 (Str "") ltac:(done) _ _ Hl0) as (? & ? & _). congruence. }
  exists lb, lc, ld, h3. split_and!; try done.
  - intros k Hk. eapply kept_trans; [by apply Hk01|]. by apply subseteq_kept.
  - apply Hin1. by eapply lookup_weaken_None.
  - apply Hin1. eapply lookup_weaken_None; [done|]. done.
  - exact (subseteq_code _ _ _ _ Hs23 Hcc).
  - exact (subseteq_code _ _ _ _ Hs13 Hcb).
  - by eapply subseteq_Get.
  - by eapply subseteq_Get.
  - intros k.
    rewrite (Get_through _ _ _ _ k Hob_d Hpd Hed).
    rewrite (Get_through _ _ _ _ k (lookup_weaken _ _ _ _ Hob_c Hs23) Hpc Hec).
    by rewrite (Get_through _ _ _ _ k (lookup_weaken _ _ _ _ Hob_b Hs13) Hpb Heb).
Qed.

(** An instance of a class whose prototype carries the marker of a trait
    expresses every function that unwraps to that marker. *)
Lemma instance_expresses C (h1 : heap) i h2 t2 surface x u :
  construct C h1 = (Ret i h2, t2) →
  Get C (Str "prototype") h1 = Ok surface →
  hasOwnProperty surface (Sym _appliedTrait) h1 = Ok true →
  Get surface (Sym _appliedTrait) h1 = Ok u →
  Get x (Sym _wrappedTrait) h1 = Ok u → truthy u = true →
  expresses i x h2 = Ok true.
Proof.
  intros Hn Hsurf Hown Hmark Hx Htu.
  destruct (construct_Ret _ _ _ _ _ Hn) as (p & li & _ & Hp & Hli & -> & -> & ->).
  rewrite Hsurf in Hp. injection Hp as <-.
  destruct (hasOwnProperty_true _ _ _ Hown) as (q & obq & pm & -> & Hq & Hpm).
  set (h2 := <[li := Obj (Some q) ∅ Plain]> h1).
  assert (Hsub : h1 ⊆ h2) by by apply insert_subseteq.
  assert (Hi : h2 !! li = Some (Obj (Some q) ∅ Plain)) by apply lookup_insert_eq.
  apply expresses_found with [VObj li] (VObj q).
  - apply surfaces_cons with (VObj q); [done|by unfold getPrototypeOf; rewrite Hi|].
    apply surfaces_nil.
  - repeat constructor. apply isTraitificationOf_not_own.
    unfold hasOwnProperty. rewrite Hi. simpl.
    by rewrite bool_decide_eq_false_2 by by intros [].
  - eapply isTraitificationOf_marker; [| |by eapply subseteq_Get|done].
    + eapply hasOwnProperty_same_on; [|done]. eapply kept_same_on. by apply subseteq_kept.
    + by eapply subseteq_Get.
Qed.

Section TraitPipeline.
Variable user : nat → val → val → heap → outcome val.

(** [Trait(T)] at work, for a trait body [T] that leaves the symbols of the
    engine alone, on a base that does not express the trait and sees no
    cache: the first application runs [T] once, the application of the
    result returns the result, and an instance of the class made expresses
    the trait and is [instanceof] the decorated trait. *)
Theorem Trait_end_to_end n T id B (h : heap) u W h0 t0 s y C h1 t1 i h2 t2 :
  unwrap T h = Ok u → code_of h T = Some (CUser id) →
  (∀ k this arg, frames (Sym k) (λ h, (user id this arg h, []))) →
  Get T (Sym Symbol_hasInstance) h = Ok (VObj FunctionPrototype_hasInstance) →
  code_of h (VObj FunctionPrototype_hasInstance) = Some CFunctionHasInstance →
  Trait true T h = (Ret W h0, t0) →
  Get B (Str "prototype") h0 = Ok s → expresses s W h0 = Ok false →
  Get B (Sym _cachedApplications) h0 = Ok y → truthy y = false →
  invoke user (4 + n) W B h0 = (Ret C h1, t1) →
  construct C h1 = (Ret i h2, t2) →
  invocations T t1 = 1
  ∧ invoke user (4 + n) W C h1 = (Ret C h1, [Called W C])
  ∧ expresses i W h2 = Ok true ∧ expresses i T h2 = Ok true
  ∧ ∃ handler,
      instanceof user (2 + n) i W h2
      = (Ret true h2, [Called handler i; Called (VObj FunctionPrototype_hasInstance) i]).
Proof.
  intros Hu HcT Hframes Hprior Hbuiltin HTrait Hs Hnot Hy Hty Hcall Hnew.
  destruct (Trait_layers _ _ _ _ _ _ Hu HTrait)
    as (lb & lc & ld & h3 & -> & Htu & HH & -> & Hk03 & (Hlb & Hlc & Hld)
        & (HcD3 & HcC3 & HcB3) & (HT3 & Hb3 & Hc3 & Hd3) & Hdeleg).
  (* the closure of HasInstance *)
  destruct (HasInstance_Ret _ _ _ _ _ HH)
    as (_ & _ & prior & lv & lt & ob & p & [= <-] & Hprior' & Hlv & Hlt & Hne & Hp & Hh0).
  assert (prior = VObj FunctionPrototype_hasInstance) as ->.
  { rewrite Hdeleg in Hprior'.
    rewrite (Get_same_on _ _ _ _ _ (kept_same_on _ _ _ (Hk03 (Sym Symbol_hasInstance) ltac:(done))) Hprior) in Hprior'.
    by injection Hprior'. }
  assert (Hk30 : ∀ k, k ≠ Sym Symbol_hasInstance → kept k h3 h0)
    by (intros k Hk; by eapply HasInstance_kept).
  assert (Hcode30 : ∀ v c, code_of h3 v = Some c → code_of h0 v = Some c)
    by (intros v c; by apply (kept_code _ _ _ _ _ (Hk30 (Str "") ltac:(done)))).
  assert (Hhandler0 : Get (VObj ld) (Sym Symbol_hasInstance) h0 = Ok (VObj lv)).
  { rewrite <- Hp. eapply Get_own; [rewrite Hh0; apply lookup_insert_eq|].
    simpl. apply lookup_insert_eq. }
  assert (Hcv0 : code_of h0 (VObj lv)
                 = Some (CHasInstanceValue (VObj FunctionPrototype_hasInstance) (VObj ld))).
  { rewrite Hh0. rewrite code_of_insert_ne by congruence. apply code_of_insert. }
  assert (HcT0 : code_of h0 T = Some (CUser id)).
  { apply Hcode30. by apply (kept_code _ _ _ _ _ (Hk03 (Str "") ltac:(done))). }
  assert (Hcb0 : code_of h0 (VObj FunctionPrototype_hasInstance) = Some CFunctionHasInstance).
  { apply Hcode30. by apply (kept_code _ _ _ _ _ (Hk03 (Str "") ltac:(done))). }
  assert (HK0 : ∀ x, Get x (Sym _wrappedTrait) h3 = Ok u → Get x (Sym _wrappedTrait) h0 = Ok u).
  { intros x. apply Get_same_on, kept_same_on. by apply Hk30. }
  (* the first application *)
  change (4 + n) with (S (S (S (S n)))) in *.
  unfold invoke in Hcall.
  rewrite (call_code _ _ _ _ _ _ _ (Hcode30 _ _ HcD3)) in Hcall. simpl in Hcall.
  unfold Dedupe_body in Hcall.
  rewrite (bind_run _ _ _ _ _ _ (query_run _ _ _ Hs)) in Hcall.
  assert (Hnot' : expresses s (VObj lc) h0 = Ok false).
  { rewrite <- Hnot. apply expresses_same_unwrap.
    by rewrite (unwrap_truthy _ _ _ (HK0 _ Hc3) Htu), (unwrap_truthy _ _ _ (HK0 _ Hd3) Htu). }
  rewrite (bind_run _ _ _ _ _ _ (query_run _ _ _ Hnot')) in Hcall.
  destruct (invoke user (S (S (S n))) (VObj lc) B h0) as [o t'] eqn:Hcached.
  simpl in Hcall. injection Hcall as -> <-.
  unfold invoke in Hcached.
  rewrite (call_code _ _ _ _ _ _ _ (Hcode30 _ _ HcC3)) in Hcached. simpl in Hcached.
  destruct (Cached_body (invoke user (S (S n))) (VObj lb) B h0)
    as [o t''] eqn:Hbody.
  injection Hcached as -> <-.
  destruct (Cached_body_Ret _ _ _ _ _ _ _ Hbody) as (m & hm & c & Hm & Hc & Hcase).
  assert (Hk0m : ∀ k, k ≠ Sym _cachedApplications → kept k h0 hm).
  { intros k Hk. eapply (cachedApplications_of_frames k B Hk h0); [done|done]. }
  assert (Hmiss : truthy c = false).
  { destruct (cachedApplications_of_Ret _ _ _ _ _ Hm)
      as (_ & [(Hf & Htf & _)|(found & lm & lbB & obB & _ & _ & -> & Hlm & -> & HlB & ->)]).
    - rewrite Hy in Hf. injection Hf as ->. congruence.
    - unfold Map_get in Hc. rewrite lookup_insert_ne in Hc by (intros ->; congruence).
      rewrite lookup_insert_eq in Hc. by injection Hc as <-. }
  destruct Hcase as [(Htc & _)|(_ & hT & Hbare & Hset)]; [congruence|].
  destruct (BareTrait_call user n (VObj lb) T B id u hm C hT t'')
    as (-> & HkK & Hkall & surface & Hsurf & Hown & Hmark); try done.
  { apply (kept_code _ _ _ _ _ (Hk0m (Str "") ltac:(done))). by apply Hcode30. }
  { by apply (kept_code _ _ _ _ _ (Hk0m (Str "") ltac:(done))). }
  { eapply Get_same_on; [apply kept_same_on, Hk0m; done|]. by apply HK0. }
  assert (Hcar : carried h0 h1).
  { eapply carried_trans; [apply kept_carried; apply Hk0m; done|].
    eapply carried_trans; [|by eapply Map_set_carried].
    apply kept_carried; [done|]. by apply Hkall. }
  destruct Hcar as (HcarK & HcarI & Hcarc).
  assert (Hsurf1 : Get C (Str "prototype") h1 = Ok surface).
  { eapply Get_same_on; [|done]. by eapply Map_set_same_on. }
  assert (Hown1 : hasOwnProperty surface (Sym _appliedTrait) h1 = Ok true).
  { eapply hasOwnProperty_same_on; [|done]. by eapply Map_set_same_on. }
  assert (Hmark1 : Get surface (Sym _appliedTrait) h1 = Ok u).
  { eapply Get_same_on; [|done]. by eapply Map_set_same_on. }
  assert (HK1 : ∀ x, Get x (Sym _wrappedTrait) h3 = Ok u → Get x (Sym _wrappedTrait) h1 = Ok u).
  { intros x Hx. eapply Get_same_on; [done|]. by apply HK0. }
  assert (HT_fresh : ∀ l, h !! l = None → VObj l ≠ T).
  { intros l Hl <-. unfold code_of in HcT. by rewrite Hl in HcT. }
  split_and!.
  - rewrite !invocations_cons. rewrite !decide_False by by apply HT_fresh.
    by rewrite decide_True.
  - unfold invoke.
    rewrite (call_code _ _ _ _ _ _ _ (Hcarc _ _ (Hcode30 _ _ HcD3))). simpl.
    unfold Dedupe_body.
    rewrite (bind_run _ _ _ _ _ _ (query_run _ _ _ Hsurf1)).
    assert (Hexp : expresses surface (VObj lc) h1 = Ok true).
    { apply expresses_found with [] surface; [apply surfaces_nil|constructor|].
      eapply isTraitificationOf_marker; try done. by apply HK1. }
    by rewrite (bind_run _ _ _ _ _ _ (query_run _ _ _ Hexp)).
  - eapply instance_expresses; try done. by apply HK1.
  - eapply instance_expresses; try done. by apply HK1.
  - exists (VObj lv).
    assert (Hsub : h1 ⊆ h2).
    { destruct (construct_Ret _ _ _ _ _ Hnew) as (? & li & _ & _ & Hli & _ & _ & ->).
      by apply insert_subseteq. }
    change (2 + n) with (S (S n)).
    rewrite (instanceof_closure user n i ld (VObj lv) h2).
    + rewrite (instance_expresses _ _ _ _ _ _ (VObj ld) u Hnew Hsurf1 Hown1 Hmark1);
        [done|by apply HK1|done].
    + eapply subseteq_Get; [done|]. by eapply Get_same_on.
    + eapply subseteq_code; [done|]. by apply Hcarc.
    + eapply subseteq_code; [done|]. by apply Hcarc.
Qed.

End TraitPipeline.

(** ** Further properties: edge cases of Cached and wrap *)

Section FalsyApplication.
Variable user : nat → val → val → heap → outcome val.

(** A trait that returns a falsy value is not served from the cache: the
    value is stored, but the closure of [Cached] tests it with [!] and runs
    the trait again at the next call. *)
Theorem Cached_falsy_result_runs_again n W T id B (h : heap) app h1 t1 :
  code_of h W = Some (CCachedWrapper T) → code_of h T = Some (CUser id) →
  (∀ this arg, frames (Sym _cachedApplications) (λ h, (user id this arg h, []))) →
  invoke user (S (S n)) W B h = (Ret app h1, t1) → truthy app = false →
  ∃ m, Get B (Sym _cachedApplications) h1 = Ok m ∧ Map_get m T h1 = Ok app ∧
       invoke user (S (S n)) W B h1
       = (let '(o, t) := (let* application := invoke user (S n) T B in
                          let* _ := Map_set m T application in
                          ret application) h1
          in (o, Called W B :: t)).
Proof.
  intros HcW HcT Hframes Hcall Happ.
  unfold invoke in Hcall. rewrite (call_code _ _ _ _ _ _ _ HcW) in Hcall. simpl in Hcall.
  destruct (Cached_body (invoke user (S n)) T B h) as [o t'] eqn:Hbody.
  injection Hcall as -> <-.
  destruct (Cached_body_Ret _ _ _ _ _ _ _ Hbody) as (m & hm & c & Hm & Hc & Hcase).
  destruct (cachedApplications_of_slot _ _ _ _ _ Hm) as (Hslot & Htm & Hcodes).
  destruct Hcase as [(Htc & -> & _)|(Htc & hT & HT & Hset)]; [congruence|].
  unfold invoke in HT. rewrite (call_user _ _ _ _ _ _ id) in HT by by rewrite Hcodes.
  injection HT as Huser <-.
  assert (Hk : kept (Sym _cachedApplications) hm hT).
  { eapply (Hframes VUndef B hm); [done|]. by rewrite Huser. }
  assert (Hslot1 : Get B (Sym _cachedApplications) h1 = Ok m).
  { eapply Get_same_on; [by eapply Map_set_same_on|].
    eapply Get_same_on; [by apply kept_same_on|done]. }
  pose proof (Map_set_get _ _ _ _ _ _ _ Hset) as Hget1.
  exists m. split_and!; [done|done|].
  assert (HcW1 : code_of h1 W = Some (CCachedWrapper T)).
  { rewrite (Map_set_code _ _ _ _ _ _ _ _ Hset). eapply kept_code; [done|].
    by rewrite Hcodes. }
  unfold invoke at 1. rewrite (call_code _ _ _ _ _ _ _ HcW1). simpl.
  unfold Cached_body at 1.
  rewrite (bind_run _ _ _ _ _ _ (cachedApplications_of_found _ _ _ Hslot1 Htm)).
  rewrite (bind_run _ _ _ _ _ _ (query_run _ _ _ Hget1)). rewrite Happ. simpl.
  by destruct (bind _ _ h1).
Qed.

End FalsyApplication.

(** Wrapping the same pair again changes nothing. *)
Theorem wrap_again_changes_nothing T W (h : heap) r h' t :
  is_object W = true → wrap T W h = (Ret r h', t) →
  wrap T W h' = (Ret W h', []).
Proof.
  intros HW Hw. destruct W as [| | | | |lw]; try done.
  destruct (wrap_wrapper_proto _ _ _ _ _ _ Hw) as (lt & ob' & -> & Hl & Hp).
  assert (Hback : ∃ x, Get (VObj lt) (Sym _wrappedTrait) h' = Ok x ∧ truthy x = true).
  { destruct (wrap_Ret _ _ _ _ _ _ Hw) as (_ & _ & h0 & x & _ & Hx & [[Htx ->]|[_ Hset]]).
    - eauto.
    - exists (VObj lt). split; [by eapply Set_Get|done]. }
  destruct Hback as (x & Hx & Htx).
  unfold wrap.
  assert (Hs : setPrototypeOf (VObj lw) (VObj lt) h' = (Ret (VObj lw) h', [])).
  { unfold setPrototypeOf. rewrite Hl. simpl. by rewrite decide_True. }
  rewrite (bind_run _ _ _ _ _ _ Hs).
  rewrite (bind_run _ _ _ _ _ _ (query_run _ _ _ Hx)). by rewrite Htx.
Qed.

(** ** Further properties: what an answer of expresses means *)

(** An answer of [expresses] is never more than what the chain of surfaces
    shows: true means that a surface of the chain is a traitification of the
    trait and none before it is; false means that the chain was followed to
    its end and no surface on it is one. *)
Theorem expresses_answers_from_the_chain v T (h : heap) b :
  expresses v T h = Ok b →
  ∃ L last, surfaces h v L last ∧
            Forall (λ s, isTraitificationOf s T h = Ok false) L ∧
            (if b then isTraitificationOf last T h = Ok true else nullish last = true).
Proof.
  unfold expresses. generalize (walk_fuel h) as n. intros n. revert v.
  induction n as [|n IH]; intros v; simpl.
  - destruct (nullish v) eqn:Hv; [|done]. intros [= <-].
    exists [], v. split_and!; [apply surfaces_nil|constructor|done].
  - destruct (nullish v) eqn:Hv.
    { intros [= <-]. exists [], v. split_and!; [apply surfaces_nil|constructor|done]. }
    unfold qbind. destruct (isTraitificationOf v T h) as [[]| |] eqn:Hi; try done.
    { intros [= <-]. exists [], v. split_and!; [apply surfaces_nil|constructor|done]. }
    destruct (getPrototypeOf v h) as [next| |] eqn:Hp; try done.
    intros (L & last & Hs & HF & Hb)%IH.
    exists (v :: L), last. split_and!; [by eapply surfaces_cons|by constructor|done].
Qed.


End MutraitFacts.
(** * The theorems at work on the sample heap *)

Module Witnesses.
Import JS Mutrait Notions Sample JSFacts MutraitFacts.

(** Both sides evaluate to the same value. *)
Ltac run :=
  lazymatch goal with
  | |- @eq ?A ?l ?r => exact (@eq_refl A r <: l = r)
  end.

(** [H]: the run [cmd] returns. *)
Ltac ran H cmd :=
  assert (H : cmd = (Ret (result_of VUndef cmd) (heap_of cmd), snd cmd)) by run.

(** [H]: the run [cmd] throws [e]. *)
Ltac threw H cmd e :=
  assert (H : cmd = (Throw e (heap_of cmd), snd cmd)) by run.

Ltac heap_in H :=
  lazymatch type of H with
  | _ = (Ret _ ?h, _) => h
  | _ = (Throw _ ?h, _) => h
  end.

Ltac value_in H :=
  lazymatch type of H with
  | _ = (Ret ?v _, _) => v
  end.

Lemma Ok_inj {A} (a b : A) : Ok a = Ok b → a = b.
Proof. by intros [= ->]. Qed.

Lemma plain_check (h : heap) l :
  (match h !! l with
   | Some ob => bool_decide (props ob !! Sym _wrappedTrait = None)
   | None => false
   end) = true →
  plain h (VObj l).
Proof.
  destruct (h !! l) as [ob|] eqn:Hl; [|done].
  intros Hb%bool_decide_eq_true_1. by exists l, ob.
Qed.

(** The sample traits allocate and set [constructor] and [tried]: they
    leave the symbols of the engine alone. *)
Lemma class_extends_frames k s : Str "constructor" ≠ k → frames k (class_extends s).
Proof.
  intros Hk h o t h'. unfold class_extends.
  assert (Hrest : ∀ o t h',
             match code_of h s with
             | Some CClass =>
                 (let* p := query (Get s (Str "prototype")) in
                  match p with
                  | VObj q => new_class (lookup_start s) (Some q)
                  | VNull => new_class (lookup_start s) None
                  | _ => throw TypeError
                  end) h
             | _ => (Throw TypeError h, [])
             end = (o, t) → heap_after o = Some h' → kept k h h').
  { intros o0 t0 h0.
    destruct (code_of h s) as [[]|]; try (intros [= <- <-] [= <-]; apply kept_refl).
    revert h o0 t0 h0. apply frames_bind; [apply frames_query|].
    intros []; try apply frames_throw; by apply frames_new_class. }
  destruct s; try apply Hrest. by apply frames_new_class.
Qed.

Lemma flaky_frames k s :
  Str "constructor" ≠ k → Str "tried" ≠ k → frames k (flaky s).
Proof.
  intros Hc Ht. unfold flaky. apply frames_bind; [apply frames_query|].
  intros tried. destruct (truthy tried); [by apply class_extends_frames|].
  apply frames_bind; [by apply frames_Set|]. intros _. apply frames_throw.
Qed.

Lemma sample_user_frames id this arg :
  frames (Sym _cachedApplications) (λ h, (sample_user id this arg h, [])).
Proof.
  intros h o t h' [= <- <-] Hh.
  destruct id as [|[|[|[|id]]]]; simpl in Hh;
    try (destruct (class_extends arg h) as [o t] eqn:Hce;
         by eapply (class_extends_frames (Sym _cachedApplications) arg)).
  - injection Hh as <-. apply kept_refl.
  - destruct (flaky arg h) as [o t] eqn:Hfl.
    by eapply (flaky_frames (Sym _cachedApplications) arg).
Qed.

Lemma sample_user_leaves_cache_alone n F B id :
  leaves_cache_alone sample_user n F B (Some (CUser id)).
Proof. apply frames_leaves_cache_alone. apply sample_user_frames. Qed.

Lemma wrappers_heap_backrefs : backrefs_at_home wrappers_heap.
Proof.
  assert (Hnone : map_Forall (λ _ ob, props ob !! Sym _wrappedTrait = None)
                             wrappers_heap).
  { refine (bool_decide_eq_true_1 _ _). run. }
  intros l ob p Hl Hp. rewrite (Hnone l ob Hl) in Hp. discriminate.
Qed.

Lemma isTraitificationOf_apply_witness :
  (∃ app h' t,
      apply sample_user 1 Base T sample_heap = (Ret app h', t) ∧
      ∃ surface,
        Get app (Str "prototype") h' = Ok surface ∧
        isTraitificationOf surface T h' = Ok true ∧
        unwrap U h' = Ok U ∧ unwrap T h' = Ok T ∧
        isTraitificationOf surface U h' = Ok false ∧
        (∀ V uV uT, unwrap V h' = Ok uV → unwrap T h' = Ok uT → uV ≠ uT →
                    isTraitificationOf surface V h' = Ok false))
  ∧ (∃ r1 h1 t1 r2 h2 t2 app h3 t3,
      plain wrappers_heap W1 ∧ plain h1 W2 ∧
      wrap T W1 wrappers_heap = (Ret r1 h1, t1) ∧
      wrap T W2 h1 = (Ret r2 h2, t2) ∧
      apply sample_user 2 Base r1 h2 = (Ret app h3, t3) ∧
      unwrap W1 h3 = unwrap W1 h2 ∧ unwrap W2 h3 = unwrap W2 h2 ∧
      ∃ surface,
        Get app (Str "prototype") h3 = Ok surface ∧
        isTraitificationOf surface r2 h3 = Ok true).
Proof.
  split.
  - ran Ha (apply sample_user 1 Base T sample_heap).
    pose (h' := heap_of (apply sample_user 1 Base T sample_heap)).
    destruct (proj1 (isTraitificationOf_apply sample_user) 1 Base T sample_heap _ _ _ Ha)
      as (surface & Hs & HT & Hother).
    assert (HuU : unwrap U h' = Ok U) by run.
    assert (HuT : unwrap T h' = Ok T) by run.
    assert (Hne : U ≠ T) by discriminate.
    eexists _, _, _. split; [exact Ha|]. exists surface.
    split_and!; [exact Hs|exact HT|exact HuU|exact HuT|exact (Hother U U T HuU HuT Hne)
                |exact Hother].
  - assert (Hp1 : plain wrappers_heap W1) by (apply plain_check; run).
    ran Hw1 (wrap T W1 wrappers_heap).
    pose (h1 := heap_of (wrap T W1 wrappers_heap)).
    assert (Hp2 : plain h1 W2) by (apply plain_check; run).
    ran Hw2 (wrap T W2 h1).
    pose (h2 := heap_of (wrap T W2 h1)).
    assert (Hw2' : wrap T W2 h1 = (Ret W2 h2, snd (wrap T W2 h1))) by run.
    assert (Hw1' : wrap T W1 wrappers_heap = (Ret W1 h1, snd (wrap T W1 wrappers_heap)))
      by run.
    ran Ha (apply sample_user 2 Base W1 h2).
    pose (h3 := heap_of (apply sample_user 2 Base W1 h2)).
    assert (Hk1 : unwrap W1 h3 = unwrap W1 h2) by run.
    assert (Hk2 : unwrap W2 h3 = unwrap W2 h2) by run.
    eexists _, _, _, _, _, _, _, _, _.
    split_and!; [exact Hp1|exact Hp2|exact Hw1'|exact Hw2'|exact Ha|exact Hk1|exact Hk2|].
    exact (proj2 (isTraitificationOf_apply sample_user) _ _ _ _ _ _ _ _ _ _ _ _ _ _ _
             Hp1 Hp2 Hw1' Hw2' Ha Hk1 Hk2).
Defined.

Lemma expresses_instance_and_chain_witness :
  (∃ app h1 t1 i h2 t2 s,
      apply sample_user 1 Base T sample_heap = (Ret app h1, t1) ∧
      construct app h1 = (Ret i h2, t2) ∧
      expresses i T h2 = Ok true ∧
      surfaces h2 i [i] s ∧ isTraitificationOf i T h2 = Ok false ∧
      isTraitificationOf s T h2 = Ok true)
  ∧ surfaces sample_heap Base_prototype [Base_prototype; VObj ObjectPrototype] VNull
  ∧ expresses Base_prototype T sample_heap = Ok false.
Proof.
  destruct (expresses_instance_and_chain sample_user) as (Hinst & Hfound & Hnone).
  assert (Hs0 : surfaces sample_heap Base_prototype
                  [Base_prototype; VObj ObjectPrototype] VNull).
  { apply surfaces_cons with (VObj ObjectPrototype); [reflexivity|run|].
    apply surfaces_cons with VNull; [reflexivity|run|]. apply surfaces_nil. }
  split_and!.
  - ran Ha (apply sample_user 1 Base T sample_heap).
    pose (app := result_of VUndef (apply sample_user 1 Base T sample_heap)).
    pose (h1 := heap_of (apply sample_user 1 Base T sample_heap)).
    ran Hn (construct app h1).
    pose (i := result_of VUndef (construct app h1)).
    pose (h2 := heap_of (construct app h1)).
    pose (s := match getPrototypeOf i h2 with Ok s => s | _ => VUndef end).
    assert (Hs : surfaces h2 i [i] s).
    { apply surfaces_cons with s; [reflexivity|run|apply surfaces_nil]. }
    assert (Hi : isTraitificationOf i T h2 = Ok false) by run.
    assert (Hm : isTraitificationOf s T h2 = Ok true) by run.
    exists app, h1, (snd (apply sample_user 1 Base T sample_heap)),
           i, h2, (snd (construct app h1)), s.
    split_and!; [exact Ha|exact Hn| |exact Hs|exact Hi|exact Hm].
    exact (Hinst _ _ _ _ _ _ _ _ _ _ Ha Hn).
  - exact Hs0.
  - apply (Hnone sample_heap Base_prototype T [Base_prototype; VObj ObjectPrototype] VNull);
      [exact Hs0|reflexivity|].
    repeat constructor; run.
Defined.


Lemma unwrap_wrap_roundtrip_witness :
  (∃ r h' t,
      plain wrappers_heap W1 ∧ wrap T W1 wrappers_heap = (Ret r h', t) ∧
      r = W1 ∧ unwrap T wrappers_heap = Ok T ∧ unwrap T h' = Ok T ∧
      unwrap r h' = Ok T)
  ∧ (∃ last h' t,
      wrap_layers T [W1; W2] wrappers_heap = (Ret last h', t) ∧
      unwrap T wrappers_heap = Ok T ∧ unwrap last h' = Ok T)
  ∧ unwrap U sample_heap = Ok U
  ∧ (∃ r h' t,
      wrap T W1 wrappers_heap = (Ret r h', t) ∧ backrefs_at_home h' ∧
      unwrap W1 h' = Ok T ∧ unwrap T h' = Ok T).
Proof.
  assert (Hp1 : plain wrappers_heap W1) by (apply plain_check; run).
  assert (Hp2 : plain wrappers_heap W2) by (apply plain_check; run).
  ran Hw (wrap T W1 wrappers_heap).
  pose (h1 := heap_of (wrap T W1 wrappers_heap)).
  assert (HT : unwrap T wrappers_heap = Ok T) by run.
  destruct unwrap_wrap_roundtrip as (Hone & Hmany & Hnever & Hidem).
  split_and!.
  - destruct (Hone _ _ _ _ _ _ Hp1 Hw) as (Hr & u & Hu & Hu' & Hur).
    rewrite HT in Hu. injection Hu as <-.
    eexists _, _, _. split_and!; [exact Hp1|exact Hw|exact Hr|exact HT|exact Hu'|exact Hur].
  - ran Hl (wrap_layers T [W1; W2] wrappers_heap).
    assert (HF : Forall (plain wrappers_heap) [W1; W2])
      by (repeat constructor; assumption).
    assert (Hnin : T ∉ [W1; W2]).
    { intros Hin. repeat (apply elem_of_cons in Hin as [Hin|Hin]; [discriminate|]).
      by apply elem_of_nil in Hin. }
    assert (Hne : [W1; W2] ≠ []) by discriminate.
    destruct (Hmany T [W1; W2] _ _ _ _ HF Hnin Hne Hl) as (u & Hu & Hlast).
    rewrite HT in Hu. injection Hu as <-.
    eexists _, _, _. split_and!; [exact Hl|exact HT|exact Hlast].
  - apply Hnever; [run|reflexivity].
  - assert (HW1 : unwrap W1 h1 = Ok T) by run.
    eexists _, _, _. split_and!; [exact Hw| | exact HW1 |].
    + exact (wrap_backrefs _ _ _ _ _ _ Hw wrappers_heap_backrefs).
    + exact (Hidem W1 _ T (wrap_backrefs _ _ _ _ _ _ Hw wrappers_heap_backrefs) HW1).
Defined.

Lemma Dedupe_skips_or_delegates_witness :
  ∃ bare hb tb W h0 t0 C1 h1 t1 surface,
    BareTrait T sample_heap = (Ret bare hb, tb) ∧
    Dedupe bare hb = (Ret W h0, t0) ∧ W ≠ bare ∧
    (* the first application delegates *)
    expresses Base_prototype bare h0 = Ok false ∧
    invoke sample_user 3 W Base h0 = (Ret C1 h1, t1) ∧
    invoke sample_user 3 W Base h0
    = (let '(o, t) := invoke sample_user 2 bare Base h0 in (o, Called W Base :: t)) ∧
    (* the second one finds the trait and returns its argument *)
    Get C1 (Str "prototype") h1 = Ok surface ∧
    expresses surface bare h1 = Ok true ∧
    invoke sample_user 3 W C1 h1 = (Ret C1 h1, [Called W C1]).
Proof.
  ran Hb (BareTrait T sample_heap).
  pose (bare := result_of VUndef (BareTrait T sample_heap)).
  pose (hb := heap_of (BareTrait T sample_heap)).
  ran Hd (Dedupe bare hb).
  pose (W := result_of VUndef (Dedupe bare hb)).
  pose (h0 := heap_of (Dedupe bare hb)).
  destruct (Dedupe_skips_or_delegates sample_user 2 _ _ _ _ _ Hd) as [Hne Hcalls].
  assert (Hp0 : Get Base (Str "prototype") h0 = Ok Base_prototype) by run.
  assert (He0 : expresses Base_prototype bare h0 = Ok false) by run.
  ran H1 (invoke sample_user 3 W Base h0).
  pose (C1 := result_of VUndef (invoke sample_user 3 W Base h0)).
  pose (h1 := heap_of (invoke sample_user 3 W Base h0)).
  assert (Hc1 : code_of h1 W = code_of h0 W) by run.
  pose (surface := match Get C1 (Str "prototype") h1 with Ok s => s | _ => VUndef end).
  assert (Hp1 : Get C1 (Str "prototype") h1 = Ok surface) by run.
  assert (He1 : expresses surface bare h1 = Ok true) by run.
  exists bare, hb, (snd (BareTrait T sample_heap)), W, h0, (snd (Dedupe bare hb)),
         C1, h1, (snd (invoke sample_user 3 W Base h0)), surface.
  split_and!; [exact Hb|exact Hd|exact Hne|exact He0|exact H1| |exact Hp1|exact He1|].
  - exact (proj2 (Hcalls _ _ _ eq_refl Hp0) He0).
  - exact (proj1 (Hcalls _ _ _ Hc1 Hp1) He1).
Defined.

Lemma expressing_applies_in_order_witness :
  (∃ builder h' t,
      superclass Base sample_heap = (Ret builder h', t) ∧
      expressing sample_user 1 builder [T; U] h' = nested sample_user 1 [U; T] Base h' ∧
      ∃ TB h1 t1 UTB h2 t2,
        invoke sample_user 1 T Base h' = (Ret TB h1, t1) ∧
        invoke sample_user 1 U TB h1 = (Ret UTB h2, t2) ∧
        expressing sample_user 1 builder [T; U] h' = (Ret UTB h2, t1 ++ t2))
  ∧ (∃ builder h' t lc lp,
      superclass VUndef sample_heap = (Ret builder h', t) ∧
      sample_heap !! lc = None ∧ sample_heap !! lp = None ∧
      code_of h' (VObj lc) = Some CClass ∧
      Get (VObj lc) (Str "prototype") h' = Ok (VObj lp) ∧
      getPrototypeOf (VObj lp) h' = Ok (VObj ObjectPrototype) ∧
      expressing sample_user 1 builder [T; U] h'
      = nested sample_user 1 [U; T] (VObj lc) h' ∧
      traits sample_user 1 [T; U] sample_heap = expressing sample_user 1 builder [T; U] h').
Proof.
  destruct (expressing_applies_in_order sample_user) as (Hbase & Hroot & Htraits).
  split.
  - ran Hs (superclass Base sample_heap).
    pose (builder := result_of VUndef (superclass Base sample_heap)).
    pose (h' := heap_of (superclass Base sample_heap)).
    pose proof (Hbase 1 Base [T; U] _ _ _ _ eq_refl Hs) as Hfold.
    ran H1 (invoke sample_user 1 T Base h').
    pose (TB := result_of VUndef (invoke sample_user 1 T Base h')).
    pose (h1 := heap_of (invoke sample_user 1 T Base h')).
    ran H2 (invoke sample_user 1 U TB h1).
    eexists _, _, _. split_and!; [exact Hs|exact Hfold|].
    eexists _, _, _, _, _, _. split_and!; [exact H1|exact H2|].
    run.
  - ran Hs (superclass VUndef sample_heap).
    destruct (Hroot 1 VUndef [T; U] _ _ _ _ eq_refl Hs)
      as (lc & lp & Hlc & Hlp & Hclass & Hproto & Hparent & _ & Hfold).
    eexists _, _, _, lc, lp.
    split_and!; [exact Hs|exact Hlc|exact Hlp|exact Hclass|exact Hproto|exact Hparent
                |exact Hfold|].
    exact (Htraits 1 [T; U] _ _ _ _ Hs).
Defined.

Lemma trait_errors_propagate_witness :
  (∃ hT tT,
      invoke sample_user 1 Boom Base sample_heap = (Throw (Thrown (VStr "boom")) hT, tT) ∧
      apply sample_user 1 Base Boom sample_heap = (Throw (Thrown (VStr "boom")) hT, tT))
  ∧ (∃ W h t m hm hT tT,
      Cached Flaky sample_heap = (Ret W h, t) ∧
      cachedApplications_of Base h = (Ret m hm, []) ∧
      Map_get m Flaky hm = Ok VUndef ∧
      invoke sample_user 1 Flaky Base hm = (Throw (Thrown (VStr "first time")) hT, tT) ∧
      invoke sample_user 2 W Base h
      = (Throw (Thrown (VStr "first time")) hT, Called W Base :: tT) ∧
      (∃ c', cached_application Base Flaky hT = Ok c' ∧ truthy c' = false) ∧
      ∃ app h2 t2 h3,
        invoke sample_user 1 Flaky Base hT = (Ret app h2, t2) ∧
        invoke sample_user 2 W Base hT = (Ret app h3, Called W Base :: t2) ∧
        cached_application Base Flaky h3 = Ok app).
Proof.
  split.
  - threw Hb (invoke sample_user 1 Boom Base sample_heap) (Thrown (VStr "boom")).
    eexists _, _. split; [exact Hb|].
    exact (proj1 (trait_errors_propagate sample_user 1 Boom Base _) _ _ _ Hb).
  - ran HC (Cached Flaky sample_heap).
    pose (W := result_of VUndef (Cached Flaky sample_heap)).
    pose (h := heap_of (Cached Flaky sample_heap)).
    assert (HcW : code_of h W = Some (CCachedWrapper Flaky)) by run.
    pose (m := result_of VUndef (cachedApplications_of Base h)).
    pose (hm := heap_of (cachedApplications_of Base h)).
    assert (Hm : cachedApplications_of Base h = (Ret m hm, [])) by run.
    assert (Hmiss : Map_get m Flaky hm = Ok VUndef) by run.
    assert (Hcode : code_of hm Flaky = Some (CUser 3)) by run.
    threw Hthrow (invoke sample_user 1 Flaky Base hm) (Thrown (VStr "first time")).
    pose (hT := heap_of (invoke sample_user 1 Flaky Base hm)).
    destruct (proj2 (trait_errors_propagate sample_user 1 Flaky Base _)
                _ _ _ _ _ _ _ HcW Hm Hmiss eq_refl Hthrow) as [Hprop Hafter].
    destruct Hafter as [Hnone Hnext].
    { rewrite Hcode. apply sample_user_leaves_cache_alone. }
    ran Hok (invoke sample_user 1 Flaky Base hT).
    destruct (Hnext _ _ _ Hok) as (h3 & Hcall & Hcached).
    exists W, h, (snd (Cached Flaky sample_heap)), m, hm, hT,
           (snd (invoke sample_user 1 Flaky Base hm)).
    split_and!; [exact HC|exact Hm|exact Hmiss|exact Hthrow|exact Hprop|exact Hnone|].
    eexists _, _, _, h3. split_and!; [exact Hok|exact Hcall|exact Hcached].
Defined.

Lemma decorated_trait_needs_a_base_witness :
  nullish VNull = true
  ∧ (∃ W h0 t0,
      Dedupe T sample_heap = (Ret W h0, t0) ∧
      invoke sample_user 2 W VNull h0 = (Throw TypeError h0, [Called W VNull]))
  ∧ (∃ W h0 t0,
      Trait true T sample_heap = (Ret W h0, t0) ∧
      invoke sample_user 2 W VNull h0 = (Throw TypeError h0, [Called W VNull]))
  ∧ (∃ builder h' t lc,
      superclass VNull sample_heap = (Ret builder h', t) ∧
      Get builder (Str "superclass") h' = Ok (VObj lc) ∧
      sample_heap !! lc = None ∧ code_of h' (VObj lc) = Some CClass).
Proof.
  destruct (decorated_trait_needs_a_base sample_user 1 VNull eq_refl)
    as (Hdedupe & Htrait & Hbuilder).
  split_and!; [reflexivity| | |].
  - ran Hd (Dedupe T sample_heap).
    eexists _, _, _. split; [exact Hd|]. exact (Hdedupe _ _ _ _ _ _ Hd eq_refl).
  - ran Ht (Trait true T sample_heap).
    eexists _, _, _. split; [exact Ht|]. exact (Htrait _ _ _ _ _ _ _ Ht eq_refl).
  - ran Hs (superclass VNull sample_heap).
    destruct (Hbuilder _ _ _ _ Hs) as (lc & Hget & Hfresh & Hclass).
    eexists _, _, _, lc. split_and!; [exact Hs|exact Hget|exact Hfresh|exact Hclass].
Defined.

(** What C1 says of any two wrappers fails for a wrapper that was wrapped
    itself before: after [wrap(W1, U)], [W1] owns a back-reference to
    itself, so that [apply(Base, wrap(T, W1))] marks the prototype with [W1]
    and [isTraitificationOf] answers false for [wrap(T, W2)], which unwraps
    to [T]. *)
Lemma isTraitificationOf_apply_counterexample :
  ∃ ha ta r1 hb tb r2 hc tc app hd td surface,
    wrap W1 U wrappers_heap = (Ret U ha, ta) ∧
    hasOwnProperty W1 (Sym _wrappedTrait) ha = Ok true ∧
    wrap T W1 ha = (Ret r1 hb, tb) ∧ wrap T W2 hb = (Ret r2 hc, tc) ∧
    r1 = W1 ∧ r2 = W2 ∧
    apply sample_user 2 Base r1 hc = (Ret app hd, td) ∧
    unwrap W1 hd = unwrap W1 hc ∧ unwrap W2 hd = unwrap W2 hc ∧
    Get app (Str "prototype") hd = Ok surface ∧
    isTraitificationOf surface r2 hd = Ok false.
Proof.
  pose (ha := heap_of (wrap W1 U wrappers_heap)).
  pose (hb := heap_of (wrap T W1 ha)).
  pose (hc := heap_of (wrap T W2 hb)).
  pose (app := result_of VUndef (apply sample_user 2 Base W1 hc)).
  pose (hd := heap_of (apply sample_user 2 Base W1 hc)).
  pose (surface := match Get app (Str "prototype") hd with Ok s => s | _ => VUndef end).
  exists ha, (snd (wrap W1 U wrappers_heap)), W1, hb, (snd (wrap T W1 ha)),
         W2, hc, (snd (wrap T W2 hb)), app, hd, (snd (apply sample_user 2 Base W1 hc)),
         surface.
  split_and!; try reflexivity; run.
Qed.

(** What C5 says of every wrapper fails for a wrapper that was wrapped
    itself before: after [wrap(W1, W2)], [W1] owns a back-reference to
    itself, which hides the one of [T]; [unwrap(wrap(T, W1))] is [W1], and
    not [T], the unwrapped identity of [T] before and after the call. *)
Lemma unwrap_wrap_roundtrip_counterexample :
  ∃ ha ta r hb tb,
    wrap W1 W2 wrappers_heap = (Ret W2 ha, ta) ∧
    hasOwnProperty W1 (Sym _wrappedTrait) ha = Ok true ∧
    wrap T W1 ha = (Ret r hb, tb) ∧
    unwrap T ha = Ok T ∧ unwrap T hb = Ok T ∧
    unwrap r hb = Ok W1 ∧ W1 ≠ T.
Proof.
  pose (ha := heap_of (wrap W1 W2 wrappers_heap)).
  pose (hb := heap_of (wrap T W1 ha)).
  exists ha, (snd (wrap W1 W2 wrappers_heap)), W1, hb, (snd (wrap T W1 ha)).
  split_and!; try discriminate; run.
Qed.

(** C8. [HasInstance] does not keep the check the function had.  For
    [class Base {}] and [i = new Base()], [i instanceof Base] is true; after
    [HasInstance(Base)], which returns [Base] itself with an own
    [Symbol.hasInstance] method, the check the class had before still
    answers true for [i] when it is applied to [Base], but the method calls
    it as a bare function, without [Base]; the built-in method then answers
    false, [expresses(i, Base)] is false, and [i instanceof Base] has
    become false. *)
Theorem HasInstance_loses_the_prior_check :
  ∃ i hi ti h' t handler,
    construct Base sample_heap = (Ret i hi, ti) ∧
    instanceof sample_user 2 i Base hi
    = (Ret true hi, [Called (VObj FunctionPrototype_hasInstance) i]) ∧
    Get Base (Sym Symbol_hasInstance) hi = Ok (VObj FunctionPrototype_hasInstance) ∧
    HasInstance true Base hi = (Ret Base h', t) ∧
    hasOwnProperty Base (Sym Symbol_hasInstance) h' = Ok true ∧
    Get Base (Sym Symbol_hasInstance) h' = Ok handler ∧
    code_of h' handler
    = Some (CHasInstanceValue (VObj FunctionPrototype_hasInstance) Base) ∧
    expresses i Base h' = Ok false ∧
    prior_or_expresses sample_user 1 (VObj FunctionPrototype_hasInstance) Base i h'
    = (Ret true h', [Called (VObj FunctionPrototype_hasInstance) i]) ∧
    instanceof sample_user 2 i Base h'
    = (Ret false h', [Called handler i; Called (VObj FunctionPrototype_hasInstance) i]).
Proof.
  pose (i := result_of VUndef (construct Base sample_heap)).
  pose (hi := heap_of (construct Base sample_heap)).
  pose (h' := heap_of (HasInstance true Base hi)).
  pose (handler := match Get Base (Sym Symbol_hasInstance) h' with
                   | Ok v => v
                   | _ => VUndef
                   end).
  exists i, hi, (snd (construct Base sample_heap)), h', (snd (HasInstance true Base hi)),
         handler.
  split_and!; run.
Qed.

(** C4. The cache is not scoped per base class when one base inherits
    from the other.  With [W = Cached(T)], [class Sub extends Base {}] and
    [W(Base)] called first, [W(Sub)] reads [Sub[_cachedApplications]]
    through the prototype chain of [Sub], finds the cache of [Base] and
    returns the class made for [Base]: the very same object, whose parent
    is [Base] and not [Sub]; [T] is not called, and [Sub] gets no cache of
    its own. *)
Theorem Cached_subclass_gets_parent_application :
  ∃ W h0 t0 Sub hs ts D1 h1 t1 D2 h2 t2,
    Cached T sample_heap = (Ret W h0, t0) ∧
    class_extends Base h0 = (Ret Sub hs, ts) ∧
    Sub ≠ Base ∧ getPrototypeOf Sub hs = Ok Base ∧
    invoke sample_user 2 W Base hs = (Ret D1 h1, t1) ∧
    t1 = [Called W Base; Called T Base] ∧
    getPrototypeOf D1 h1 = Ok Base ∧
    invoke sample_user 2 W Sub h1 = (Ret D2 h2, t2) ∧
    D2 = D1 ∧ h2 = h1 ∧ t2 = [Called W Sub] ∧
    getPrototypeOf D2 h2 = Ok Base ∧
    hasOwnProperty Sub (Sym _cachedApplications) h2 = Ok false ∧
    cached_application Sub T h2 = Ok D1.
Proof.
  pose (W := result_of VUndef (Cached T sample_heap)).
  pose (h0 := heap_of (Cached T sample_heap)).
  pose (Sub := result_of VUndef (class_extends Base h0)).
  pose (hs := heap_of (class_extends Base h0)).
  pose (D1 := result_of VUndef (invoke sample_user 2 W Base hs)).
  pose (h1 := heap_of (invoke sample_user 2 W Base hs)).
  exists W, h0, (snd (Cached T sample_heap)), Sub, hs, (snd (class_extends Base h0)),
         D1, h1, [Called W Base; Called T Base], D1, h1, [Called W Sub].
  split_and!; try reflexivity; try run.
  intros Heq. assert (Hb : bool_decide (Sub = Base) = true) by by apply bool_decide_eq_true_2.
  revert Hb. assert (Hf : bool_decide (Sub = Base) = false) by run. by rewrite Hf.
Qed.

(** ** The further properties at work *)

Lemma sample_user_frames_sym id k this arg :
  frames (Sym k) (λ h, (sample_user id this arg h, [])).
Proof.
  intros h o t h' [= <- <-] Hh.
  destruct id as [|[|[|[|id]]]]; simpl in Hh;
    try (destruct (class_extends arg h) as [o t] eqn:Hce;
         by eapply (class_extends_frames (Sym k) arg)).
  - injection Hh as <-. apply kept_refl.
  - destruct (flaky arg h) as [o t] eqn:Hfl.
    by eapply (flaky_frames (Sym k) arg).
Qed.

Lemma construct_subseteq C (h : heap) i h' t : construct C h = (Ret i h', t) → h ⊆ h'.
Proof.
  intros (p & li & _ & _ & Hli & _ & _ & ->)%construct_Ret. by apply insert_subseteq.
Qed.

Lemma wrap_delegates_witness :
  ∃ r h' t,
    is_object W1 = true ∧ wrap T W1 wrappers_heap = (Ret r h', t) ∧
    r = W1 ∧ getPrototypeOf W1 h' = Ok T ∧
    hasOwnProperty W1 (Sym _wrappedTrait) h' = Ok false ∧
    Get W1 (Sym _wrappedTrait) h' = Get T (Sym _wrappedTrait) h'.
Proof.
  ran Hw (wrap T W1 wrappers_heap).
  pose (h' := heap_of (wrap T W1 wrappers_heap)).
  assert (Hown : hasOwnProperty W1 (Sym _wrappedTrait) h' = Ok false) by run.
  destruct (wrap_delegates T W1 _ _ _ _ eq_refl Hw) as (Hr & Hp & Hread).
  eexists _, _, _.
  split_and!; [reflexivity|exact Hw|exact Hr|exact Hp|exact Hown|exact (Hread _ Hown)].
Defined.

Lemma wrap_refuses_cycle_witness :
  ∃ ob, sample_heap !! 11%positive = Some ob ∧ proto ob ≠ Some 11%positive ∧
        on_chain sample_heap (Some 11%positive) 11%positive = Some true ∧
        wrap T T sample_heap = (Throw TypeError sample_heap, []).
Proof.
  assert (Hl : sample_heap !! 11%positive
               = Some (Obj (Some FunctionPrototype) ∅ (Fun (CUser 0)))) by run.
  assert (Hp : proto (Obj (Some FunctionPrototype) ∅ (Fun (CUser 0))) ≠ Some 11%positive)
    by discriminate.
  assert (Hc : on_chain sample_heap (Some 11%positive) 11%positive = Some true) by run.
  eexists. split_and!; [exact Hl|exact Hp|exact Hc|].
  exact (wrap_refuses_cycle 11 11 sample_heap _ Hl Hp Hc).
Defined.

Lemma HasInstance_only_once_witness :
  ∃ r h' t lv2 ob2,
    hasOwnProperty T (Sym Symbol_hasInstance) sample_heap = Ok false ∧
    HasInstance true T sample_heap = (Ret r h', t) ∧
    h' !! lv2 = None ∧
    HasInstance true T h' = (Throw TypeError (<[lv2 := ob2]> h'), []).
Proof.
  assert (Hown : hasOwnProperty T (Sym Symbol_hasInstance) sample_heap = Ok false) by run.
  ran HH (HasInstance true T sample_heap).
  destruct (HasInstance_only_once T _ _ _ _ Hown HH) as (lv2 & ob2 & Hfresh & Hthrow).
  eexists _, _, _, lv2, ob2. split_and!; [exact Hown|exact HH|exact Hfresh|exact Hthrow].
Defined.

Lemma apply_failures_witness :
  apply careless_user 1 Base (VNum 5) sample_heap = (Throw TypeError sample_heap, [])
  ∧ apply careless_user 1 Base Base_prototype sample_heap = (Throw TypeError sample_heap, [])
  ∧ (invoke careless_user 1 T Base sample_heap = (Ret VUndef sample_heap, [Called T Base]) ∧
     apply careless_user 1 Base T sample_heap = (Throw TypeError sample_heap, [Called T Base]))
  ∧ (invoke careless_user 1 U Boom sample_heap = (Ret Boom sample_heap, [Called U Boom]) ∧
     Get Boom (Str "prototype") sample_heap = Ok VUndef ∧
     apply careless_user 1 Boom U sample_heap = (Throw TypeError sample_heap, [Called U Boom])).
Proof.
  split; [|split; [|split]].
  - apply (proj1 (apply_failures careless_user 0 Base (VNum 5) sample_heap));
      [reflexivity|discriminate].
  - apply (proj1 (apply_failures careless_user 0 Base Base_prototype sample_heap)); [run|].
    intros l [= <-]. exists (Obj (Some ObjectPrototype)
                                 {[ Str "constructor" := Prop_ Base true true ]} Plain).
    run.
  - assert (Hi : invoke careless_user 1 T Base sample_heap
                 = (Ret VUndef sample_heap, [Called T Base])) by run.
    split; [exact Hi|].
    exact (proj1 (proj2 (apply_failures careless_user 1 Base T sample_heap)) _ _ _ Hi eq_refl).
  - assert (Hi : invoke careless_user 1 U Boom sample_heap
                 = (Ret Boom sample_heap, [Called U Boom])) by run.
    assert (Hp : Get Boom (Str "prototype") sample_heap = Ok VUndef) by run.
    assert (Hu : unwrap U sample_heap = Ok U) by run.
    split_and!; [exact Hi|exact Hp|].
    exact (proj2 (proj2 (apply_failures careless_user 1 Boom U sample_heap))
             _ _ _ _ _ Hi Hp eq_refl Hu).
Defined.

Lemma expressing_stops_at_failure_witness :
  ∃ builder h t x h1 t1 h2 t2,
    superclass Base sample_heap = (Ret builder h, t) ∧
    expressing sample_user 1 builder [T] h = (Ret x h1, t1) ∧
    invoke sample_user 1 Boom x h1 = (Throw (Thrown (VStr "boom")) h2, t2) ∧
    expressing sample_user 1 builder [T; Boom; U] h
    = (Throw (Thrown (VStr "boom")) h2, t1 ++ t2) ∧
    invocations U (t1 ++ t2) = 0.
Proof.
  ran Hs (superclass Base sample_heap).
  pose (builder := result_of VUndef (superclass Base sample_heap)).
  pose (h := heap_of (superclass Base sample_heap)).
  ran H1 (expressing sample_user 1 builder [T] h).
  pose (x := result_of VUndef (expressing sample_user 1 builder [T] h)).
  pose (h1 := heap_of (expressing sample_user 1 builder [T] h)).
  threw H2 (invoke sample_user 1 Boom x h1) (Thrown (VStr "boom")).
  eexists _, _, _, _, _, _, _, _.
  split_and!; [exact Hs|exact H1|exact H2| |run].
  exact (expressing_stops_at_failure sample_user 1 _ [T] Boom [U] _ _ _ _ _ _ _ H1 H2).
Defined.

Lemma subclass_instance_expresses_witness :
  ∃ app h1 t1 C h2 t2 i h3 t3 own,
    apply sample_user 1 Base T sample_heap = (Ret app h1, t1) ∧
    class_extends app h1 = (Ret C h2, t2) ∧
    construct C h2 = (Ret i h3, t3) ∧
    expresses i T h3 = Ok true ∧
    Get C (Str "prototype") h3 = Ok own ∧
    isTraitificationOf own T h3 = Ok false ∧ getPrototypeOf i h3 = Ok own.
Proof.
  ran Ha (apply sample_user 1 Base T sample_heap).
  pose (app := result_of VUndef (apply sample_user 1 Base T sample_heap)).
  pose (h1 := heap_of (apply sample_user 1 Base T sample_heap)).
  ran Hc (class_extends app h1).
  pose (C := result_of VUndef (class_extends app h1)).
  pose (h2 := heap_of (class_extends app h1)).
  ran Hn (construct C h2).
  destruct (subclass_instance_expresses sample_user _ _ _ _ _ _ _ _ _ _ _ _ _ Ha Hc Hn)
    as (Hexp & own & Hown & Hnot & Hproto).
  eexists _, _, _, _, _, _, _, _, _, own.
  split_and!; [exact Ha|exact Hc|exact Hn|exact Hexp|exact Hown|exact Hnot|exact Hproto].
Defined.

Lemma BareTrait_application_recognised_witness :
  ∃ bare h0 t0 app h1 t1 surface,
    unwrap T sample_heap = Ok T ∧ code_of sample_heap T = Some (CUser 0) ∧
    BareTrait T sample_heap = (Ret bare h0, t0) ∧
    invoke sample_user 2 bare Base h0 = (Ret app h1, t1) ∧
    t1 = [Called bare Base; Called T Base] ∧
    Get app (Str "prototype") h1 = Ok surface ∧
    isTraitificationOf surface bare h1 = Ok true ∧
    isTraitificationOf surface T h1 = Ok true.
Proof.
  assert (Hu : unwrap T sample_heap = Ok T) by run.
  assert (Hc : code_of sample_heap T = Some (CUser 0)) by run.
  ran Hb (BareTrait T sample_heap).
  pose (bare := result_of VUndef (BareTrait T sample_heap)).
  pose (h0 := heap_of (BareTrait T sample_heap)).
  ran Hcall (invoke sample_user 2 bare Base h0).
  destruct (BareTrait_application_recognised sample_user 0 T 0 Base _ _ _ _ _ _ _ _
              Hu Hc (sample_user_frames_sym 0 _wrappedTrait) Hb Hcall)
    as (Ht & surface & Hs & Hbare & HT).
  eexists _, _, _, _, _, _, surface.
  split_and!; [exact Hu|exact Hc|exact Hb|exact Hcall|exact Ht|exact Hs|exact Hbare|exact HT].
Defined.

Lemma Dedupe_BareTrait_applies_once_witness :
  ∃ bare hb tb D h0 t0 C1 h1 t1,
    BareTrait T sample_heap = (Ret bare hb, tb) ∧ Dedupe bare hb = (Ret D h0, t0) ∧
    Get Base (Str "prototype") h0 = Ok Base_prototype ∧
    expresses Base_prototype bare h0 = Ok false ∧
    invoke sample_user 3 D Base h0 = (Ret C1 h1, t1) ∧
    t1 = [Called D Base; Called bare Base; Called T Base] ∧
    invoke sample_user 3 D C1 h1 = (Ret C1 h1, [Called D C1]) ∧
    invocations T (t1 ++ [Called D C1]) = 1.
Proof.
  assert (Hu : unwrap T sample_heap = Ok T) by run.
  assert (Hc : code_of sample_heap T = Some (CUser 0)) by run.
  ran Hb (BareTrait T sample_heap).
  pose (bare := result_of VUndef (BareTrait T sample_heap)).
  pose (hb := heap_of (BareTrait T sample_heap)).
  ran Hd (Dedupe bare hb).
  pose (D := result_of VUndef (Dedupe bare hb)).
  pose (h0 := heap_of (Dedupe bare hb)).
  assert (Hs : Get Base (Str "prototype") h0 = Ok Base_prototype) by run.
  assert (Hnot : expresses Base_prototype bare h0 = Ok false) by run.
  ran Hcall (invoke sample_user 3 D Base h0).
  destruct (Dedupe_BareTrait_applies_once sample_user 0 T 0 Base _ _ _ _ _ _ _ _ _ _ _ _
              Hu Hc (sample_user_frames_sym 0 _wrappedTrait) Hb Hd Hs Hnot Hcall)
    as (Ht & Hagain & Hcount).
  eexists _, _, _, _, _, _, _, _, _.
  split_and!; [exact Hb|exact Hd|exact Hs|exact Hnot|exact Hcall|exact Ht|exact Hagain
              |exact Hcount].
Defined.

Lemma Trait_identity_witness :
  ∃ W h' t cached bare,
    unwrap T sample_heap = Ok T ∧ Trait true T sample_heap = (Ret W h', t) ∧
    W ≠ T ∧ unwrap W h' = Ok T ∧ unwrap T h' = Ok T ∧
    getPrototypeOf W h' = Ok cached ∧ getPrototypeOf cached h' = Ok bare ∧
    getPrototypeOf bare h' = Ok T.
Proof.
  assert (Hu : unwrap T sample_heap = Ok T) by run.
  ran Ht (Trait true T sample_heap).
  destruct (Trait_identity true T _ _ _ _ _ Hu Ht)
    as (Hne & HW & HT & cached & bare & H1 & H2 & H3 & _).
  eexists _, _, _, cached, bare.
  split_and!; [exact Hu|exact Ht|exact Hne|exact HW|exact HT|exact H1|exact H2|exact H3].
Defined.

Lemma HasInstance_replaces_ordinary_check_witness :
  ∃ i hi ti r h' t handler,
    construct Base sample_heap = (Ret i hi, ti) ∧
    (* before: the ordinary check *)
    instanceof sample_user 2 i Base hi
    = (Ret true hi, [Called (VObj FunctionPrototype_hasInstance) i]) ∧
    HasInstance true Base hi = (Ret r h', t) ∧
    Get Base (Sym Symbol_hasInstance) hi = Ok (VObj FunctionPrototype_hasInstance) ∧
    (* after: [expresses] alone *)
    expresses i Base h' = Ok false ∧
    Get Base (Sym Symbol_hasInstance) h' = Ok handler ∧
    instanceof sample_user 2 i Base h'
    = (Ret false h', [Called handler i; Called (VObj FunctionPrototype_hasInstance) i]).
Proof.
  ran Hn (construct Base sample_heap).
  pose (i := result_of VUndef (construct Base sample_heap)).
  pose (hi := heap_of (construct Base sample_heap)).
  assert (Hbefore : instanceof sample_user 2 i Base hi
                    = (Ret true hi, [Called (VObj FunctionPrototype_hasInstance) i])) by run.
  ran HH (HasInstance true Base hi).
  pose (h' := heap_of (HasInstance true Base hi)).
  assert (Hprior : Get Base (Sym Symbol_hasInstance) hi
                   = Ok (VObj FunctionPrototype_hasInstance)) by run.
  assert (Hbuiltin : code_of hi (VObj FunctionPrototype_hasInstance)
                     = Some CFunctionHasInstance) by run.
  assert (Hexp : expresses i Base h' = Ok false) by run.
  destruct (HasInstance_replaces_ordinary_check sample_user Base _ _ _ _ h'
              HH Hprior Hbuiltin (kept_refl _ _)) as (handler & Hhandler & Hcheck).
  pose proof (Hcheck 0 i) as Hafter.
  rewrite Hexp in Hafter.
  eexists _, _, _, _, _, _, handler.
  split_and!; [exact Hn|exact Hbefore|exact HH|exact Hprior|exact Hexp|exact Hhandler
              |exact Hafter].
Defined.

Lemma Cached_returns_what_it_reads_witness :
  ∃ W h0 t0 Sub hs ts D1 h1 t1 m,
    Cached T sample_heap = (Ret W h0, t0) ∧
    class_extends Base h0 = (Ret Sub hs, ts) ∧
    invoke sample_user 2 W Base hs = (Ret D1 h1, t1) ∧
    hasOwnProperty Sub (Sym _cachedApplications) h1 = Ok false ∧
    Get Sub (Sym _cachedApplications) h1 = Ok m ∧ Map_get m T h1 = Ok D1 ∧
    invoke sample_user 2 W Sub h1 = (Ret D1 h1, [Called W Sub]).
Proof.
  ran HC (Cached T sample_heap).
  pose (W := result_of VUndef (Cached T sample_heap)).
  pose (h0 := heap_of (Cached T sample_heap)).
  ran Hs (class_extends Base h0).
  pose (Sub := result_of VUndef (class_extends Base h0)).
  pose (hs := heap_of (class_extends Base h0)).
  ran H1 (invoke sample_user 2 W Base hs).
  pose (D1 := result_of VUndef (invoke sample_user 2 W Base hs)).
  pose (h1 := heap_of (invoke sample_user 2 W Base hs)).
  pose (m := match Get Sub (Sym _cachedApplications) h1 with Ok v => v | _ => VUndef end).
  assert (Hown : hasOwnProperty Sub (Sym _cachedApplications) h1 = Ok false) by run.
  assert (Hm : Get Sub (Sym _cachedApplications) h1 = Ok m) by run.
  assert (Hget : Map_get m T h1 = Ok D1) by run.
  assert (Hc : code_of h1 W = Some (CCachedWrapper T)) by run.
  assert (Htm : truthy m = true) by run.
  assert (Htd : truthy D1 = true) by run.
  exists W, h0, (snd (Cached T sample_heap)), Sub, hs, (snd (class_extends Base h0)),
         D1, h1, (snd (invoke sample_user 2 W Base hs)), m.
  split_and!; [exact HC|exact Hs|exact H1|exact Hown|exact Hm|exact Hget|].
  exact (Cached_returns_what_it_reads sample_user 1 W T Sub h1 m D1 Hc Hm Htm Hget Htd).
Defined.

Lemma Cached_leaves_unrelated_bases_witness :
  ∃ W h0 t0 Other h t app h1 t1,
    Cached T sample_heap = (Ret W h0, t0) ∧ with_Other h0 = (Ret Other h, t) ∧
    on_chain h (lookup_start Other) 9%positive = Some false ∧
    Get Other (Sym _cachedApplications) h = Ok VUndef ∧
    Get Base (Sym _cachedApplications) h = Ok VUndef ∧
    invoke sample_user 2 W Base h = (Ret app h1, t1) ∧
    Get Other (Sym _cachedApplications) h1 = Ok VUndef ∧
    cached_application Other T h1 = Ok VUndef ∧
    hasOwnProperty Base (Sym _cachedApplications) h1 = Ok true ∧
    cached_application Base T h1 = Ok app ∧
    t1 = [Called W Base; Called T Base].
Proof.
  ran HC (Cached T sample_heap).
  pose (W := result_of VUndef (Cached T sample_heap)).
  pose (h0 := heap_of (Cached T sample_heap)).
  ran Ho (with_Other h0).
  pose (Other := result_of VUndef (with_Other h0)).
  pose (h := heap_of (with_Other h0)).
  assert (Hoff : on_chain h (lookup_start Other) 9%positive = Some false) by run.
  assert (Hx : Get Other (Sym _cachedApplications) h = Ok VUndef) by run.
  assert (Hy : Get Base (Sym _cachedApplications) h = Ok VUndef) by run.
  assert (HcW : code_of h W = Some (CCachedWrapper T)) by run.
  assert (HcT : code_of h T = Some (CUser 0)) by run.
  ran H1 (invoke sample_user 2 W Base h).
  destruct (Cached_leaves_unrelated_bases sample_user 0 W T 0 9 Other h VUndef _ _ _
              HcW HcT (sample_user_frames_sym 0 _cachedApplications) Hoff Hx eq_refl H1)
    as (Hx1 & Hnone & Hown).
  destruct (Hown VUndef Hy eq_refl) as (Hown1 & Hcached & Ht).
  eexists _, _, _, _, _, _, _, _, _.
  split_and!; [exact HC|exact Ho|exact Hoff|exact Hx|exact Hy|exact H1|exact Hx1|exact Hnone
              |exact Hown1|exact Hcached|exact Ht].
Defined.

Lemma Trait_end_to_end_witness :
  ∃ W h0 t0 C h1 t1 i h2 t2 handler,
    unwrap T sample_heap = Ok T ∧
    Trait true T sample_heap = (Ret W h0, t0) ∧
    expresses Base_prototype W h0 = Ok false ∧
    Get Base (Sym _cachedApplications) h0 = Ok VUndef ∧
    invoke sample_user 4 W Base h0 = (Ret C h1, t1) ∧
    construct C h1 = (Ret i h2, t2) ∧
    invocations T t1 = 1 ∧
    invoke sample_user 4 W C h1 = (Ret C h1, [Called W C]) ∧
    expresses i W h2 = Ok true ∧ expresses i T h2 = Ok true ∧
    instanceof sample_user 2 i W h2
    = (Ret true h2, [Called handler i; Called (VObj FunctionPrototype_hasInstance) i]).
Proof.
  assert (Hu : unwrap T sample_heap = Ok T) by run.
  assert (HcT : code_of sample_heap T = Some (CUser 0)) by run.
  assert (Hprior : Get T (Sym Symbol_hasInstance) sample_heap
                   = Ok (VObj FunctionPrototype_hasInstance)) by run.
  assert (Hbuiltin : code_of sample_heap (VObj FunctionPrototype_hasInstance)
                     = Some CFunctionHasInstance) by run.
  ran Ht (Trait true T sample_heap).
  pose (W := result_of VUndef (Trait true T sample_heap)).
  pose (h0 := heap_of (Trait true T sample_heap)).
  assert (Hs : Get Base (Str "prototype") h0 = Ok Base_prototype) by run.
  assert (Hnot : expresses Base_prototype W h0 = Ok false) by run.
  assert (Hy : Get Base (Sym _cachedApplications) h0 = Ok VUndef) by run.
  ran Hcall (invoke sample_user 4 W Base h0).
  pose (C := result_of VUndef (invoke sample_user 4 W Base h0)).
  pose (h1 := heap_of (invoke sample_user 4 W Base h0)).
  ran Hnew (construct C h1).
  destruct (Trait_end_to_end sample_user 0 T 0 Base sample_heap T W h0 _ Base_prototype
              VUndef C h1 _ _ _ _
              Hu HcT (λ k, sample_user_frames_sym 0 k) Hprior Hbuiltin Ht Hs Hnot Hy eq_refl
              Hcall Hnew)
    as (Hcount & Hagain & HeW & HeT & handler & Hinst).
  eexists _, _, _, _, _, _, _, _, _, handler.
  split_and!; [exact Hu|exact Ht|exact Hnot|exact Hy|exact Hcall|exact Hnew|exact Hcount
              |exact Hagain|exact HeW|exact HeT|exact Hinst].
Defined.

Lemma careless_user_frames id k this arg :
  frames k (λ h, (careless_user id this arg h, [])).
Proof.
  intros h o t h' [= <- <-] Hh. destruct id; injection Hh as <-; apply kept_refl.
Qed.

Lemma Cached_falsy_result_runs_again_witness :
  ∃ W h t app h1 t1 m,
    Cached T sample_heap = (Ret W h, t) ∧
    invoke careless_user 2 W Base h = (Ret app h1, t1) ∧ truthy app = false ∧
    t1 = [Called W Base; Called T Base] ∧
    Get Base (Sym _cachedApplications) h1 = Ok m ∧ Map_get m T h1 = Ok app ∧
    invoke careless_user 2 W Base h1 = (Ret app h1, [Called W Base; Called T Base]).
Proof.
  ran HC (Cached T sample_heap).
  pose (W := result_of VUndef (Cached T sample_heap)).
  pose (h := heap_of (Cached T sample_heap)).
  assert (HcW : code_of h W = Some (CCachedWrapper T)) by run.
  assert (HcT : code_of h T = Some (CUser 0)) by run.
  ran H1 (invoke careless_user 2 W Base h).
  pose (h1 := heap_of (invoke careless_user 2 W Base h)).
  assert (Happ : truthy (result_of VUndef (invoke careless_user 2 W Base h)) = false) by run.
  assert (Ht1 : snd (invoke careless_user 2 W Base h) = [Called W Base; Called T Base]) by run.
  destruct (Cached_falsy_result_runs_again careless_user 0 W T 0 Base h _ _ _
              HcW HcT (careless_user_frames 0 _) H1 Happ) as (m & Hm & Hget & Hagain).
  assert (H2 : invoke careless_user 2 W Base h1
               = (Ret (result_of VUndef (invoke careless_user 2 W Base h)) h1,
                  [Called W Base; Called T Base])) by run.
  eexists _, _, _, _, _, _, m.
  split_and!; [exact HC|exact H1|exact Happ|exact Ht1|exact Hm|exact Hget|exact H2].
Defined.

Lemma wrap_again_changes_nothing_witness :
  ∃ r h' t,
    is_object W1 = true ∧ wrap T W1 wrappers_heap = (Ret r h', t) ∧
    getPrototypeOf W1 wrappers_heap = Ok (VObj FunctionPrototype) ∧
    getPrototypeOf W1 h' = Ok T ∧ wrap T W1 h' = (Ret W1 h', []).
Proof.
  ran Hw (wrap T W1 wrappers_heap).
  pose (h' := heap_of (wrap T W1 wrappers_heap)).
  assert (Hp0 : getPrototypeOf W1 wrappers_heap = Ok (VObj FunctionPrototype)) by run.
  assert (Hp1 : getPrototypeOf W1 h' = Ok T) by run.
  eexists _, _, _. split_and!; [reflexivity|exact Hw|exact Hp0|exact Hp1|].
  exact (wrap_again_changes_nothing T W1 _ _ _ _ eq_refl Hw).
Defined.

Lemma expresses_answers_from_the_chain_witness :
  ∃ L last,
    expresses Base_prototype T sample_heap = Ok false ∧
    surfaces sample_heap Base_prototype L last ∧
    Forall (λ s, isTraitificationOf s T sample_heap = Ok false) L ∧
    nullish last = true.
Proof.
  assert (He : expresses Base_prototype T sample_heap = Ok false) by run.
  destruct (expresses_answers_from_the_chain _ _ _ _ He) as (L & last & Hs & HF & Hl).
  exists L, last. split_and!; [exact He|exact Hs|exact HF|exact Hl].
Defined.

End Witnesses.
